(** * aisynphys: database access layer, streaming exporter and pipeline readiness

    A shallow embedding of
      - [multipatch_analysis/database/database.py]
        (engine and session management, the default session, [TableGroup],
        the column types and [make_table], [vacuum], [bake_sqlite],
        [TableReadThread]),
      - [multipatch_analysis/pipeline/multipatch/experiment.py]
        ([ExperimentPipelineModule]),
      - [aisynphys/pipeline/opto/opto_experiment.py]
        ([OptoExperimentPipelineModule], [read_expt_csvs], [load_experiment]),
    together with the properties the specification states about them and
    further properties of the same code.

    Python module globals are fields of an explicit [World]; a function that
    may raise returns a [res], and so does the read of a property of an
    object of another module; the reader thread and the bounded queue of
    the exporter form a transition system whose steps are those of the
    producer and of the consumer, taken in any order.

    The file has two parts: the embedding (definitions only), then the
    lemmas and theorems about it. *)

From Stdlib Require Import List String Ascii ZArith Lia Bool Arith PeanoNat.
From Stdlib Require Import DecimalString Sorted Permutation.
Import ListNotations.
Local Open Scope string_scope.

(* ===================================================================== *)
(** * Part I.  The embedding                                             *)
(* ===================================================================== *)

(** ** Python values shared by all modules *)

(** The exception classes the embedded code raises or meets.  All of them
    derive from [Exception], so [except Exception] catches each. *)
Inductive exn : Type :=
| PyException (msg : string)          (* raise Exception(msg) *)
| RuntimeError (msg : string)
| ValueError (msg : string)
| TypeError (msg : string)
| NameError (name : string)
| UnboundLocalError (name : string)
| AttributeError (msg : string)
| KeyError (key : string)
| ExternalError (msg : string).       (* raised inside a library call *)

Inductive res (A : Type) : Type :=
| Ok (a : A)
| Raise (e : exn).
Arguments Ok {A} a.
Arguments Raise {A} e.

Definition res_bind {A B} (c : res A) (k : A -> res B) : res B :=
  match c with
  | Ok a => k a
  | Raise e => Raise e
  end.

(** [try: ... except Exception: ...] is a [match] on the [res] of the
    guarded block: the [Raise] branch is the handler. *)

Declare Scope res_scope.
Delimit Scope res_scope with res.
Notation "x <- c ;; k" := (res_bind c (fun x => k))
  (at level 61, c at next level, right associativity) : res_scope.
Notation "' p <- c ;; k" := (res_bind c (fun x => let p := x in k))
  (at level 61, p pattern, c at next level, right associativity) : res_scope.

(** A [for] loop whose body may raise: the first exception that leaves the
    body ends the loop and leaves the function. *)
Fixpoint for_each {A S} (xs : list A) (body : S -> A -> res S) (s : S) : res S :=
  match xs with
  | [] => Ok s
  | x :: xs' => res_bind (body s x) (for_each xs' body)
  end.

Definition str_mem (x : string) (l : list string) : bool :=
  existsb (String.eqb x) l.

(** [collections.OrderedDict] (and, from Python 3.7, [dict]) with string
    keys: an association list in insertion order.  Assigning to a key that
    is present keeps its position and replaces its value; a new key goes to
    the end. *)
Module OrderedDict.

Definition t (V : Type) := list (string * V).

Definition empty {V} : t V := [].

Fixpoint get {V} (d : t V) (k : string) : option V :=
  match d with
  | [] => None
  | (k', v) :: d' => if String.eqb k' k then Some v else get d' k
  end.

Fixpoint set {V} (d : t V) (k : string) (v : V) : t V :=
  match d with
  | [] => [(k, v)]
  | (k', v') :: d' =>
      if String.eqb k' k then (k', v) :: d' else (k', v') :: set d' k v
  end.

Definition keys {V} (d : t V) : list string := map fst d.

Definition len {V} (d : t V) : nat := List.length d.

(** The dictionary after a run of assignments, some of them skipped. *)
Definition collect {V} (assignments : list (option (string * V))) (d : t V) : t V :=
  fold_left (fun d a => match a with
                        | Some (k, v) => set d k v
                        | None => d
                        end) assignments d.

End OrderedDict.

(* ===================================================================== *)
(** ** database.py: engines, sessions and table groups                   *)
(* ===================================================================== *)
Module Database.

(** The attributes of [config] the module reads, and [sys.argv]. *)
Record Config := {
  synphys_db : string;
  synphys_db_host : string;
  synphys_db_host_rw : option string;
  sys_argv : list string
}.

Definition db_version : nat := 12.

Definition db_name (cfg : Config) : string :=
  synphys_db cfg ++ "_" ++ NilEmpty.string_of_uint (Nat.to_uint db_version).

Definition app_name (cfg : Config) : string :=
  substring 0 60 ("mp_a:" ++ String.concat " " (sys_argv cfg)).

Definition extra (cfg : Config) : string :=
  if prefix "postgres" (synphys_db_host cfg)
  then "/" ++ db_name cfg ++ "?application_name=" ++ app_name cfg
  else "".

Definition db_address_ro (cfg : Config) : string :=
  synphys_db_host cfg ++ extra cfg.

Definition db_address_rw (cfg : Config) : option string :=
  match synphys_db_host_rw cfg with
  | None => None
  | Some host => Some (host ++ extra cfg)
  end.

(** A sqlalchemy [Engine] object.  [engine_id] is its identity: the number
    of engines the process had constructed before it. *)
Record Engine := {
  engine_id : nat;
  url : string;
  options : list (string * string)
}.

(** [sessionmaker(bind=...)] and the sessions it makes. *)
Record sessionmaker := { bind : option Engine }.
Record SessionObject := { session_bind : option Engine }.

(** A mapped table ([cls.__table__]). *)
Record Table := { table_name : string }.

(** The DDL batches sent to the database. *)
Inductive Statement : Type :=
| CreateAll (on : Engine) (tables : option (list Table)).

(** The module globals, the process id the operating system reports, the
    engines disposed so far, the catalogue of each database address
    ([Engine.table_names()]), the tables registered with
    [ORMBase.metadata], and the DDL sent. *)
Record World := {
  engine_ro : option Engine;
  engine_rw : option Engine;
  engine_pid : option nat;
  _sessionmaker_ro : option sessionmaker;
  _sessionmaker_rw : option sessionmaker;
  os_pid : nat;
  engines_created : nat;
  disposed : list Engine;
  catalog : string -> list string;
  metadata : list Table;
  statements : list Statement
}.

Definition set_engine_ro (v : option Engine) (w : World) : World :=
  {| engine_ro := v; engine_rw := engine_rw w; engine_pid := engine_pid w;
     _sessionmaker_ro := _sessionmaker_ro w; _sessionmaker_rw := _sessionmaker_rw w;
     os_pid := os_pid w; engines_created := engines_created w;
     disposed := disposed w; catalog := catalog w; metadata := metadata w;
     statements := statements w |}.

Definition set_engine_rw (v : option Engine) (w : World) : World :=
  {| engine_ro := engine_ro w; engine_rw := v; engine_pid := engine_pid w;
     _sessionmaker_ro := _sessionmaker_ro w; _sessionmaker_rw := _sessionmaker_rw w;
     os_pid := os_pid w; engines_created := engines_created w;
     disposed := disposed w; catalog := catalog w; metadata := metadata w;
     statements := statements w |}.

Definition set_engine_pid (v : option nat) (w : World) : World :=
  {| engine_ro := engine_ro w; engine_rw := engine_rw w; engine_pid := v;
     _sessionmaker_ro := _sessionmaker_ro w; _sessionmaker_rw := _sessionmaker_rw w;
     os_pid := os_pid w; engines_created := engines_created w;
     disposed := disposed w; catalog := catalog w; metadata := metadata w;
     statements := statements w |}.

Definition set_sessionmaker_ro (v : option sessionmaker) (w : World) : World :=
  {| engine_ro := engine_ro w; engine_rw := engine_rw w; engine_pid := engine_pid w;
     _sessionmaker_ro := v; _sessionmaker_rw := _sessionmaker_rw w;
     os_pid := os_pid w; engines_created := engines_created w;
     disposed := disposed w; catalog := catalog w; metadata := metadata w;
     statements := statements w |}.

Definition set_sessionmaker_rw (v : option sessionmaker) (w : World) : World :=
  {| engine_ro := engine_ro w; engine_rw := engine_rw w; engine_pid := engine_pid w;
     _sessionmaker_ro := _sessionmaker_ro w; _sessionmaker_rw := v;
     os_pid := os_pid w; engines_created := engines_created w;
     disposed := disposed w; catalog := catalog w; metadata := metadata w;
     statements := statements w |}.

(** A fork: the child inherits every global and has another process id. *)
Definition set_os_pid (p : nat) (w : World) : World :=
  {| engine_ro := engine_ro w; engine_rw := engine_rw w; engine_pid := engine_pid w;
     _sessionmaker_ro := _sessionmaker_ro w; _sessionmaker_rw := _sessionmaker_rw w;
     os_pid := p; engines_created := engines_created w;
     disposed := disposed w; catalog := catalog w; metadata := metadata w;
     statements := statements w |}.

(** [engine.dispose()] *)
Definition dispose (e : Engine) (w : World) : World :=
  {| engine_ro := engine_ro w; engine_rw := engine_rw w; engine_pid := engine_pid w;
     _sessionmaker_ro := _sessionmaker_ro w; _sessionmaker_rw := _sessionmaker_rw w;
     os_pid := os_pid w; engines_created := engines_created w;
     disposed := e :: disposed w; catalog := catalog w; metadata := metadata w;
     statements := statements w |}.

(** [create_engine(address, **opts)]: a new object each time. *)
Definition create_engine (address : string) (opts : list (string * string))
    (w : World) : Engine * World :=
  ({| engine_id := engines_created w; url := address; options := opts |},
   {| engine_ro := engine_ro w; engine_rw := engine_rw w; engine_pid := engine_pid w;
      _sessionmaker_ro := _sessionmaker_ro w; _sessionmaker_rw := _sessionmaker_rw w;
      os_pid := os_pid w; engines_created := S (engines_created w);
      disposed := disposed w; catalog := catalog w; metadata := metadata w;
      statements := statements w |}).

Definition dispose_engines (w : World) : World :=
  let w1 :=
    match engine_ro w with
    | Some e => set_sessionmaker_ro None (set_engine_ro None (dispose e w))
    | None => w
    end in
  let w2 :=
    match engine_rw w1 with
    | Some e => set_sessionmaker_rw None (set_engine_rw None (dispose e w1))
    | None => w1
    end in
  set_engine_pid None w2.

Definition init_engines (cfg : Config) (w : World) : World :=
  let w := dispose_engines w in
  let '(opts_ro, opts_rw) :=
    if prefix "postgres" (db_address_ro cfg)
    then ([("pool_size", "10"); ("max_overflow", "40");
           ("isolation_level", "AUTOCOMMIT")],
          [("pool_size", "10"); ("max_overflow", "40")])
    else ([], []) in
  let '(e_ro, w) := create_engine (db_address_ro cfg) opts_ro w in
  let w := set_engine_ro (Some e_ro) w in
  let w :=
    match db_address_rw cfg with
    | Some address =>
        let '(e_rw, w') := create_engine address opts_rw w in
        set_engine_rw (Some e_rw) w'
    | None => w
    end in
  set_engine_pid (Some (os_pid w)) w.

(** [os.getpid() != engine_pid] *)
Definition pid_differs (w : World) : bool :=
  match engine_pid w with
  | Some p => negb (Nat.eqb (os_pid w) p)
  | None => true
  end.

Definition get_engines (cfg : Config) (w : World)
    : (option Engine * option Engine) * World :=
  let w := if pid_differs w then dispose_engines w else w in
  let w := match engine_ro w with
           | None => init_engines cfg w
           | Some _ => w
           end in
  ((engine_ro w, engine_rw w), w).

(** The globals just after the module has been imported by process [pid]:
    [init_engines()] at line 262, then the two session makers set to None. *)
Definition module_import (cfg : Config) (pid : nat)
    (cat : string -> list string) (meta : list Table) : World :=
  let w0 := {| engine_ro := None; engine_rw := None; engine_pid := None;
               _sessionmaker_ro := None; _sessionmaker_rw := None;
               os_pid := pid; engines_created := 0; disposed := [];
               catalog := cat; metadata := meta; statements := [] |} in
  set_sessionmaker_rw None (set_sessionmaker_ro None (init_engines cfg w0)).

(** Calling a session maker. *)
Definition make_session (sm : option sessionmaker) : res SessionObject :=
  match sm with
  | Some m => Ok {| session_bind := bind m |}
  | None => Raise (TypeError "'NoneType' object is not callable")
  end.

Definition no_write_access_message : string :=
  "Cannot start read-write DB session; no write access engine is defined (see config.synphys_db_host_rw)".

Definition Session (cfg : Config) (readonly : bool) (w : World)
    : res SessionObject * World :=
  let '((ro, rw), w) := get_engines cfg w in
  let w := set_engine_rw rw (set_engine_ro ro w) in
  if readonly then
    let w := match _sessionmaker_ro w with
             | None => set_sessionmaker_ro (Some {| bind := engine_ro w |}) w
             | Some _ => w
             end in
    (make_session (_sessionmaker_ro w), w)
  else
    match engine_rw w with
    | None => (Raise (RuntimeError no_write_access_message), w)
    | Some _ =>
        let w := match _sessionmaker_rw w with
                 | None => set_sessionmaker_rw (Some {| bind := engine_rw w |}) w
                 | Some _ => w
                 end in
        (make_session (_sessionmaker_rw w), w)
    end.

(** [ORMBase.metadata.create_all(bind=..., tables=...)]: one batch of DDL;
    the tables that are not in the catalogue yet are created in the order
    given ([tables=None] stands for every registered table). *)
Definition add_tables (names : list string) (present : list string) : list string :=
  fold_left (fun acc n => if str_mem n acc then acc else (acc ++ [n])%list) names present.

Definition metadata_create_all (on : option Engine) (tables : option (list Table))
    (w : World) : res unit * World :=
  match on with
  | None => (Raise (ExternalError "UnboundExecutionError"), w)
  | Some e =>
      let ts := match tables with Some l => l | None => metadata w end in
      let cat' := fun address =>
        if String.eqb address (url e)
        then add_tables (map table_name ts) (catalog w address)
        else catalog w address in
      (Ok tt,
       {| engine_ro := engine_ro w; engine_rw := engine_rw w; engine_pid := engine_pid w;
          _sessionmaker_ro := _sessionmaker_ro w; _sessionmaker_rw := _sessionmaker_rw w;
          os_pid := os_pid w; engines_created := engines_created w;
          disposed := disposed w; catalog := cat'; metadata := metadata w;
          statements := (statements w ++ [CreateAll e tables])%list |})
  end.

(** The module-level [create_tables(tables=None, engine=None)].  [engine_rw]
    is a local name of this function, bound only on the branch where
    [engine] is None. *)
Definition create_tables (cfg : Config) (tables : option (list Table))
    (engine : option Engine) (w : World) : res unit * World :=
  match engine with
  | None =>
      let '((_, engine_rw), w) := get_engines cfg w in
      metadata_create_all engine_rw tables w
  | Some _ => (Raise (UnboundLocalError "engine_rw"), w)
  end.

(** [TableGroup]: the declared schemas, in order, and the mapped classes. *)
Record TableGroup := {
  schemas : OrderedDict.t (list (string * string));
  mappings : OrderedDict.t Table
}.

(** [TableGroup.__getitem__] *)
Definition getitem (tg : TableGroup) (item : string) : res Table :=
  match OrderedDict.get (mappings tg) item with
  | Some t => Ok t
  | None => Raise (KeyError item)
  end.

Definition table_not_found_message (cfg : Config) (k : string) : string :=
  "Table " ++ k ++ " not found in database " ++ db_address_ro cfg.

(** [engine_ro.table_names()] *)
Definition table_names (ro : option Engine) (w : World) : res (list string) :=
  match ro with
  | Some e => Ok (catalog w (url e))
  | None => Raise (AttributeError "'NoneType' object has no attribute 'table_names'")
  end.

(** The loop of the read-only branch of [TableGroup.create_tables]. *)
Definition verify_tables (cfg : Config) (w : World) (ks : list string) : res unit :=
  for_each ks
    (fun _ k =>
       res_bind (table_names (engine_ro w) w) (fun names =>
       if negb (str_mem k names)
       then Raise (PyException (table_not_found_message cfg k))
       else Ok tt))
    tt.

(** [[self[k].__table__ for k in self.schemas]] *)
Fixpoint group_tables (tg : TableGroup) (ks : list string) : res (list Table) :=
  match ks with
  | [] => Ok []
  | k :: ks' =>
      res_bind (getitem tg k) (fun t =>
      res_bind (group_tables tg ks') (fun ts => Ok (t :: ts)))
  end.

Definition TableGroup_create_tables (cfg : Config) (tg : TableGroup) (w : World)
    : res unit * World :=
  match engine_rw w with
  | None => (verify_tables cfg w (OrderedDict.keys (schemas tg)), w)
  | Some _ =>
      match group_tables tg (OrderedDict.keys (schemas tg)) with
      | Raise e => (Raise e, w)
      | Ok ts => create_tables cfg (Some ts) None w
      end
  end.

(** What a process can do to the globals after importing the module. *)
Inductive Op : Type :=
| op_get_engines
| op_init_engines
| op_dispose_engines
| op_Session (readonly : bool)
| op_create_tables (tables : option (list Table)) (engine : option Engine)
| op_TableGroup_create_tables (tg : TableGroup)
| op_fork (child_pid : nat).

Definition exec (cfg : Config) (o : Op) (w : World) : World :=
  match o with
  | op_get_engines => snd (get_engines cfg w)
  | op_init_engines => init_engines cfg w
  | op_dispose_engines => dispose_engines w
  | op_Session readonly => snd (Session cfg readonly w)
  | op_create_tables tables engine => snd (create_tables cfg tables engine w)
  | op_TableGroup_create_tables tg => snd (TableGroup_create_tables cfg tg w)
  | op_fork child_pid => set_os_pid child_pid w
  end.

Inductive reachable (cfg : Config) : World -> Prop :=
| reach_import pid cat meta : reachable cfg (module_import cfg pid cat meta)
| reach_exec o w : reachable cfg w -> reachable cfg (exec cfg o w).

(** [e] was constructed while the world went from [w] to [w']. *)
Definition constructed_between (w w' : World) (e : Engine) : Prop :=
  engines_created w <= engine_id e < engines_created w'.

(** The error kinds of the specification, as the code raises them. *)
Definition NoWriteAccessError : exn := RuntimeError no_write_access_message.

Definition SchemaMissingError (cfg : Config) (k : string) : exn :=
  PyException (table_not_found_message cfg k).

(** The invariant of the globals. *)
Record consistent (cfg : Config) (w : World) : Prop := {
  ro_allocated : forall e, engine_ro w = Some e -> engine_id e < engines_created w;
  rw_allocated : forall e, engine_rw w = Some e -> engine_id e < engines_created w;
  pid_iff_ro : engine_pid w = None <-> engine_ro w = None;
  rw_needs_ro : engine_ro w = None -> engine_rw w = None;
  rw_needs_address : db_address_rw cfg = None -> engine_rw w = None;
  rw_when_address : engine_ro w <> None -> db_address_rw cfg <> None -> engine_rw w <> None
}.

End Database.

(* ===================================================================== *)
(** ** database.py: TableReadThread and the loop that consumes it        *)
(* ===================================================================== *)
Module Exporter.

(** Python's [range(start, stop, step)] for a step that is not zero. *)
Definition range_length (start stop step : Z) : Z :=
  if (0 <? step)%Z
  then (if (start <? stop)%Z then (stop - start - 1) / step + 1 else 0)%Z
  else (if (stop <? start)%Z then (start - stop - 1) / (- step) + 1 else 0)%Z.

Definition py_range (start stop step : Z) : list Z :=
  map (fun k => (start + Z.of_nat k * step)%Z)
      (seq 0 (Z.to_nat (range_length start stop step))).

(** [range(start, stop, step)] where [stop] may be None. *)
Definition range (start : Z) (stop : option Z) (step : Z) : res (list Z) :=
  match stop with
  | None => Raise (TypeError "'NoneType' object cannot be interpreted as an integer")
  | Some stop' =>
      if (step =? 0)%Z
      then Raise (ValueError "range() arg 3 must not be zero")
      else Ok (py_range start stop' step)
  end.

(** [queue.Queue(maxsize=5)] *)
Definition maxsize : nat := 5.

(** The queries a session was asked. *)
Inductive Query : Type :=
| QueryMaxId                      (* query(func.max(table.id)) *)
| QueryRange (lo hi : Z).         (* filter((table.id >= lo) & (table.id < hi)) *)

Section Reader.
Local Set Implicit Arguments.
Variable Payload : Type.

(** A record of the table: its primary key and the other columns. *)
Record Row := { id : Z; columns : Payload }.

(** [query(func.max(table.id)).all()[0][0]]: None on an empty table. *)
Definition func_max (table : list Row) : option Z :=
  match table with
  | [] => None
  | r :: rs => Some (fold_left Z.max (map id rs) (id r))
  end.

(** [session.query] of all columns, filtered by
    [(table.id >= lo) & (table.id < hi)], then [.all()]. *)
Definition query_all (table : list Row) (lo hi : Z) : list Row :=
  filter (fun r => (lo <=? id r)%Z && (id r <? hi)%Z) table.

(** Where the reader thread is in [run]. *)
Inductive Producer : Type :=
| PStart                                          (* started, [run] not entered *)
| PLoop (pending : list Z)                        (* at the head of the for loop *)
| PPut (records : list Row) (pending : list Z)    (* at [self.queue.put(records)] *)
| PDone                                           (* None was put; [run] returned *)
| PCrashed (e : exn).                             (* [run] ended by an exception *)

(** Where the consuming loop is in [__iter__]. *)
Inductive Consumer : Type :=
| CGet                                            (* at [self.queue.get()] *)
| CIter (recs : list Row)                         (* in [for rec in recs] *)
| CDone.                                          (* left the loop at [break] *)

(** The reader object, the sessions' query log, the consuming loop and the
    rows it has inserted in the destination table.  [table] is the content
    of the source table, which does not change while it is exported. *)
Record Sys := {
  table : list Row;
  chunksize : Z;
  max_id : option Z;
  queue : list (option (list Row));
  thread : Producer;
  consumer : Consumer;
  queries : list Query;
  dest : list Row
}.

(** [TableReadThread.__init__], and a loop about to iterate the reader. *)
Definition TableReadThread (tbl : list Row) (chunk : Z) : Sys :=
  {| table := tbl; chunksize := chunk; max_id := func_max tbl; queue := [];
     thread := PStart; consumer := CGet; queries := [QueryMaxId]; dest := [] |}.

(** One step of [TableReadThread.run]; None when the thread has ended or is
    blocked in [put] on a full queue. *)
Definition producer_step (s : Sys) : option Sys :=
  match thread s with
  | PStart =>
      Some {| table := table s; chunksize := chunksize s; max_id := max_id s;
              queue := queue s;
              thread := match range 0 (max_id s) (chunksize s) with
                        | Ok l => PLoop l
                        | Raise e => PCrashed e
                        end;
              consumer := consumer s; queries := queries s; dest := dest s |}
  | PLoop (i :: rest) =>
      Some {| table := table s; chunksize := chunksize s; max_id := max_id s;
              queue := queue s;
              thread := PPut (query_all (table s) i (i + chunksize s)) rest;
              consumer := consumer s;
              queries := (queries s ++ [QueryRange i (i + chunksize s)])%list;
              dest := dest s |}
  | PPut records rest =>
      if Nat.ltb (List.length (queue s)) maxsize
      then Some {| table := table s; chunksize := chunksize s; max_id := max_id s;
                   queue := (queue s ++ [Some records])%list;
                   thread := PLoop rest;
                   consumer := consumer s; queries := queries s; dest := dest s |}
      else None
  | PLoop [] =>
      if Nat.ltb (List.length (queue s)) maxsize
      then Some {| table := table s; chunksize := chunksize s; max_id := max_id s;
                   queue := (queue s ++ [None])%list;
                   thread := PDone;
                   consumer := consumer s; queries := queries s; dest := dest s |}
      else None
  | PDone => None
  | PCrashed _ => None
  end.

(** One step of the loop [for rec in reader: write_session.execute(insert(rec))];
    None when the loop has ended or is blocked in [get] on an empty queue. *)
Definition consumer_step (s : Sys) : option Sys :=
  match consumer s with
  | CGet =>
      match queue s with
      | [] => None
      | Some recs :: q =>
          Some {| table := table s; chunksize := chunksize s; max_id := max_id s;
                  queue := q; thread := thread s; consumer := CIter recs;
                  queries := queries s; dest := dest s |}
      | None :: q =>
          Some {| table := table s; chunksize := chunksize s; max_id := max_id s;
                  queue := q; thread := thread s; consumer := CDone;
                  queries := queries s; dest := dest s |}
      end
  | CIter (rec :: recs) =>
      Some {| table := table s; chunksize := chunksize s; max_id := max_id s;
              queue := queue s; thread := thread s; consumer := CIter recs;
              queries := queries s; dest := (dest s ++ [rec])%list |}
  | CIter [] =>
      Some {| table := table s; chunksize := chunksize s; max_id := max_id s;
              queue := queue s; thread := thread s; consumer := CGet;
              queries := queries s; dest := dest s |}
  | CDone => None
  end.

(** Either thread moves. *)
Definition step (s s' : Sys) : Prop :=
  producer_step s = Some s' \/ consumer_step s = Some s'.

Inductive steps : nat -> Sys -> Sys -> Prop :=
| steps_O s : steps 0 s s
| steps_S n s s' s'' : steps n s s' -> step s' s'' -> steps (S n) s s''.

Definition reachable (s0 s : Sys) : Prop := exists n, steps n s0 s.

(** A scheduler that runs the producer whenever it can move. *)
Fixpoint run (fuel : nat) (s : Sys) : Sys :=
  match fuel with
  | O => s
  | S fuel' =>
      match producer_step s with
      | Some s' => run fuel' s'
      | None =>
          match consumer_step s with
          | Some s' => run fuel' s'
          | None => s
          end
      end
  end.

(** The chunk starts [run] iterates over (none when [range] raises). *)
Definition chunks (s : Sys) : list Z :=
  match range 0 (max_id s) (chunksize s) with
  | Ok l => l
  | Raise _ => []
  end.

Definition pending_of (s : Sys) : list Z :=
  match thread s with
  | PStart => chunks s
  | PLoop l => l
  | PPut _ l => l
  | PDone => []
  | PCrashed _ => []
  end.

Definition producer_hand (s : Sys) : list Row :=
  match thread s with
  | PPut records _ => records
  | _ => []
  end.

Definition consumer_hand (s : Sys) : list Row :=
  match consumer s with
  | CIter recs => recs
  | _ => []
  end.

Definition batch_rows (x : option (list Row)) : list Row :=
  match x with Some l => l | None => [] end.

Definition chunk_rows (s : Sys) (i : Z) : list Row :=
  query_all (table s) i (i + chunksize s).

(** Every row the export delivers, in delivery order: those inserted, those
    held by the consumer, those queued, the batch held by the producer and
    those of the chunks not queried yet. *)
Definition stream (s : Sys) : list Row :=
  (dest s ++ consumer_hand s ++ flat_map batch_rows (queue s)
   ++ producer_hand s ++ flat_map (chunk_rows s) (pending_of s))%list.

(** The query log once every pending chunk has been queried. *)
Definition query_plan (s : Sys) : list Query :=
  (queries s
   ++ map (fun i => QueryRange i (i + chunksize s)) (pending_of s))%list.

(** The None that ends the stream is the last item put, and is put once. *)
Definition sentinel_ok (s : Sys) : Prop :=
  match thread s, consumer s with
  | PDone, CDone => queue s = []
  | PDone, _ => exists q, queue s = (map Some q ++ [None])%list
  | _, CDone => False
  | _, _ => exists q, queue s = map Some q
  end.

Definition not_crashed (s : Sys) : Prop :=
  match thread s with
  | PCrashed _ => False
  | PStart => exists l, range 0 (max_id s) (chunksize s) = Ok l
  | _ => True
  end.

(** A termination measure: every step lowers it. *)
Definition batch_weight (x : option (list Row)) : nat :=
  match x with Some l => List.length l + 2 | None => 1 end.

Definition future_weight (s : Sys) (l : list Z) : nat :=
  list_sum (map (fun i => List.length (chunk_rows s i) + 4) l).

Definition measure (s : Sys) : nat :=
  (match thread s with
   | PStart => 3 + future_weight s (chunks s)
   | PLoop l => 2 + future_weight s l
   | PPut records l => 5 + List.length records + future_weight s l
   | PDone => 0
   | PCrashed _ => 0
   end)
  + list_sum (map batch_weight (queue s))
  + (match consumer s with
     | CGet => 0
     | CIter recs => 1 + List.length recs
     | CDone => 0
     end).

(** The export has ended: the consumer left its loop. *)
Definition finished (s : Sys) : Prop := consumer s = CDone.

(** Nothing can move. *)
Definition stuck (s : Sys) : Prop :=
  producer_step s = None /\ consumer_step s = None.

(** The table is stored in the order of its ids. *)
Definition sorted_by_id (tbl : list Row) : Prop :=
  StronglySorted (fun a b => (id a <= id b)%Z) tbl.

End Reader.

Arguments PStart {Payload}.
Arguments PDone {Payload}.
Arguments PCrashed {Payload} e.
Arguments PLoop {Payload} pending.
Arguments CGet {Payload}.
Arguments CDone {Payload}.

(** The table of the scenario: 2500 rows with ids 1..2500. *)
Definition table_2500 {Payload} (columns_of : nat -> Payload) : list (Row Payload) :=
  map (fun i => {| id := Z.of_nat i; columns := columns_of i |}) (seq 1 2500).

End Exporter.

(* ===================================================================== *)
(** ** The experiment modules of the two pipelines                       *)
(* ===================================================================== *)
Module Pipeline.

(** Modelled from the spec: the result record of a job in a module, as
    [finished_jobs()] of [DatabasePipelineModule] (not among the sources)
    reports it: the [finished_time], absent when the database holds none,
    and [success], a bool. *)
Definition JobRecord : Type := (option Z * bool)%type.

(** The classes of pipeline modules ([type(module)]). *)
Inductive ModuleClass : Type :=
| SlicePipelineModule
| ExperimentPipelineModule
| OptoSlicePipelineModule
| OptoExperimentPipelineModule
| OtherPipelineModule (name : string).

Definition ModuleClass_eqb (a b : ModuleClass) : bool :=
  match a, b with
  | SlicePipelineModule, SlicePipelineModule => true
  | ExperimentPipelineModule, ExperimentPipelineModule => true
  | OptoSlicePipelineModule, OptoSlicePipelineModule => true
  | OptoExperimentPipelineModule, OptoExperimentPipelineModule => true
  | OtherPipelineModule n, OtherPipelineModule m => String.eqb n m
  | _, _ => false
  end.

(** [cls in self.dependencies] *)
Definition class_mem (c : ModuleClass) (l : list ModuleClass) : bool :=
  existsb (ModuleClass_eqb c) l.

(** A module instance: its class and what [%s] prints for it. *)
Record PipelineModule := { type_of : ModuleClass; str : string }.

(** The rows of the slice and experiment tables the modules read.  An
    experiment row points to its slice through the foreign key
    [experiment_slice_id]. *)
Record SliceRow := {
  slice_id : nat;
  slice_acq_timestamp : string;
  storage_path : string
}.

Record ExperimentRow := {
  experiment_id : nat;
  acq_timestamp : string;
  ext_id : string;
  experiment_slice_id : option nat
}.

Record DB := {
  db_Slice : list SliceRow;
  db_Experiment : list ExperimentRow
}.

(** [query(db.Experiment...).join(db.Slice)]: the inner join on the
    foreign key. *)
Definition references (e : ExperimentRow) (s : SliceRow) : bool :=
  match experiment_slice_id e with
  | Some i => Nat.eqb i (slice_id s)
  | None => false
  end.

Definition join_Slice (db : DB) : list (ExperimentRow * SliceRow) :=
  flat_map (fun e => map (pair e) (filter (references e) (db_Slice db)))
           (db_Experiment db).

(** [.filter(db.Slice.acq_timestamp.in_(job_ids))] *)
Definition filter_slice_in (job_ids : list string)
    (rows : list (ExperimentRow * SliceRow)) : list (ExperimentRow * SliceRow) :=
  filter (fun rec => str_mem (slice_acq_timestamp (snd rec)) job_ids) rows.

(** An experiment record was computed against a slice job. *)
Definition computed_against (db : DB) (e : ExperimentRow) (slice_job : string) : Prop :=
  In e (db_Experiment db) /\
  exists s, In s (db_Slice db) /\ experiment_slice_id e = Some (slice_id s) /\
            slice_acq_timestamp s = slice_job.

(** [max(a, b)] of two times.  A time is a number, or None; None does not
    compare with a number, and [max] then raises TypeError (its message
    names the types of the two operands; it is written here for a float
    time). *)
Definition py_max (a b : option Z) : res Z :=
  match a, b with
  | Some x, Some y => Ok (Z.max x y)
  | _, _ => Raise (TypeError "'>' not supported between instances of 'float' and 'NoneType'")
  end.

(** *** multipatch/experiment.py *)
Module Multipatch.

(** What [ready_jobs] reads of an [Experiment] object.  The three are
    properties: reading one runs code of the object and may raise.  The
    modification time is a number, or None where the object holds none. *)
Record Expt := {
  last_modification_time : res (option Z);
  slice_timestamp : res string;
  timestamp : res string
}.

Definition dependencies : list ModuleClass := [SlicePipelineModule].

Definition dependent_job_ids (self module : PipelineModule) (db : DB)
    (job_ids : list string) : res (list string) :=
  if negb (class_mem (type_of module) dependencies)
  then Raise (ValueError (str self ++ " does not depend on module " ++ str module))
  else
    let dep_ids := filter_slice_in job_ids (join_Slice db) in
    Ok (map (fun rec => acq_timestamp (fst rec)) dep_ids).

(** [a, b = x] where [x] is a pair or None. *)
Definition unpack {A B} (x : option (A * B)) : res (A * B) :=
  match x with
  | Some p => Ok p
  | None => Raise (TypeError "cannot unpack non-iterable NoneType object")
  end.

Section Sources.
(** The raw data the module looks at:
    [glob.glob(os.path.join(config.synphys_data, path, 'site_*', 'pipettes.yml'))],
    [os.path.dirname] and [Experiment(site_path=..., verify=False)]. *)
Variable glob_pipettes : string -> list string.
Variable dirname : string -> string.
Variable Experiment : string -> res Expt.

(** [slice_module.finished_jobs()] *)
Variable finished_slices : OrderedDict.t JobRecord.

(** The [try] block of the loop. *)
Definition inspect (site_path : string) : res (Expt * option Z * option Z * bool) :=
  (expt <- Experiment site_path ;;
   raw_data_mtime <- last_modification_time expt ;;
   slice_ts <- slice_timestamp expt ;;
   ' (slice_mtime, slice_success) <- unpack (OrderedDict.get finished_slices slice_ts) ;;
   Ok (expt, raw_data_mtime, slice_mtime, slice_success))%res.

(** [ready[expt.timestamp] = max(raw_data_mtime, slice_mtime)], the
    statement after the [try] block: the right-hand side is evaluated
    first, then the key; what either raises leaves the loop. *)
Definition assign (expt : Expt) (raw_data_mtime : option Z) (slice_mtime : Z)
    : res (string * Z) :=
  (v <- py_max raw_data_mtime (Some slice_mtime) ;;
   j <- timestamp expt ;;
   Ok (j, v))%res.

(** The body of the loop over [ymls], on the locals [ready] and [n_errors]. *)
Definition ready_jobs_body (st : OrderedDict.t Z * nat) (yml_path : string)
    : res (OrderedDict.t Z * nat) :=
  let '(ready, n_errors) := st in
  let site_path := dirname yml_path in
  match inspect site_path with
  | Raise _ => Ok (ready, S n_errors)
  | Ok (expt, raw_data_mtime, slice_mtime, slice_success) =>
      match slice_mtime with
      | None => Ok (ready, n_errors)
      | Some mtime =>
          if negb slice_success
          then Ok (ready, n_errors)
          else (' (j, v) <- assign expt raw_data_mtime mtime ;;
                Ok (OrderedDict.set ready j v, n_errors))%res
      end
  end.

(** [ymls], from the storage paths of the slice table. *)
Definition ymls (db : DB) : list string :=
  flat_map glob_pipettes (map storage_path (db_Slice db)).

(** The loop, from empty [ready] and [n_errors = 0]. *)
Definition scan (yml_paths : list string) : res (OrderedDict.t Z * nat) :=
  for_each yml_paths ready_jobs_body (OrderedDict.empty, 0).

(** [ready_jobs] up to its last print: [ready] and [n_errors]. *)
Definition ready_jobs_scan (db : DB) : res (OrderedDict.t Z * nat) :=
  scan (ymls db).

Definition ready_jobs (db : DB) : res (OrderedDict.t Z) :=
  (st <- ready_jobs_scan db ;; Ok (fst st))%res.

(** The experiment sites found under the storage paths of the slices. *)
Definition discovered (db : DB) (site_path : string) : Prop :=
  In site_path (map dirname (ymls db)).

(** The raw source of an experiment is there and can be read. *)
Definition loadable (expt : Expt) (raw_data_mtime : Z) (slice_ts : string) : Prop :=
  last_modification_time expt = Ok (Some raw_data_mtime) /\
  slice_timestamp expt = Ok slice_ts.

(** The slice module has a success record for [slice_ts]. *)
Definition success_record (slice_ts : string) (finished_time : Z) : Prop :=
  OrderedDict.get finished_slices slice_ts = Some (Some finished_time, true).

(** A job id names one experiment site. *)
Definition job_ids_distinct (db : DB) : Prop :=
  forall s1 s2 e1 e2 j,
    discovered db s1 -> discovered db s2 ->
    Experiment s1 = Ok e1 -> Experiment s2 = Ok e2 ->
    timestamp e1 = Ok j -> timestamp e2 = Ok j -> s1 = s2.

(** What the statement after the [try] block does for one site: nothing
    (None), an assignment to [ready], or an exception. *)
Definition assignment (site_path : string) : res (option (string * Z)) :=
  match inspect site_path with
  | Ok (expt, raw_data_mtime, Some mtime, true) =>
      (jv <- assign expt raw_data_mtime mtime ;; Ok (Some jv))%res
  | _ => Ok None
  end.

(** What one site adds to [ready]. *)
Definition contribution (site_path : string) : option (string * Z) :=
  match assignment site_path with
  | Ok c => c
  | Raise _ => None
  end.

(** The exception one site raises after the [try] block, if any. *)
Definition late_failure (site_path : string) : option exn :=
  match assignment site_path with
  | Ok _ => None
  | Raise e => Some e
  end.

(** No discovered site raises after the [try] block. *)
Definition assignments_succeed (db : DB) : Prop :=
  forall y, In y (ymls db) -> late_failure (dirname y) = None.

Definition failed (site_path : string) : bool :=
  match inspect site_path with
  | Raise _ => true
  | Ok _ => false
  end.

End Sources.
End Multipatch.

(** *** opto/opto_experiment.py *)
Module Opto.

Definition dependencies : list ModuleClass := [OptoSlicePipelineModule].

(** The [raise] statement formats its message with [cls], a name that is
    not bound in this method. *)
Definition dependent_job_ids (self module : PipelineModule) (db : DB)
    (job_ids : list string) : res (list string) :=
  if negb (class_mem (type_of module) dependencies)
  then Raise (NameError "cls")
  else
    let dep_ids := filter_slice_in job_ids (join_Slice db) in
    Ok (map (fun rec => ext_id (fst rec)) dep_ids).

(** A row of the experiment csv, with the key [ready_jobs] adds to it. *)
Record CsvRow := {
  experiment : string;
  site_path : string;
  rig_name : string;
  connections_dir : option string
}.

(** The two ways [OptoExperimentLoader] is given its source. *)
Inductive Source : Type :=
| load_file (path : string)
| from_site_path (path : string).

(** The entries of [ready]. *)
Record ReadyEntry := { dep_time : Z; meta_source : string }.

(** The values of [n_errors]: a message or the exception caught. *)
Inductive ErrorValue : Type :=
| Message (msg : string)
| Caught (exc : exn).

Section Sources.
(** Slice timestamps are floats; only [0.0] and ['%.3f' % ts] are used. *)
Variable Ts : Type.
Variable zero : Ts.
Variable format_3f : Ts -> string.

(** What [ready_jobs] reads of an [AI_Experiment] object:
    [last_modification_time], [info.get('slice_info', {}).get('__timestamp__')]
    and [ext_id].  Each is read through a property and may raise; the
    modification time is a number or None. *)
Record OptoExpt := {
  o_last_modification_time : res (option Z);
  info_slice_timestamp : res (option Ts);
  o_ext_id : res string
}.

(** [config] and the file system. *)
Variable config_connections_dir : string.
Variable config_synphys_data : string.
Variable os_path_join : string -> string -> string.
Variable os_path_exists : string -> bool.
Variable lower : string -> string.
(** [getDirHandle(os.path.split(site_path)[0]).name(relativeTo=getDirHandle(config.synphys_data))] *)
Variable slice_path_of : string -> res string.
(** [AI_Experiment(loader=OptoExperimentLoader(..., meta_info=expt), verify=True)] *)
Variable AI_Experiment : Source -> CsvRow -> res OptoExpt.

Variable finished_slices : OrderedDict.t JobRecord.
(** [[s[0] for s in slices]] *)
Variable slice_paths : list string.

(** How the [try] block ends when it does not raise. *)
Inductive Outcome : Type :=
| FileNotFound (cnx_json : string)
| NoSlicePath
| Inspected (ex : OptoExpt) (source : string) (raw_data_mtime : option Z)
            (slice_mtime : option Z) (slice_success : option bool).

(** [finished_slices.get(key, (None, None))] *)
Definition get_or_none (key : string) : option Z * option bool :=
  match OrderedDict.get finished_slices key with
  | Some (mtime, success) => (mtime, Some success)
  | None => (None, None)
  end.

(** From [raw_data_mtime = ...] to the end of the [try] block. *)
Definition inspect (ex : OptoExpt) (source : string) : res Outcome :=
  (raw_data_mtime <- o_last_modification_time ex ;;
   slice_ts <- info_slice_timestamp ex ;;
   let slice_ts := match slice_ts with None => zero | Some ts => ts end in
   let '(slice_mtime, slice_success) := get_or_none (format_3f slice_ts) in
   Ok (Inspected ex source raw_data_mtime slice_mtime slice_success))%res.

(** [expt['connections_dir'] = config.connections_dir] *)
Definition with_connections_dir (expt : CsvRow) : CsvRow :=
  {| experiment := experiment expt; site_path := site_path expt;
     rig_name := rig_name expt; connections_dir := Some config_connections_dir |}.

(** The [try] block. *)
Definition check (expt : CsvRow) : res Outcome :=
  if String.eqb (site_path expt) ""
  then
    let cnx_json := os_path_join config_connections_dir (experiment expt) in
    if negb (os_path_exists cnx_json)
    then Ok (FileNotFound cnx_json)
    else (ex <- AI_Experiment (load_file cnx_json) expt ;; inspect ex cnx_json)%res
  else
    let site :=
      os_path_join (os_path_join (os_path_join config_synphys_data
                                     (lower (rig_name expt))) "phys")
                   (site_path expt) in
    (slice_path <- slice_path_of site ;;
     if negb (str_mem slice_path slice_paths)
     then Ok NoSlicePath
     else (ex <- AI_Experiment (from_site_path site) expt ;; inspect ex site))%res.

(** The locals [ready], [n_errors] and [n_no_slice]. *)
Record Locals := {
  ready : OrderedDict.t ReadyEntry;
  n_errors : OrderedDict.t ErrorValue;
  n_no_slice : list string
}.

Definition is_False (b : option bool) : bool :=
  match b with Some false => true | _ => false end.

(** [ready[ex.ext_id] = {'dep_time': max(raw_data_mtime, slice_mtime),
    'meta': {'source': site_path}}], the statement after the [try] block:
    the right-hand side is evaluated first, then the key; what either
    raises leaves the loop. *)
Definition assign (ex : OptoExpt) (source : string) (raw_data_mtime : option Z)
    (slice_mtime : Z) : res (string * ReadyEntry) :=
  (v <- py_max raw_data_mtime (Some slice_mtime) ;;
   j <- o_ext_id ex ;;
   Ok (j, {| dep_time := v; meta_source := source |}))%res.

(** The body of the loop over [expts['expt_list']]. *)
Definition ready_jobs_body (st : Locals) (expt : CsvRow) : res Locals :=
  let expt := with_connections_dir expt in
  match check expt with
  | Raise exc =>
      Ok {| ready := ready st;
            n_errors := OrderedDict.set (n_errors st) (experiment expt) (Caught exc);
            n_no_slice := n_no_slice st |}
  | Ok (FileNotFound cnx_json) =>
      Ok {| ready := ready st;
            n_errors := OrderedDict.set (n_errors st) (experiment expt)
                          (Message ("File not found: " ++ cnx_json));
            n_no_slice := n_no_slice st |}
  | Ok NoSlicePath =>
      Ok {| ready := ready st; n_errors := n_errors st;
            n_no_slice := (n_no_slice st ++ [experiment expt])%list |}
  | Ok (Inspected ex source raw_data_mtime slice_mtime slice_success) =>
      match slice_mtime with
      | Some mtime =>
          if is_False slice_success
          then Ok {| ready := ready st; n_errors := n_errors st;
                     n_no_slice := (n_no_slice st ++ [experiment expt])%list |}
          else (' (j, entry) <- assign ex source raw_data_mtime mtime ;;
                Ok {| ready := OrderedDict.set (ready st) j entry;
                      n_errors := n_errors st; n_no_slice := n_no_slice st |})%res
      | None =>
          Ok {| ready := ready st; n_errors := n_errors st;
                n_no_slice := (n_no_slice st ++ [experiment expt])%list |}
      end
  end.

(** [ready_jobs] up to its prints, over [expts['expt_list']]. *)
Definition ready_jobs_scan (expt_list : list CsvRow) : res Locals :=
  for_each expt_list ready_jobs_body
    {| ready := OrderedDict.empty; n_errors := OrderedDict.empty; n_no_slice := [] |}.

Definition ready_jobs (expt_list : list CsvRow) : res (OrderedDict.t ReadyEntry) :=
  (st <- ready_jobs_scan expt_list ;; Ok (ready st))%res.

(** What the statement after the [try] block does for one candidate:
    nothing (None), an assignment to [ready], or an exception. *)
Definition assignment (expt : CsvRow) : res (option (string * ReadyEntry)) :=
  match check (with_connections_dir expt) with
  | Ok (Inspected ex source raw_data_mtime (Some mtime) slice_success) =>
      if is_False slice_success then Ok None
      else (je <- assign ex source raw_data_mtime mtime ;; Ok (Some je))%res
  | _ => Ok None
  end.

(** What one candidate adds to [ready], to [n_errors] and to [n_no_slice]. *)
Definition ready_entry (expt : CsvRow) : option (string * ReadyEntry) :=
  match assignment expt with
  | Ok c => c
  | Raise _ => None
  end.

(** The exception one candidate raises after the [try] block, if any. *)
Definition late_failure (expt : CsvRow) : option exn :=
  match assignment expt with
  | Ok _ => None
  | Raise e => Some e
  end.

Definition error_entry (expt : CsvRow) : option (string * ErrorValue) :=
  match check (with_connections_dir expt) with
  | Raise exc => Some (experiment expt, Caught exc)
  | Ok (FileNotFound cnx_json) =>
      Some (experiment expt, Message ("File not found: " ++ cnx_json))
  | Ok _ => None
  end.

Definition no_slice_entry (expt : CsvRow) : list string :=
  match check (with_connections_dir expt) with
  | Ok NoSlicePath => [experiment expt]
  | Ok (Inspected _ _ _ None _) => [experiment expt]
  | Ok (Inspected _ _ _ (Some _) slice_success) =>
      if is_False slice_success then [experiment expt] else []
  | _ => []
  end.

End Sources.

Arguments Build_OptoExpt {Ts}.
Arguments o_last_modification_time {Ts}.
Arguments info_slice_timestamp {Ts}.
Arguments o_ext_id {Ts}.
Arguments FileNotFound {Ts}.
Arguments NoSlicePath {Ts}.
Arguments Inspected {Ts}.

End Opto.

End Pipeline.

(* ===================================================================== *)
(** ** database.py: the ambient session                                  *)
(* ===================================================================== *)
Module DefaultSession.
Import Database.

(** The engines that are bound to the globals. *)
Definition live (w : World) : list Engine :=
  (match engine_ro w with Some e => [e] | None => [] end
   ++ match engine_rw w with Some e => [e] | None => [] end)%list.

(** Every engine the process constructed is bound to a global or was
    disposed, and none is both or counted twice. *)
Record accounted (w : World) : Prop := {
  engines_distinct : NoDup (map engine_id (live w ++ disposed w));
  engines_allocated :
    forall e, In e (live w ++ disposed w) -> engine_id e < engines_created w;
  engines_counted : engines_created w = List.length (live w ++ disposed w)
}.

(** A cached session maker is bound to the engine now in the global. *)
Record makers_current (w : World) : Prop := {
  maker_ro_current :
    forall sm, _sessionmaker_ro w = Some sm ->
               bind sm = engine_ro w /\ engine_ro w <> None;
  maker_rw_current :
    forall sm, _sessionmaker_rw w = Some sm ->
               bind sm = engine_rw w /\ engine_rw w <> None
}.

(** The globals of the module with [_default_session], and the sessions on
    which [rollback()] was called, oldest first. *)
Record State := {
  world : World;
  _default_session : option SessionObject;
  rolled_back : list SessionObject
}.

Definition get_default_session (cfg : Config) (st : State)
    : res SessionObject * State :=
  match _default_session st with
  | None =>
      let '(r, w) := Session cfg true (world st) in
      match r with
      | Ok s => (Ok s, {| world := w; _default_session := Some s;
                          rolled_back := rolled_back st |})
      | Raise e => (Raise e, {| world := w; _default_session := None;
                                rolled_back := rolled_back st |})
      end
  | Some s => (Ok s, st)
  end.

(** [session.rollback()] *)
Definition rollback (s : SessionObject) (st : State) : State :=
  {| world := world st; _default_session := _default_session st;
     rolled_back := (rolled_back st ++ [s])%list |}.

(** [default_session(fn)] called with the keyword [session] given or not:
    [fn] stands for the decorated function applied to its other arguments,
    and receives the session. *)
Definition wrap_with_session {A} (cfg : Config)
    (fn : SessionObject -> State -> res A * State)
    (session : option SessionObject) (st : State) : res A * State :=
  match session with
  | Some s => fn s st
  | None =>
      let '(r, st1) := get_default_session cfg st in
      match r with
      | Raise e => (Raise e, st1)
      | Ok s =>
          let '(ret, st2) := fn s st1 in
          let '(r', st3) := get_default_session cfg st2 in
          match r' with
          | Raise e => (Raise e, st3)
          | Ok s' => (ret, rollback s' st3)
          end
      end
  end.

(** The child of a fork. *)
Definition fork (child_pid : nat) (st : State) : State :=
  {| world := set_os_pid child_pid (world st);
     _default_session := _default_session st;
     rolled_back := rolled_back st |}.

End DefaultSession.

(* ===================================================================== *)
(** ** database.py: table groups, dropping tables and vacuum             *)
(* ===================================================================== *)
Module Admin.
Import Database.

(** The globals, and the SQL text sent through [engine.execute] or a
    connection of the engine, oldest first. *)
Record Server := {
  world : World;
  executed : list (Engine * string)
}.

(** [OrderedDict([(t.__table__.name, t) for t in tables])] *)
Definition mappings_of (tables : list Table) : OrderedDict.t Table :=
  OrderedDict.collect (map (fun t => Some (table_name t, t)) tables) OrderedDict.empty.

(** [TableGroup.__init__] for a class whose [schemas] attribute is given.
    [create_mappings] calls [generate_mapping] for every schema; the module
    binds no such name. *)
Definition TableGroup_init (class_schemas : OrderedDict.t (list (string * string)))
    (tables : option (list Table)) : res TableGroup :=
  match tables with
  | None =>
      res_bind
        (for_each class_schemas
           (fun (m : OrderedDict.t Table) (_ : string * list (string * string)) =>
              @Raise (OrderedDict.t Table) (NameError "generate_mapping"))
           OrderedDict.empty)
        (fun m => Ok {| schemas := class_schemas; mappings := m |})
  | Some ts => Ok {| schemas := class_schemas; mappings := mappings_of ts |}
  end.






(** [vacuum(tables=None)] *)
Definition vacuum (cfg : Config) (tables : option (list string)) (sv : Server)
    : res unit * Server :=
  let '((_, engine_rw), w) := get_engines cfg (world sv) in
  match engine_rw with
  | None => (Raise (AttributeError "'NoneType' object has no attribute 'begin'"),
             {| world := w; executed := executed sv |})
  | Some e =>
      let sql := match tables with
                 | None => ["vacuum analyze"]
                 | Some ts => map (fun table => "vacuum analyze " ++ table) ts
                 end in
      (Ok tt, {| world := w;
                 executed := (executed sv ++ map (pair e) sql)%list |})
  end.

(** [bake_sqlite] up to the first table, once its import of
    [all_modules] has succeeded: the engine for the sqlite file, then
    [create_tables(engine=sqlite_engine)]; [rest] stands for the
    statements after it. *)
Definition bake_sqlite {A} (cfg : Config) (sqlite_file : string)
    (rest : Engine -> World -> res A * World) (w : World) : res A * World :=
  let sqlite_addr := "sqlite:///" ++ sqlite_file in
  let '(sqlite_engine, w) := create_engine sqlite_addr [] w in
  let '(r, w) := create_tables cfg None (Some sqlite_engine) w in
  match r with
  | Raise e => (Raise e, w)
  | Ok _ => rest sqlite_engine w
  end.

(** The table group is keyed by the names of its tables. *)
Definition keyed_by_name (tg : TableGroup) : Prop :=
  forall k t, OrderedDict.get (mappings tg) k = Some t -> table_name t = k.

End Admin.

(* ===================================================================== *)
(** ** The experiment modules: records of jobs, and the opto csv loader  *)
(* ===================================================================== *)
Module JobRecords.
Import Pipeline.

(** *** multipatch/experiment.py, [job_records]:
    [query(db.Experiment).filter(db.Experiment.acq_timestamp.in_(job_ids)).all()] *)
Module Multipatch.
Definition job_records (db : DB) (job_ids : list string) : list ExperimentRow :=
  filter (fun e => str_mem (acq_timestamp e) job_ids) (db_Experiment db).
End Multipatch.

(** *** opto/opto_experiment.py, [job_records]:
    [query(db.Experiment).filter(db.Experiment.ext_id.in_(job_ids)).all()] *)
Module Opto.
Definition job_records (db : DB) (job_ids : list string) : list ExperimentRow :=
  filter (fun e => str_mem (ext_id e) job_ids) (db_Experiment db).
End Opto.

(** [job_records] applied to what [dependent_job_ids] returns for the jobs
    [job_ids] of the slice module: the records that go when those jobs are
    invalidated. *)
Definition multipatch_invalidated (self module : PipelineModule) (db : DB)
    (job_ids : list string) : res (list ExperimentRow) :=
  res_bind (Pipeline.Multipatch.dependent_job_ids self module db job_ids)
           (fun deps => Ok (Multipatch.job_records db deps)).

Definition opto_invalidated (self module : PipelineModule) (db : DB)
    (job_ids : list string) : res (list ExperimentRow) :=
  res_bind (Pipeline.Opto.dependent_job_ids self module db job_ids)
           (fun deps => Ok (Opto.job_records db deps)).

End JobRecords.

Module OptoLoader.
Import Pipeline Pipeline.Opto.

(** [sub in s] for two strings. *)
Fixpoint contains (sub s : string) : bool :=
  String.prefix sub s ||
  match s with
  | EmptyString => false
  | String _ s' => contains sub s'
  end.

(** A row of the distance csv: its [exp_id] and the other columns. *)
Record DistanceRow := { exp_id : string; distance_columns : list (string * string) }.

(** A row of [expt_list]: the csv columns (and [connections_dir] once it
    is set), and the key [distances] that [load_experiment] adds. *)
Record Entry := { row : CsvRow; distances : option (list DistanceRow) }.

(** The module global [_csv_data]: an OrderedDict whose two keys are
    assigned one after the other. *)
Record CsvData := {
  expt_list : option (list Entry);
  distance_list : option (list DistanceRow)
}.

(** What [open] and [csv.DictReader] find: the experiment csv, and the
    distance csv when [config.distance_csv] is not None. *)
Record Files := {
  expt_csv : res (list CsvRow);
  distance_csv : option (res (list DistanceRow))
}.

(** [read_expt_csvs()] on the global [_csv_data].  The global is bound to
    a new OrderedDict, and its key [expt_list] to an empty list, before
    the first file is opened. *)
Definition read_expt_csvs (files : Files) (_csv_data : option CsvData)
    : res CsvData * option CsvData :=
  match _csv_data with
  | Some d => (Ok d, _csv_data)
  | None =>
      match expt_csv files with
      | Raise e => (Raise e, Some {| expt_list := Some []; distance_list := None |})
      | Ok rows =>
          let l := map (fun r => {| row := r; distances := None |}) rows in
          match distance_csv files with
          | None =>
              let d := {| expt_list := Some l; distance_list := Some [] |} in
              (Ok d, Some d)
          | Some (Raise e) =>
              (Raise e, Some {| expt_list := Some l; distance_list := Some [] |})
          | Some (Ok ds) =>
              let d := {| expt_list := Some l; distance_list := Some ds |} in
              (Ok d, Some d)
          end
      end
  end.

(** [enumerate(l)] from index [k]. *)
Definition enumerate {A} (k : nat) (l : list A) : list (nat * A) :=
  combine (seq k (List.length l)) l.

(** The entries of [expt_list] whose name has [job_id] as a substring,
    with their indices. *)
Definition matches (job_id : string) (l : list Entry) : list (nat * Entry) :=
  filter (fun ie => contains job_id (experiment (row (snd ie)))) (enumerate 0 l).

(** [indices] of [load_experiment]. *)
Definition indices (job_id : string) (l : list Entry) : list nat :=
  map fst (matches job_id l).

(** The list after the dict at index [i] has been changed in place. *)
Definition set_entry (i : nat) (e : Entry) (l : list Entry) : list Entry :=
  (firstn i l ++ e :: skipn (S i) l)%list.

Section Loader.
(** The [AI_Experiment] objects, [config], the file system and the
    formatting of a list of names by [%s]. *)
Variable Expt : Type.
Variable config_connections_dir : string.
Variable config_synphys_data : string.
Variable os_path_join : string -> string -> string.
Variable os_path_exists : string -> bool.
Variable lower : string -> string.
Variable AI_Experiment : Source -> Entry -> res Expt.
Variable format_names : list string -> string.

(** The entry as [load_experiment] leaves it. *)
Definition annotate (job_id : string) (ds : list DistanceRow) (entry : Entry) : Entry :=
  {| row := with_connections_dir config_connections_dir (row entry);
     distances := Some (filter (fun e => String.eqb (exp_id e) job_id) ds) |}.

(** From [if entry['site_path'] != ''] to the end. *)
Definition open_entry (entry : Entry) : res Expt :=
  if negb (String.eqb (site_path (row entry)) "")
  then
    let site :=
      os_path_join (os_path_join (os_path_join config_synphys_data
                                     (lower (rig_name (row entry)))) "phys")
                   (site_path (row entry)) in
    if negb (os_path_exists site)
    then Raise (PyException (site ++ " does not exist"))
    else AI_Experiment (from_site_path site) entry
  else
    let cnx_json := os_path_join config_connections_dir (experiment (row entry)) in
    AI_Experiment (load_file cnx_json) entry.

Definition load_experiment (files : Files) (job_id : string)
    (_csv_data : option CsvData) : res Expt * option CsvData :=
  let '(r, g) := read_expt_csvs files _csv_data in
  match r with
  | Raise e => (Raise e, g)
  | Ok all_expts =>
      match expt_list all_expts with
      | None => (Raise (KeyError "expt_list"), g)
      | Some l =>
          match matches job_id l with
          | [] => (Raise (PyException ("Could not find csv entry for " ++ job_id)), g)
          | [(i, entry)] =>
              match distance_list all_expts with
              | None => (Raise (KeyError "distances"), g)
              | Some ds =>
                  let entry' := annotate job_id ds entry in
                  (open_entry entry',
                   Some {| expt_list := Some (set_entry i entry' l);
                           distance_list := Some ds |})
              end
          | found =>
              (Raise (PyException
                 ("Cannot resolve job_id: " ++ job_id ++ ". Found " ++
                  format_names (map (fun ie => experiment (row (snd ie))) found))),
               g)
          end
      end
  end.

End Loader.

End OptoLoader.

(* ===================================================================== *)
(** ** database.py: column types and [make_table]                        *)
(* ===================================================================== *)
Module Marshal.

Section NDArray.
(** numpy arrays, [np.save(buf, value, allow_pickle=False)] followed by
    [buf.getvalue()], and [np.load(buf, allow_pickle=False)]. *)
Variable Array : Type.
Variable np_save : Array -> res (list Byte.byte).
Variable np_load : list Byte.byte -> res Array.

(** [NDArray.process_bind_param] *)
Definition process_bind_param (value : option Array) : res (list Byte.byte) :=
  match value with
  | None => Ok []
  | Some a => np_save a
  end.

(** [NDArray.process_result_value] *)
Definition process_result_value (value : list Byte.byte) : res (option Array) :=
  match value with
  | [] => Ok None
  | _ :: _ => res_bind (np_load value) (fun a => Ok (Some a))
  end.

End NDArray.

End Marshal.

Module Schema.

(** The Python values a schema carries as comments and keyword arguments. *)
Inductive Value : Type :=
| VNone
| VBool (b : bool)
| VStr (s : string)
| VInt (z : Z).

(** [if v:] *)
Definition truthy (v : Value) : bool :=
  match v with
  | VNone => false
  | VBool b => b
  | VStr s => negb (String.eqb s "")
  | VInt z => negb (Z.eqb z 0)
  end.

(** The column types of sqlalchemy and of this module. *)
Inductive ColType : Type :=
| Integer | FloatType | Boolean | StringType | Date | DateTime | NDArray | JSONObject.

Definition _coltypes (coltype : string) : option ColType :=
  if String.eqb coltype "int" then Some Integer
  else if String.eqb coltype "float" then Some FloatType
  else if String.eqb coltype "bool" then Some Boolean
  else if String.eqb coltype "str" then Some StringType
  else if String.eqb coltype "date" then Some Date
  else if String.eqb coltype "datetime" then Some DateTime
  else if String.eqb coltype "array" then Some NDArray
  else if String.eqb coltype "object" then Some JSONObject
  else None.

(** [s.endswith(suffix)] *)
Definition endswith (s suffix : string) : bool :=
  let n := String.length s in
  let m := String.length suffix in
  Nat.leb m n && String.eqb (substring (n - m) m s) suffix.

(** [d.pop(k, default)]: the value and the dict it leaves. *)
Definition pop (d : OrderedDict.t Value) (k : string) (default : Value)
    : Value * OrderedDict.t Value :=
  match OrderedDict.get d k with
  | Some v => (v, filter (fun kv => negb (String.eqb (fst kv) k)) d)
  | None => (default, d)
  end.

(** [Column(type, ForeignKey(target, ondelete=...), **kwds)] *)
Record Column := {
  type_ : ColType;
  foreign_key : option (string * Value);
  column_kwds : OrderedDict.t Value
}.

(** The values of [props]. *)
Inductive Attribute : Type :=
| TableName (name : string)
| TableArgs (table_args : OrderedDict.t Value)
| Plain (c : Column)
| Deferred (c : Column)                  (* deferred(Column(...)) *)
| InitOnLoad (base : string).            (* the reconstructor *)

(** An entry of [columns]: a tuple of two, three or four elements.  The
    fourth is a dict of the schema; [make_table] works on that very dict. *)
Inductive ColumnDecl : Type :=
| Col2 (colname coltype : string)
| Col3 (colname coltype : string) (comment : Value)
| Col4 (colname coltype : string) (comment : Value) (kwds : OrderedDict.t Value).

Definition colname (column : ColumnDecl) : string :=
  match column with
  | Col2 n _ | Col3 n _ _ | Col4 n _ _ _ => n
  end.

Definition coltype (column : ColumnDecl) : string :=
  match column with
  | Col2 _ t | Col3 _ t _ | Col4 _ t _ _ => t
  end.

(** [kwds = {} if len(column) < 4 else column[3]], then
    [kwds['comment'] = None if len(column) < 3 else column[2]], then the
    two [pop]s: [defer_col], [ondelete] and the dict as they leave it. *)
Definition prepare (column : ColumnDecl) : Value * Value * OrderedDict.t Value :=
  let kwds := match column with Col4 _ _ _ k => k | _ => OrderedDict.empty end in
  let comment := match column with
                 | Col2 _ _ => VNone
                 | Col3 _ _ c | Col4 _ _ c _ => c
                 end in
  let kwds := OrderedDict.set kwds "comment" comment in
  let '(defer_col, kwds) := pop kwds "deferred" (VBool false) in
  let '(ondelete, kwds) := pop kwds "ondelete" VNone in
  (defer_col, ondelete, kwds).


(** What the loop body assigns to [props[colname]]. *)
Definition build_column (column : ColumnDecl) : res Attribute :=
  let '(defer_col, ondelete, kwds) := prepare column in
  res_bind
    (match _coltypes (coltype column) with
     | None =>
         if negb (endswith (coltype column) ".id")
         then Raise (ValueError ("Unrecognized column type " ++ coltype column))
         else Ok {| type_ := Integer;
                    foreign_key := Some (coltype column, ondelete);
                    column_kwds := kwds |}
     | Some ctyp => Ok {| type_ := ctyp; foreign_key := None; column_kwds := kwds |}
     end)
    (fun col => Ok (if truthy defer_col then Deferred col else Plain col)).










(** The attributes a pass assigns, as a run of assignments. *)
Definition assignment (column : ColumnDecl) : option (string * Attribute) :=
  match build_column column with
  | Ok a => Some (colname column, a)
  | Raise _ => None
  end.

End Schema.

(* ===================================================================== *)
(** ** database.py: [bake_sqlite] on one table                           *)
(* ===================================================================== *)
Module Bake.
Import Database Exporter Admin.

(** What the part of [bake_sqlite] for one table leaves behind: the
    queries its sessions were asked and the rows inserted in the sqlite
    file. *)
Record Baked (Payload : Type) := {
  issued : list Query;
  written : list (Row Payload)
}.
Arguments issued {Payload}.
Arguments written {Payload}.

(** [bake_sqlite(sqlite_file)] on a database with one table holding
    [tbl]: the engine for the file and [create_tables(engine=sqlite_engine)],
    then [reader = TableReadThread(table)] and the loop
    [for rec in reader: write_session.execute(table.__table__.insert(rec))],
    the two threads run by the scheduler for [fuel] steps. *)
Definition bake_one_table {Payload} (cfg : Config) (sqlite_file : string)
    (fuel : nat) (tbl : list (Row Payload)) (w : World)
    : res (Baked Payload) * World :=
  bake_sqlite cfg sqlite_file
    (fun _ w' =>
       let s := run fuel (TableReadThread tbl 1000) in
       (Ok {| issued := queries s; written := dest s |}, w'))
    w.

End Bake.

(* ===================================================================== *)
(** * Part II.  Properties                                               *)
(* ===================================================================== *)

(** ** Dictionaries and loops *)

Lemma str_mem_In x l : str_mem x l = true <-> In x l.
Proof.
  unfold str_mem. rewrite existsb_exists. split.
  - intros [y [Hy E]]. apply String.eqb_eq in E. now subst.
  - intros H. exists x. split; auto. apply String.eqb_refl.
Qed.

Lemma str_mem_not_In x l : str_mem x l = false <-> ~ In x l.
Proof.
  rewrite <- str_mem_In. destruct (str_mem x l); split; congruence.
Qed.

Lemma od_get_set_eq {V} (d : OrderedDict.t V) k v :
  OrderedDict.get (OrderedDict.set d k v) k = Some v.
Proof.
  induction d as [|[k' v'] d IH]; simpl.
  - now rewrite String.eqb_refl.
  - destruct (String.eqb k' k) eqn:E; simpl; rewrite E; auto.
Qed.

Lemma od_get_set_neq {V} (d : OrderedDict.t V) k k' v :
  k <> k' -> OrderedDict.get (OrderedDict.set d k v) k' = OrderedDict.get d k'.
Proof.
  intros Hne.
  induction d as [|[k0 v0] d IH]; simpl.
  - destruct (String.eqb k k') eqn:E; auto.
    apply String.eqb_eq in E. contradiction.
  - destruct (String.eqb k0 k) eqn:E; simpl.
    + apply String.eqb_eq in E. subst k0.
      destruct (String.eqb k k') eqn:E'; auto.
      apply String.eqb_eq in E'. contradiction.
    + now rewrite IH.
Qed.

Lemma od_get_keys {V} (d : OrderedDict.t V) k :
  (exists v, OrderedDict.get d k = Some v) <-> In k (OrderedDict.keys d).
Proof.
  induction d as [|[k' v'] d IH]; simpl.
  - split; [intros [v H]; discriminate | tauto].
  - destruct (String.eqb k' k) eqn:E.
    + apply String.eqb_eq in E. split; eauto.
    + apply String.eqb_neq in E. rewrite IH. split; [tauto|].
      intros [|]; [contradiction | assumption].
Qed.

Lemma od_keys_set {V} (d : OrderedDict.t V) k v k' :
  In k' (OrderedDict.keys (OrderedDict.set d k v)) <->
  k' = k \/ In k' (OrderedDict.keys d).
Proof.
  induction d as [|[k0 v0] d IH]; simpl.
  - intuition.
  - destruct (String.eqb k0 k) eqn:E; simpl.
    + apply String.eqb_eq in E. subst. intuition.
    + rewrite IH. intuition.
Qed.

(** A loop whose body never lets an exception out is a left fold. *)
Lemma for_each_total {A S} (body : S -> A -> res S) (f : S -> A -> S) :
  (forall s x, body s x = Ok (f s x)) ->
  forall xs s, for_each xs body s = Ok (fold_left f xs s).
Proof.
  intros Hb xs. induction xs as [|x xs IH]; intros s; simpl; auto.
  rewrite Hb. simpl. apply IH.
Qed.

(* ===================================================================== *)
(** ** Engines and sessions                                              *)
(* ===================================================================== *)
Module DatabaseFacts.
Import Database.

Section WithConfig.
Variable cfg : Config.

Lemma dispose_engines_spec w :
  let w' := dispose_engines w in
  engine_ro w' = None /\ engine_rw w' = None /\ engine_pid w' = None /\
  engines_created w' = engines_created w /\ os_pid w' = os_pid w /\
  catalog w' = catalog w /\ metadata w' = metadata w /\
  statements w' = statements w /\
  (forall e, engine_ro w = Some e -> In e (disposed w')) /\
  (forall e, engine_rw w = Some e -> In e (disposed w')).
Proof.
  unfold dispose_engines.
  destruct w as [ro rw pid smro smrw op n dis cat meta st]; simpl.
  destruct ro as [e1|]; destruct rw as [e2|]; simpl;
    repeat split; intros e H; inversion H; subst; simpl; auto.
Qed.

Lemma init_engines_spec w :
  let w' := init_engines cfg w in
  exists e_ro,
    engine_ro w' = Some e_ro /\ engine_id e_ro = engines_created w /\
    url e_ro = db_address_ro cfg /\
    engine_pid w' = Some (os_pid w) /\ os_pid w' = os_pid w /\
    catalog w' = catalog w /\ metadata w' = metadata w /\
    statements w' = statements w /\
    (forall e, engine_ro w = Some e -> In e (disposed w')) /\
    (forall e, engine_rw w = Some e -> In e (disposed w')) /\
    match db_address_rw cfg with
    | None => engine_rw w' = None /\ engines_created w' = S (engines_created w)
    | Some address =>
        exists e_rw, engine_rw w' = Some e_rw /\
                     engine_id e_rw = S (engines_created w) /\
                     url e_rw = address /\
                     engines_created w' = S (S (engines_created w))
    end.
Proof.
  pose proof (dispose_engines_spec w) as D. cbv zeta in D.
  destruct D as (Dro & Drw & Dpid & Dn & Dos & Dcat & Dmeta & Dst & Din1 & Din2).
  unfold init_engines.
  destruct (prefix "postgres" (db_address_ro cfg)).
  all: unfold create_engine; simpl.
  all: destruct (db_address_rw cfg) as [address|]; simpl.
  all: eexists; repeat split; simpl; try rewrite Dn; try rewrite Dos; auto.
  all: try (eexists; repeat split; simpl; rewrite ?Dn; auto).
Qed.

Lemma consistent_dispose_engines w : consistent cfg (dispose_engines w).
Proof.
  pose proof (dispose_engines_spec w) as D. cbv zeta in D.
  destruct D as (Dro & Drw & Dpid & _).
  constructor; rewrite ?Dro, ?Drw, ?Dpid; try tauto; intros; congruence.
Qed.

Lemma consistent_init_engines w : consistent cfg (init_engines cfg w).
Proof.
  pose proof (init_engines_spec w) as I. cbv zeta in I.
  destruct I as (e & Hro & Hid & _ & Hpid & _ & _ & _ & _ & _ & _ & Hrw).
  destruct (db_address_rw cfg) as [address|] eqn:A.
  - destruct Hrw as (e' & Hrw & Hid' & _ & Hn).
    constructor; rewrite ?Hro, ?Hrw, ?Hpid, ?Hn; try congruence.
    + intros x Hx. inversion Hx; subst. lia.
    + intros x Hx. inversion Hx; subst. lia.
    + split; congruence.
  - destruct Hrw as (Hrw & Hn).
    constructor; rewrite ?Hro, ?Hrw, ?Hpid, ?Hn; try congruence.
    + intros x Hx. inversion Hx; subst. lia.
    + split; congruence.
Qed.

Lemma get_engines_world w :
  snd (get_engines cfg w) =
  let w1 := if pid_differs w then dispose_engines w else w in
  match engine_ro w1 with
  | None => init_engines cfg w1
  | Some _ => w1
  end.
Proof. reflexivity. Qed.

Lemma get_engines_value w :
  fst (get_engines cfg w) =
  (engine_ro (snd (get_engines cfg w)), engine_rw (snd (get_engines cfg w))).
Proof. reflexivity. Qed.

Lemma consistent_get_engines w :
  consistent cfg w -> consistent cfg (snd (get_engines cfg w)).
Proof.
  intros C. rewrite get_engines_world. simpl.
  destruct (pid_differs w).
  - destruct (engine_ro (dispose_engines w)).
    + apply consistent_dispose_engines.
    + apply consistent_init_engines.
  - destruct (engine_ro w); auto using consistent_init_engines.
Qed.

(** Fields that [consistent] reads. *)
Lemma consistent_ext w w' :
  engine_ro w' = engine_ro w -> engine_rw w' = engine_rw w ->
  engine_pid w' = engine_pid w -> engines_created w' = engines_created w ->
  consistent cfg w -> consistent cfg w'.
Proof.
  intros E1 E2 E3 E4 [c1 c2 c3 c4 c5 c6].
  constructor; rewrite ?E1, ?E2, ?E3, ?E4; auto.
Qed.

Lemma consistent_Session readonly w :
  consistent cfg w -> consistent cfg (snd (Session cfg readonly w)).
Proof.
  intros C. apply consistent_get_engines in C.
  unfold Session.
  destruct (get_engines cfg w) as [[ro rw] w1] eqn:G.
  pose proof (get_engines_value w) as V. rewrite G in V. simpl in V, C.
  inversion V; subst ro rw; clear V.
  destruct readonly; simpl.
  - destruct (_sessionmaker_ro w1); simpl;
      (eapply consistent_ext; [ | | | | exact C]; reflexivity).
  - destruct (engine_rw w1) eqn:RW; simpl.
    + destruct (_sessionmaker_rw w1); simpl;
        (eapply consistent_ext; [ | | | | exact C]; simpl; congruence).
    + eapply consistent_ext; [ | | | | exact C]; simpl; congruence.
Qed.

Lemma consistent_metadata_create_all on tables w :
  consistent cfg w -> consistent cfg (snd (metadata_create_all on tables w)).
Proof.
  intros C. unfold metadata_create_all. destruct on; simpl; auto.
  eapply consistent_ext; [ | | | | exact C]; reflexivity.
Qed.

Lemma consistent_create_tables tables engine w :
  consistent cfg w -> consistent cfg (snd (create_tables cfg tables engine w)).
Proof.
  intros C. unfold create_tables. destruct engine as [e|]; [exact C|].
  destruct (get_engines cfg w) as [[ro rw] w1] eqn:G.
  apply consistent_metadata_create_all.
  apply consistent_get_engines in C. now rewrite G in C.
Qed.

Lemma consistent_TableGroup_create_tables tg w :
  consistent cfg w -> consistent cfg (snd (TableGroup_create_tables cfg tg w)).
Proof.
  intros C. unfold TableGroup_create_tables.
  destruct (engine_rw w); [|exact C].
  destruct (group_tables tg (OrderedDict.keys (schemas tg))); [|exact C].
  now apply consistent_create_tables.
Qed.

Lemma consistent_module_import pid cat meta :
  consistent cfg (module_import cfg pid cat meta).
Proof.
  unfold module_import.
  eapply consistent_ext; [ | | | | apply consistent_init_engines]; reflexivity.
Qed.

Lemma reachable_consistent w : reachable cfg w -> consistent cfg w.
Proof.
  induction 1 as [pid cat meta | o w R IH].
  - apply consistent_module_import.
  - destruct o; simpl.
    + now apply consistent_get_engines.
    + apply consistent_init_engines.
    + apply consistent_dispose_engines.
    + now apply consistent_Session.
    + now apply consistent_create_tables.
    + now apply consistent_TableGroup_create_tables.
    + eapply consistent_ext; [ | | | | exact IH]; reflexivity.
Qed.

End WithConfig.
End DatabaseFacts.

Module EngineTheorems.
Import Database DatabaseFacts.

Lemma pid_differs_true w p0 :
  engine_pid w = Some p0 -> os_pid w <> p0 -> pid_differs w = true.
Proof.
  intros E N. unfold pid_differs. rewrite E.
  destruct (Nat.eqb_spec (os_pid w) p0); [contradiction | reflexivity].
Qed.

Lemma pid_differs_false w p0 :
  engine_pid w = Some p0 -> os_pid w = p0 -> pid_differs w = false.
Proof.
  intros E N. unfold pid_differs. rewrite E, N, Nat.eqb_refl. reflexivity.
Qed.

(** After a change of process id, [get_engines] is [init_engines] on the
    disposed globals. *)
Lemma get_engines_after_fork cfg w p0 :
  engine_pid w = Some p0 -> os_pid w <> p0 ->
  get_engines cfg w =
  let w' := init_engines cfg (dispose_engines w) in
  ((engine_ro w', engine_rw w'), w').
Proof.
  intros E N. unfold get_engines.
  rewrite (pid_differs_true w p0 E N).
  destruct (dispose_engines_spec w) as (Dro & _).
  cbv zeta. rewrite Dro. reflexivity.
Qed.

Lemma get_engines_same_process cfg w p0 e :
  engine_pid w = Some p0 -> os_pid w = p0 -> engine_ro w = Some e ->
  get_engines cfg w = ((engine_ro w, engine_rw w), w).
Proof.
  intros E N R. unfold get_engines.
  rewrite (pid_differs_false w p0 E N). cbv zeta.
  assert (M : match engine_ro w with
              | None => init_engines cfg w
              | Some _ => w
              end = w) by (rewrite R; reflexivity).
  rewrite M. reflexivity.
Qed.

Lemma dispose_engines_disposed_twice cfg w e :
  In e (disposed (dispose_engines w)) ->
  In e (disposed (init_engines cfg (dispose_engines w))).
Proof.
  intros H.
  assert (D1 : disposed (init_engines cfg (dispose_engines w)) =
               disposed (dispose_engines (dispose_engines w))).
  { unfold init_engines.
    destruct (prefix "postgres" (db_address_ro cfg));
      destruct (db_address_rw cfg); reflexivity. }
  assert (D2 : disposed (dispose_engines (dispose_engines w)) =
               disposed (dispose_engines w)).
  { destruct (dispose_engines_spec w) as (Dro' & Drw' & _).
    unfold dispose_engines at 1. rewrite Dro'. cbv zeta. rewrite Drw'.
    reflexivity. }
  rewrite D1, D2. exact H.
Qed.

(** C1.  In a process whose id differs from the id stored when the engines
    were created, the next [get_engines()] disposes the read-only and the
    read-write engine and returns engines constructed during the call,
    distinct from the earlier ones (the read-write one only where an
    address for it is configured); in the process that created them, it
    returns the engines that exist and changes nothing. *)
Theorem get_engines_fork_safety cfg w p0 :
  reachable cfg w ->
  engine_pid w = Some p0 ->
  (os_pid w <> p0 ->
   exists ro1 w',
     get_engines cfg w = ((Some ro1, engine_rw w'), w') /\
     (exists ro0, engine_ro w = Some ro0) /\
     (forall e, engine_ro w = Some e -> In e (disposed w')) /\
     (forall e, engine_rw w = Some e -> In e (disposed w')) /\
     constructed_between w w' ro1 /\
     Some ro1 <> engine_ro w /\ Some ro1 <> engine_rw w /\
     engine_pid w' = Some (os_pid w) /\
     match db_address_rw cfg with
     | None => engine_rw w' = None
     | Some _ =>
         exists rw1, engine_rw w' = Some rw1 /\
                     constructed_between w w' rw1 /\ rw1 <> ro1 /\
                     Some rw1 <> engine_ro w /\ Some rw1 <> engine_rw w
     end)
  /\
  (os_pid w = p0 ->
   get_engines cfg w = ((engine_ro w, engine_rw w), w) /\
   exists ro0, engine_ro w = Some ro0).
Proof.
  intros R E.
  pose proof (reachable_consistent cfg w R) as C.
  assert (Hro : exists ro0, engine_ro w = Some ro0).
  { destruct (engine_ro w) as [e|] eqn:Ero; eauto.
    apply (pid_iff_ro cfg w C) in Ero. congruence. }
  split; intros N.
  - rewrite (get_engines_after_fork cfg w p0 E N). cbv zeta.
    destruct (dispose_engines_spec w)
      as (Dro & Drw & Dpid & Dn & Dos & _ & _ & _ & Din1 & Din2).
    destruct (init_engines_spec cfg (dispose_engines w))
      as (ro1 & Iro & Iid & _ & Ipid & _ & _ & _ & _ & _ & _ & Irw).
    rewrite Dn in *. rewrite Dos in *.
    exists ro1, (init_engines cfg (dispose_engines w)).
    assert (Fresh : forall x e, (engine_ro w = Some e \/ engine_rw w = Some e) ->
                                engines_created w <= engine_id x -> Some x <> Some e).
    { intros x e [H|H] Hx Heq; inversion Heq; subst x.
      - apply (ro_allocated cfg w C) in H. lia.
      - apply (rw_allocated cfg w C) in H. lia. }
    assert (Fresh' : forall x, engines_created w <= engine_id x ->
                               Some x <> engine_ro w /\ Some x <> engine_rw w).
    { intros x Hx. split.
      - destruct (engine_ro w) eqn:Q; [apply Fresh with (e := e); auto | discriminate].
      - destruct (engine_rw w) eqn:Q; [apply Fresh with (e := e); auto | discriminate]. }
    rewrite Iro.
    assert (Hcb : constructed_between w (init_engines cfg (dispose_engines w)) ro1).
    { unfold constructed_between. rewrite Iid.
      destruct (db_address_rw cfg).
      - destruct Irw as (x & _ & _ & _ & Hn). rewrite Hn. lia.
      - destruct Irw as (_ & Hn). rewrite Hn. lia. }
    refine (conj _ (conj Hro (conj _ (conj _ (conj Hcb (conj _ (conj _ (conj Ipid _)))))))).
    + reflexivity.
    + intros e H. apply dispose_engines_disposed_twice. auto.
    + intros e H. apply dispose_engines_disposed_twice. auto.
    + apply Fresh'. lia.
    + apply Fresh'. lia.
    + destruct (db_address_rw cfg).
      * destruct Irw as (rw1 & Hrw & Hid & _ & Hn).
        exists rw1. unfold constructed_between. rewrite Hid, Hn.
        refine (conj Hrw (conj _ (conj _ _))).
        -- lia.
        -- intros ->. lia.
        -- apply Fresh'. lia.
      * tauto.
  - destruct Hro as [ro0 Hro]. split; eauto.
    eapply get_engines_same_process; eauto.
Qed.

(** C1 at a child forked from the importing process 1 as process 2, with
    both addresses configured. *)
Lemma get_engines_fork_safety_witness :
  let cfg := {| synphys_db := "synphys"; synphys_db_host := "postgresql://ro@host";
                synphys_db_host_rw := Some "postgresql://rw@host";
                sys_argv := ["pipeline"] |} in
  let w := exec cfg (op_fork 2) (module_import cfg 1 (fun _ => []) []) in
  exists ro1 w',
    get_engines cfg w = ((Some ro1, engine_rw w'), w') /\
    Some ro1 <> engine_ro w /\ Some ro1 <> engine_rw w.
Proof.
  intros cfg w.
  assert (R : reachable cfg w) by (apply reach_exec, reach_import).
  assert (E : engine_pid w = Some 1) by reflexivity.
  assert (N : os_pid w <> 1) by (simpl; lia).
  destruct (get_engines_fork_safety cfg w 1 R E) as [H _].
  destruct (H N) as (ro1 & w' & G & _ & _ & _ & _ & D1 & D2 & _).
  exists ro1, w'. auto.
Defined.

End EngineTheorems.

Module SessionTheorems.
Import Database DatabaseFacts.

Lemma get_engines_cases cfg w :
  snd (get_engines cfg w) = w \/
  snd (get_engines cfg w) = dispose_engines w \/
  snd (get_engines cfg w) = init_engines cfg w \/
  snd (get_engines cfg w) = init_engines cfg (dispose_engines w).
Proof.
  rewrite get_engines_world. cbv zeta.
  destruct (pid_differs w).
  - destruct (engine_ro (dispose_engines w)); auto.
  - destruct (engine_ro w); auto.
Qed.

Lemma get_engines_ro_some cfg w : engine_ro (snd (get_engines cfg w)) <> None.
Proof.
  rewrite get_engines_world. cbv zeta.
  destruct (pid_differs w).
  - destruct (engine_ro (dispose_engines w)) eqn:Q.
    + congruence.
    + destruct (init_engines_spec cfg (dispose_engines w)) as (e & H & _).
      congruence.
  - destruct (engine_ro w) eqn:Q.
    + congruence.
    + destruct (init_engines_spec cfg w) as (e & H & _). congruence.
Qed.

Lemma get_engines_statements cfg w :
  statements (snd (get_engines cfg w)) = statements w /\
  catalog (snd (get_engines cfg w)) = catalog w.
Proof.
  destruct (dispose_engines_spec w) as (_ & _ & _ & _ & _ & Dc & _ & Ds & _).
  destruct (init_engines_spec cfg w) as (e & _ & _ & _ & _ & _ & Ic & _ & Is & _).
  destruct (init_engines_spec cfg (dispose_engines w))
    as (e' & _ & _ & _ & _ & _ & Ic' & _ & Is' & _).
  destruct (get_engines_cases cfg w) as [H|[H|[H|H]]]; rewrite H; split; congruence.
Qed.

Lemma get_engines_rw_none cfg w :
  db_address_rw cfg = None -> engine_rw w = None ->
  engine_rw (snd (get_engines cfg w)) = None.
Proof.
  intros A R.
  destruct (dispose_engines_spec w) as (_ & Drw & _).
  pose proof (init_engines_spec cfg w) as I.
  pose proof (init_engines_spec cfg (dispose_engines w)) as I'.
  cbv zeta in I, I'. rewrite A in I, I'.
  destruct I as (e & _ & _ & _ & _ & _ & _ & _ & _ & _ & _ & Irw & _).
  destruct I' as (e' & _ & _ & _ & _ & _ & _ & _ & _ & _ & _ & Irw' & _).
  destruct (get_engines_cases cfg w) as [H|[H|[H|H]]]; rewrite H; assumption.
Qed.

Lemma Session_unfold cfg readonly w :
  Session cfg readonly w =
  let w1 := snd (get_engines cfg w) in
  let w2 := set_engine_rw (engine_rw w1) (set_engine_ro (engine_ro w1) w1) in
  if readonly then
    let w3 := match _sessionmaker_ro w2 with
              | None => set_sessionmaker_ro (Some {| bind := engine_ro w2 |}) w2
              | Some _ => w2
              end in
    (make_session (_sessionmaker_ro w3), w3)
  else
    match engine_rw w2 with
    | None => (Raise (RuntimeError no_write_access_message), w2)
    | Some _ =>
        let w3 := match _sessionmaker_rw w2 with
                  | None => set_sessionmaker_rw (Some {| bind := engine_rw w2 |}) w2
                  | Some _ => w2
                  end in
        (make_session (_sessionmaker_rw w3), w3)
    end.
Proof. reflexivity. Qed.

Lemma Session_readonly_succeeds cfg w :
  exists s, fst (Session cfg true w) = Ok s.
Proof.
  rewrite Session_unfold. cbv zeta.
  set (w2 := set_engine_rw _ _).
  destruct (_sessionmaker_ro w2) as [sm|] eqn:Q; cbn [fst].
  - rewrite Q. cbn [make_session]. eauto.
  - cbn [set_sessionmaker_ro _sessionmaker_ro make_session]. eauto.
Qed.

(** C7.  Where no read-write address is configured and no read-write engine
    exists, [Session(readonly=False)] raises the error that reports the
    missing write access; the globals it leaves are those of a
    [get_engines()] call, and [Session(readonly=True)] succeeds both before
    and after the failed call. *)
Theorem Session_without_write_access cfg w :
  db_address_rw cfg = None ->
  engine_rw w = None ->
  fst (Session cfg false w) = Raise NoWriteAccessError /\
  engine_ro (snd (Session cfg false w)) = engine_ro (snd (get_engines cfg w)) /\
  engine_ro (snd (Session cfg false w)) <> None /\
  engine_pid (snd (Session cfg false w)) = engine_pid (snd (get_engines cfg w)) /\
  (exists s, fst (Session cfg true (snd (Session cfg false w))) = Ok s) /\
  (exists s, fst (Session cfg true w) = Ok s).
Proof.
  intros A R.
  pose proof (get_engines_rw_none cfg w A R) as G.
  pose proof (get_engines_ro_some cfg w) as Hro.
  rewrite (Session_unfold cfg false w). cbv zeta.
  cbn [set_engine_rw set_engine_ro engine_rw engine_ro]. rewrite G.
  cbn [fst snd engine_ro engine_pid].
  repeat split; auto using Session_readonly_succeeds.
Qed.

(** C7 in the process that imported the module with a read-only
    configuration. *)
Lemma Session_without_write_access_witness :
  let cfg := {| synphys_db := "synphys"; synphys_db_host := "sqlite:///synphys.sqlite";
                synphys_db_host_rw := None; sys_argv := [] |} in
  let w := module_import cfg 1 (fun _ => []) [] in
  fst (Session cfg false w) = Raise NoWriteAccessError.
Proof.
  intros cfg w.
  exact (proj1 (Session_without_write_access cfg w eq_refl eq_refl)).
Defined.

End SessionTheorems.

Module TableGroupTheorems.
Import Database DatabaseFacts SessionTheorems.

(** The read-only loop stops at the first declared table that is absent. *)
Lemma verify_tables_spec cfg w ro ks :
  engine_ro w = Some ro ->
  (verify_tables cfg w ks = Ok tt /\
   Forall (fun k => In k (catalog w (url ro))) ks)
  \/
  (exists pre k post,
     ks = (pre ++ k :: post)%list /\
     Forall (fun k' => In k' (catalog w (url ro))) pre /\
     ~ In k (catalog w (url ro)) /\
     verify_tables cfg w ks = Raise (SchemaMissingError cfg k)).
Proof.
  intros Hro. unfold verify_tables, table_names. rewrite Hro.
  induction ks as [|k ks IH].
  - left. simpl. auto.
  - cbn [for_each res_bind].
    destruct (str_mem k (catalog w (url ro))) eqn:M; simpl.
    + apply str_mem_In in M.
      destruct IH as [[Hok Hall] | (pre & k' & post & E & Hpre & Hk & Hr)].
      * left. split; [exact Hok | constructor; assumption].
      * right. exists (k :: pre), k', post. subst ks.
        split; [reflexivity|]. split; [constructor; assumption|]. auto.
    + apply str_mem_not_In in M.
      right. exists [], k, ks. repeat split; auto.
Qed.

Lemma group_tables_spec tg ks :
  (forall k, In k ks -> exists t, OrderedDict.get (mappings tg) k = Some t) ->
  exists ts,
    group_tables tg ks = Ok ts /\
    Forall2 (fun k t => OrderedDict.get (mappings tg) k = Some t) ks ts.
Proof.
  induction ks as [|k ks IH]; intros H.
  - exists []. simpl. auto.
  - destruct (H k (or_introl eq_refl)) as [t Ht].
    destruct IH as (ts & Hts & F); [intros; apply H; now right|].
    exists (t :: ts). simpl. unfold getitem. rewrite Ht. simpl. rewrite Hts.
    simpl. auto.
Qed.

(** C8, as amended.  In a state reached from the import of the module by
    calls of its functions: without a read-write engine and with the
    read-only engine in place, [create_tables()] of a table group leaves
    the world as it is (no DDL) and looks each declared table up in the
    catalogue of the read-only database: it returns normally when all are
    there, and otherwise raises the error naming the first declared table
    that is absent.  With a read-write engine, and a group in which every
    declared table has a mapped class, it sends one [create_all] batch
    holding the tables of the group in declared order. *)
Theorem TableGroup_create_tables_spec cfg tg w :
  reachable cfg w ->
  (forall ro,
     engine_rw w = None -> engine_ro w = Some ro ->
     snd (TableGroup_create_tables cfg tg w) = w /\
     ((fst (TableGroup_create_tables cfg tg w) = Ok tt /\
       forall k, In k (OrderedDict.keys (schemas tg)) -> In k (catalog w (url ro)))
      \/
      (exists pre k post,
         OrderedDict.keys (schemas tg) = (pre ++ k :: post)%list /\
         (forall k', In k' pre -> In k' (catalog w (url ro))) /\
         ~ In k (catalog w (url ro)) /\
         fst (TableGroup_create_tables cfg tg w) = Raise (SchemaMissingError cfg k))))
  /\
  (forall rw,
     engine_rw w = Some rw ->
     (forall k, In k (OrderedDict.keys (schemas tg)) ->
                exists t, OrderedDict.get (mappings tg) k = Some t) ->
     exists ts rw1,
       Forall2 (fun k t => OrderedDict.get (mappings tg) k = Some t)
               (OrderedDict.keys (schemas tg)) ts /\
       fst (TableGroup_create_tables cfg tg w) = Ok tt /\
       engine_rw (snd (TableGroup_create_tables cfg tg w)) = Some rw1 /\
       statements (snd (TableGroup_create_tables cfg tg w)) =
       (statements w ++ [CreateAll rw1 (Some ts)])%list).
Proof.
  intros R. pose proof (reachable_consistent cfg w R) as C.
  split.
  - intros ro Hrw Hro. unfold TableGroup_create_tables. rewrite Hrw.
    cbn [fst snd]. split; [reflexivity|].
    destruct (verify_tables_spec cfg w ro (OrderedDict.keys (schemas tg)) Hro)
      as [[Hok Hall] | (pre & k & post & E & Hpre & Hk & Hr)].
    + left. split; auto. now apply Forall_forall.
    + right. exists pre, k, post. rewrite Forall_forall in Hpre. auto.
  - intros rw Hrw Hmap.
    destruct (group_tables_spec tg _ Hmap) as (ts & Hts & F).
    unfold TableGroup_create_tables. rewrite Hrw, Hts.
    unfold create_tables.
    pose proof (get_engines_value cfg w) as V.
    pose proof (consistent_get_engines cfg w C) as C1.
    pose proof (get_engines_ro_some cfg w) as Hro1.
    destruct (get_engines_statements cfg w) as [Hst _].
    destruct (get_engines cfg w) as [[ro1 rw1] w1].
    cbn [fst snd] in *. inversion V; subst ro1 rw1; clear V.
    assert (A : db_address_rw cfg <> None).
    { intros A. apply (rw_needs_address cfg w C) in A. congruence. }
    pose proof (rw_when_address cfg w1 C1 Hro1 A) as Hrw1.
    destruct (engine_rw w1) as [e1|] eqn:Q; [|congruence].
    exists ts, e1. unfold metadata_create_all. cbn [fst snd engine_rw statements].
    rewrite Hst. auto.
Qed.

(** Called with an engine, as [bake_sqlite] calls it for the sqlite file,
    the module-level [create_tables] reads its local name [engine_rw]
    before anything was bound to it. *)
Lemma create_tables_with_engine_raises cfg tables e w :
  create_tables cfg tables (Some e) w = (Raise (UnboundLocalError "engine_rw"), w).
Proof. reflexivity. Qed.

(** A read-only deployment whose database lacks the table [cell]. *)
Example TableGroup_create_tables_missing_cell :
  let cfg := {| synphys_db := "synphys"; synphys_db_host := "sqlite:///synphys.sqlite";
                synphys_db_host_rw := None; sys_argv := [] |} in
  let w := module_import cfg 1 (fun _ => ["experiment"; "electrode"]) [] in
  let tg := {| schemas := [("experiment", []); ("cell", []); ("pair", [])];
               mappings := [] |} in
  TableGroup_create_tables cfg tg w =
  (Raise (PyException "Table cell not found in database sqlite:///synphys.sqlite"), w).
Proof. reflexivity. Qed.

(** C8 on that deployment, where nothing is sent to the database, and on
    a deployment with write access and a group of two mapped tables, where
    one batch is sent. *)
Lemma TableGroup_create_tables_spec_witness :
  let cfg := {| synphys_db := "synphys"; synphys_db_host := "sqlite:///synphys.sqlite";
                synphys_db_host_rw := None; sys_argv := [] |} in
  let w := module_import cfg 1 (fun _ => ["experiment"; "electrode"]) [] in
  let tg := {| schemas := [("experiment", []); ("cell", []); ("pair", [])];
               mappings := [] |} in
  let cfg' := {| synphys_db := "synphys"; synphys_db_host := "postgresql://ro@host";
                 synphys_db_host_rw := Some "postgresql://rw@host";
                 sys_argv := [] |} in
  let w' := module_import cfg' 1 (fun _ => []) [] in
  let tg' := {| schemas := [("experiment", []); ("cell", [])];
                mappings := [("experiment", {| table_name := "experiment" |});
                             ("cell", {| table_name := "cell" |})] |} in
  (reachable cfg w /\ snd (TableGroup_create_tables cfg tg w) = w) /\
  (reachable cfg' w' /\
   exists ts rw1,
     fst (TableGroup_create_tables cfg' tg' w') = Ok tt /\
     statements (snd (TableGroup_create_tables cfg' tg' w')) =
       (statements w' ++ [CreateAll rw1 (Some ts)])%list).
Proof.
  intros cfg w tg cfg' w' tg'.
  assert (R : reachable cfg w) by apply reach_import.
  assert (R' : reachable cfg' w') by apply reach_import.
  split.
  - split; [exact R|].
    destruct (TableGroup_create_tables_spec cfg tg w R) as [H _].
    exact (proj1 (H {| engine_id := 0; url := "sqlite:///synphys.sqlite"; options := [] |}
                    eq_refl eq_refl)).
  - split; [exact R'|].
    assert (E : exists rw, engine_rw w' = Some rw)
      by (vm_compute; eexists; reflexivity).
    destruct E as [rw E].
    assert (M : forall k, In k (OrderedDict.keys (schemas tg')) ->
                          exists t, OrderedDict.get (mappings tg') k = Some t).
    { intros k [<-|[<-|[]]]; eexists; reflexivity. }
    destruct (proj2 (TableGroup_create_tables_spec cfg' tg' w' R') rw E M)
      as (ts & rw1 & _ & Hok & _ & Hst).
    exists ts, rw1. split; [exact Hok | exact Hst].
Defined.

(** C8 as stated fails in two places.  After [dispose_engines()], in a
    deployment without write access whose database holds every declared
    table, the read-write engine is absent and [create_tables()] neither
    returns normally nor raises the error of a missing table: it raises
    AttributeError, the read-only engine being absent too.  With write
    access, a group that declares a table without a mapped class creates
    nothing: it raises KeyError for that table and sends no statement. *)
Lemma TableGroup_create_tables_counterexample :
  let cfg := {| synphys_db := "synphys"; synphys_db_host := "sqlite:///synphys.sqlite";
                synphys_db_host_rw := None; sys_argv := [] |} in
  let w := exec cfg op_dispose_engines
             (module_import cfg 1 (fun _ => ["experiment"; "cell"]) []) in
  let tg := {| schemas := [("experiment", []); ("cell", [])];
               mappings := [("experiment", {| table_name := "experiment" |});
                            ("cell", {| table_name := "cell" |})] |} in
  let cfg' := {| synphys_db := "synphys"; synphys_db_host := "postgresql://ro@host";
                 synphys_db_host_rw := Some "postgresql://rw@host";
                 sys_argv := [] |} in
  let w' := module_import cfg' 1 (fun _ => []) [] in
  let tg' := {| schemas := [("experiment", []); ("cell", [])];
                mappings := [("experiment", {| table_name := "experiment" |})] |} in
  (reachable cfg w /\ engine_rw w = None /\
   (forall k, In k (OrderedDict.keys (schemas tg)) ->
              In k (catalog w (db_address_ro cfg))) /\
   fst (TableGroup_create_tables cfg tg w) =
     Raise (AttributeError "'NoneType' object has no attribute 'table_names'") /\
   fst (TableGroup_create_tables cfg tg w) <> Ok tt /\
   (forall k, fst (TableGroup_create_tables cfg tg w) <> Raise (SchemaMissingError cfg k)))
  /\
  (reachable cfg' w' /\ engine_rw w' <> None /\
   fst (TableGroup_create_tables cfg' tg' w') = Raise (KeyError "cell") /\
   statements (snd (TableGroup_create_tables cfg' tg' w')) = statements w').
Proof.
  intros cfg w tg cfg' w' tg'. split.
  - split; [apply reach_exec, reach_import|]. split; [reflexivity|].
    split; [intros k [<-|[<-|[]]]; vm_compute; auto|].
    split; [reflexivity|]. split; [discriminate|]. intros k. discriminate.
  - split; [apply reach_import|]. split; [discriminate|].
    split; reflexivity.
Qed.

End TableGroupTheorems.

(* ===================================================================== *)
(** ** The streaming exporter                                            *)
(* ===================================================================== *)
Module ExporterFacts.
Import Exporter.

(** Case analysis on a step: which thread moved, and from where. *)
Ltac step_inv H :=
  match type of H with
  | step ?s ?s' =>
      destruct s as [tbl c mx q th co qs d];
      destruct H as [H|H];
      [ unfold producer_step in H; cbn [thread queue table chunksize max_id
                                        consumer queries dest] in H;
        destruct th as [|[|i rest]|records rest| |e];
        try discriminate H;
        try match type of H with
            | context [Nat.ltb ?a ?b] =>
                destruct (Nat.ltb a b) eqn:Hroom; try discriminate H
            end;
        inversion H; subst; clear H
      | unfold consumer_step in H; cbn [thread queue table chunksize max_id
                                        consumer queries dest] in H;
        destruct co as [|[|r rs]|];
        [ destruct q as [|[recs|] q] | idtac | idtac | idtac ];
        try discriminate H;
        inversion H; subst; clear H ]
  end.

Section Reader.
Variable Payload : Type.
Implicit Types s : Sys Payload.

Lemma step_static s s' :
  step s s' ->
  table s' = table s /\ chunksize s' = chunksize s /\ max_id s' = max_id s.
Proof. intros H. step_inv H; auto. Qed.

Lemma steps_static n s s' :
  steps n s s' ->
  table s' = table s /\ chunksize s' = chunksize s /\ max_id s' = max_id s.
Proof.
  induction 1 as [|n s s' s'' _ IH H]; auto.
  apply step_static in H. intuition congruence.
Qed.

(** The queue never holds more than [maxsize] items. *)
Lemma step_bounded s s' :
  step s s' ->
  List.length (queue s) <= maxsize -> List.length (queue s') <= maxsize.
Proof.
  intros H. step_inv H; cbn [queue]; intros B;
    rewrite ?length_app; simpl in *; try lia;
    apply Nat.ltb_lt in Hroom; unfold maxsize in *; lia.
Qed.

Lemma reachable_bounded (tbl : list (Row Payload)) chunk s :
  reachable (TableReadThread tbl chunk) s -> List.length (queue s) <= maxsize.
Proof.
  intros [n H]. remember (TableReadThread tbl chunk) as s0.
  induction H as [|n s s' s'' _ IH H]; subst.
  - simpl. unfold maxsize. lia.
  - eapply step_bounded; eauto.
Qed.

(** A producer at [put] cannot move while the queue is full, and can move
    as soon as it is not. *)
Lemma put_blocks_iff_full s :
  (exists records rest, thread s = PPut records rest) \/ thread s = PLoop [] ->
  (producer_step s = None <-> maxsize <= List.length (queue s)).
Proof.
  unfold producer_step.
  intros [(records & rest & E) | E]; rewrite E;
    destruct (Nat.ltb_spec (List.length (queue s)) maxsize);
    split; intros; try discriminate; try lia; auto.
Qed.

(** Rows are neither lost nor made on the way. *)
Lemma step_stream s s' : step s s' -> stream s' = stream s.
Proof.
  intros H. step_inv H; unfold stream, pending_of, chunks, chunk_rows;
    cbn [thread queue table chunksize max_id consumer queries dest
         producer_hand consumer_hand flat_map batch_rows app];
    rewrite ?flat_map_app; cbn [flat_map batch_rows app];
    rewrite ?app_nil_r, <- ?app_assoc; auto.
  unfold producer_hand, consumer_hand; cbn [thread consumer].
  destruct (range 0 mx c); reflexivity.
Qed.

Lemma step_query_plan s s' : step s s' -> query_plan s' = query_plan s.
Proof.
  intros H. step_inv H; unfold query_plan, pending_of, chunks;
    cbn [thread queue table chunksize max_id consumer queries dest map app];
    rewrite <- ?app_assoc; auto.
  destruct (range 0 mx c); reflexivity.
Qed.

Lemma map_Some_snoc_None {A} (q : list A) (x : option A) (l : list (option A)) :
  x :: l = (map Some q ++ [None])%list ->
  (x = None /\ l = [] /\ q = []) \/
  (exists a q', x = Some a /\ q = a :: q' /\ l = (map Some q' ++ [None])%list).
Proof.
  destruct q as [|a q]; simpl; intros H; inversion H; subst; eauto 10.
Qed.

Lemma step_sentinel_ok s s' : step s s' -> sentinel_ok s -> sentinel_ok s'.
Proof.
  intros H. step_inv H; unfold sentinel_ok;
    cbn [thread queue consumer]; intros S.
  - (* run entered *)
    destruct (range 0 mx c); destruct co; auto.
  - (* put None *)
    destruct co; try contradiction; destruct S as [q' ->]; eauto.
  - (* query *)
    destruct co; auto.
  - (* put records *)
    destruct co; try contradiction; destruct S as [q' ->];
      exists (q' ++ [records])%list; now rewrite map_app.
  - (* get records *)
    destruct th; destruct S as [q' E].
    1-3, 5: destruct q' as [|a q']; inversion E; subst; eauto.
    apply map_Some_snoc_None in E.
    destruct E as [(E & _) | (a & q'' & _ & _ & E)]; [discriminate | eauto].
  - (* get None *)
    destruct th; destruct S as [q' E].
    1-3, 5: destruct q' as [|a q']; inversion E.
    apply map_Some_snoc_None in E.
    destruct E as [(_ & E & _) | (a & q'' & E & _)]; [assumption | discriminate].
  - (* end of a batch *)
    destruct th; auto.
  - (* insert a row *)
    destruct th; auto.
Qed.

Lemma step_not_crashed s s' : step s s' -> not_crashed s -> not_crashed s'.
Proof.
  intros H. step_inv H; unfold not_crashed; cbn [thread max_id chunksize]; auto.
  intros [l ->]. exact I.
Qed.

Lemma future_weight_static s s' l :
  table s' = table s -> chunksize s' = chunksize s ->
  future_weight s' l = future_weight s l.
Proof.
  intros E1 E2. unfold future_weight, chunk_rows. now rewrite E1, E2.
Qed.

(** Every step lowers the measure: no execution goes on for ever. *)
Lemma step_measure s s' : step s s' -> measure s' < measure s.
Proof.
  intros H. step_inv H; unfold measure, chunks, future_weight, chunk_rows;
    cbn [thread queue table chunksize max_id consumer queries dest
         map list_sum batch_weight];
    rewrite ?map_app, ?list_sum_app; unfold list_sum;
    cbn [map batch_weight fold_right List.length];
    try lia.
  destruct (range 0 mx c); simpl; lia.
Qed.

Lemma steps_measure n s s' : steps n s s' -> n + measure s' <= measure s.
Proof.
  induction 1 as [|n s s' s'' _ IH H]; [lia|].
  apply step_measure in H. lia.
Qed.

Lemma step_reachable s0 s s' : reachable s0 s -> step s s' -> reachable s0 s'.
Proof. intros [n H] St. exists (S n). econstructor; eauto. Qed.

Lemma reachable_refl s : reachable s s.
Proof. exists 0. constructor. Qed.

(** An invariant of the steps holds in every reachable state. *)
Lemma reachable_ind' (P : Sys Payload -> Prop) s0 :
  P s0 -> (forall s s', step s s' -> P s -> P s') ->
  forall s, reachable s0 s -> P s.
Proof.
  intros H0 Hstep s [n H]. induction H; eauto.
Qed.

(** While the consumer has not finished, some thread can move. *)
Lemma progress s :
  sentinel_ok s -> not_crashed s -> consumer s <> CDone ->
  exists s', step s s'.
Proof.
  destruct s as [tbl c mx q th co qs d].
  unfold sentinel_ok, not_crashed, step, producer_step, consumer_step.
  cbn [thread queue table chunksize max_id consumer queries dest].
  intros S NC ND.
  destruct co as [|[|r rs]|]; [ | eauto | eauto | congruence].
  destruct q as [|[recs|] q]; [ | eauto | eauto].
  destruct th as [|[|i rest]|records rest| |e]; cbn [List.length Nat.ltb Nat.leb maxsize];
    eauto.
  - destruct S as [q' E]. destruct q'; discriminate E.
  - contradiction.
Qed.

(** When the consumer has left its loop, everything was delivered. *)
Lemma finished_all_delivered s :
  sentinel_ok s -> finished s ->
  stuck s /\ stream s = dest s /\ query_plan s = queries s.
Proof.
  destruct s as [tbl c mx q th co qs d].
  unfold sentinel_ok, finished, stuck, stream, query_plan, pending_of,
    producer_step, consumer_step, producer_hand, consumer_hand.
  cbn [thread queue table chunksize max_id consumer queries dest].
  intros S F. subst co.
  destruct th; try contradiction. subst q.
  cbn [flat_map map app]. rewrite !app_nil_r. auto.
Qed.

Section FromStart.
Variable tbl : list (Row Payload).
Variable chunk : Z.
Variable l : list Z.
Hypothesis range_ok : range 0 (func_max tbl) chunk = Ok l.

Let s0 := TableReadThread tbl chunk.

Lemma start_invariants s :
  reachable s0 s ->
  sentinel_ok s /\ not_crashed s /\
  stream s = flat_map (fun i => query_all tbl i (i + chunk)) l /\
  query_plan s = QueryMaxId :: map (fun i => QueryRange i (i + chunk)) l.
Proof.
  revert s. apply reachable_ind'.
  - unfold sentinel_ok, not_crashed, stream, query_plan, pending_of, chunks,
      chunk_rows, s0, TableReadThread.
    cbn [thread queue table chunksize max_id consumer queries dest
         consumer_hand producer_hand flat_map app].
    rewrite range_ok. repeat split; eauto. exists []. reflexivity.
  - intros s1 s2 St (S & NC & E1 & E2).
    rewrite (step_stream s1 s2 St), (step_query_plan s1 s2 St).
    split; [eapply step_sentinel_ok; eauto|].
    split; [eapply step_not_crashed; eauto|]. auto.
Qed.

(** Under any schedule the export keeps moving until the consumer leaves
    its loop, and then the destination holds the rows of every chunk, in
    chunk order, and the log holds the max-id query followed by one range
    query per chunk. *)
Lemma export_complete s :
  reachable s0 s ->
  (exists s', step s s') \/
  (finished s /\ stuck s /\
   dest s = flat_map (fun i => query_all tbl i (i + chunk)) l /\
   queries s = QueryMaxId :: map (fun i => QueryRange i (i + chunk)) l).
Proof.
  intros R. destruct (start_invariants s R) as (S & NC & E1 & E2).
  destruct (consumer s) eqn:C.
  1, 2: left; apply progress; auto; congruence.
  right. destruct (finished_all_delivered s S C) as (St & F1 & F2).
  repeat split; try apply St; congruence.
Qed.

(** At any time the log is a prefix of that plan and the destination a
    prefix of that stream. *)
Lemma export_prefix s :
  reachable s0 s ->
  (exists later, (queries s ++ later)%list =
                 QueryMaxId :: map (fun i => QueryRange i (i + chunk)) l) /\
  (exists later, (dest s ++ later)%list =
                 flat_map (fun i => query_all tbl i (i + chunk)) l).
Proof.
  intros R. destruct (start_invariants s R) as (_ & _ & E1 & E2).
  unfold query_plan in E2. unfold stream in E1. eauto.
Qed.

End FromStart.

(** The scheduler [run] follows steps, and stops only where nothing moves. *)
Lemma steps_cons n s s' s'' : step s s' -> steps n s' s'' -> steps (S n) s s''.
Proof.
  intros St H. induction H as [|n s1 s2 s3 _ IH St'].
  - econstructor; [constructor | exact St].
  - econstructor; [apply IH; exact St | exact St'].
Qed.

Lemma run_reachable fuel s : reachable s (run fuel s).
Proof.
  revert s. induction fuel as [|fuel IH]; intros s; simpl.
  - apply reachable_refl.
  - destruct (producer_step s) as [s'|] eqn:P.
    + destruct (IH s') as [n H]. exists (S n).
      eapply steps_cons; eauto. now left.
    + destruct (consumer_step s) as [s'|] eqn:C.
      * destruct (IH s') as [n H]. exists (S n).
        eapply steps_cons; eauto. now right.
      * apply reachable_refl.
Qed.

Lemma run_stuck fuel s : measure s <= fuel -> stuck (run fuel s).
Proof.
  revert s. induction fuel as [|fuel IH]; intros s M; simpl.
  - split.
    + destruct (producer_step s) as [s'|] eqn:P; auto.
      assert (St : step s s') by now left. apply step_measure in St. lia.
    + destruct (consumer_step s) as [s'|] eqn:C; auto.
      assert (St : step s s') by now right. apply step_measure in St. lia.
  - destruct (producer_step s) as [s'|] eqn:P.
    + assert (St : step s s') by now left. apply step_measure in St.
      apply IH. lia.
    + destruct (consumer_step s) as [s'|] eqn:C.
      * assert (St : step s s') by now right. apply step_measure in St.
        apply IH. lia.
      * split; assumption.
Qed.

Lemma stuck_no_step s : stuck s -> ~ exists s', step s s'.
Proof. intros [P C] [s' [H|H]]; congruence. Qed.

(** *** Tables stored in the order of their ids *)

Lemma filter_none {A} (f : A -> bool) (xs : list A) :
  (forall x, In x xs -> f x = false) -> filter f xs = [].
Proof.
  induction xs as [|x xs IH]; intros H; simpl; auto.
  rewrite (H x (or_introl eq_refl)). apply IH. intros y Hy. apply H. now right.
Qed.

Lemma filter_all {A} (f : A -> bool) (xs : list A) :
  (forall x, In x xs -> f x = true) -> filter f xs = xs.
Proof.
  induction xs as [|x xs IH]; intros H; simpl; auto.
  rewrite (H x (or_introl eq_refl)). f_equal. apply IH.
  intros y Hy. apply H. now right.
Qed.

(** In such a table the rows below [a] come before those of [[a, b)]. *)
Lemma query_all_adjacent (tbl : list (Row Payload)) (a b : Z) :
  sorted_by_id tbl -> (a <= b)%Z ->
  (filter (fun r => (id r <? a)%Z) tbl ++ query_all tbl a b)%list
  = filter (fun r => (id r <? b)%Z) tbl.
Proof.
  intros Hs Hab. unfold query_all.
  induction Hs as [|r tbl Hs IH Hr]; simpl; auto.
  destruct (Z.ltb_spec (id r) a) as [Hlt|Hge].
  - assert (Hb : (id r <? b)%Z = true) by (apply Z.ltb_lt; lia).
    assert (Ha : (a <=? id r)%Z = false) by (apply Z.leb_gt; lia).
    rewrite Hb, Ha. simpl. f_equal. exact IH.
  - assert (Ha : (a <=? id r)%Z = true) by (apply Z.leb_le; lia).
    rewrite Ha. simpl.
    rewrite Forall_forall in Hr.
    assert (E : filter (fun r0 => (id r0 <? a)%Z) tbl = []).
    { apply filter_none. intros x Hx. apply Z.ltb_ge.
      specialize (Hr x Hx). lia. }
    rewrite E in IH |- *. simpl in IH |- *.
    destruct (id r <? b)%Z; rewrite IH; reflexivity.
Qed.

(** The first [n] chunks of width [c] hold the rows with ids below [n * c]. *)
Lemma chunks_cover_prefix (tbl : list (Row Payload)) (c : Z) (n : nat) :
  sorted_by_id tbl -> (0 < c)%Z -> (forall r, In r tbl -> (0 <= id r)%Z) ->
  flat_map (fun i => query_all tbl i (i + c))
           (map (fun k => (0 + Z.of_nat k * c)%Z) (seq 0 n))
  = filter (fun r => (id r <? Z.of_nat n * c)%Z) tbl.
Proof.
  intros Hs Hc Hpos. induction n as [|n IH].
  - simpl. symmetry. apply filter_none. intros r Hr. apply Z.ltb_ge.
    specialize (Hpos r Hr). lia.
  - rewrite seq_S, map_app, flat_map_app, IH. cbn [map flat_map Nat.add].
    rewrite app_nil_r.
    replace (0 + Z.of_nat n * c + c)%Z with (Z.of_nat (S n) * c)%Z by lia.
    replace (0 + Z.of_nat n * c)%Z with (Z.of_nat n * c)%Z by lia.
    apply query_all_adjacent; auto. nia.
Qed.

Lemma fold_left_max_ge (l : list Z) (a : Z) :
  (a <= fold_left Z.max l a)%Z /\
  (forall x, In x l -> (x <= fold_left Z.max l a)%Z).
Proof.
  revert a. induction l as [|y l IH]; intros a; simpl.
  - split; [lia | contradiction].
  - destruct (IH (Z.max a y)) as [H1 H2]. split; [lia|].
    intros x [<-|Hx]; [lia | auto].
Qed.

Lemma fold_left_max_attained (l : list Z) (a : Z) :
  fold_left Z.max l a = a \/ In (fold_left Z.max l a) l.
Proof.
  revert a. induction l as [|y l IH]; intros a; simpl; auto.
  destruct (IH (Z.max a y)) as [H|H]; auto.
  rewrite H. destruct (Z.max_spec a y) as [[_ E]|[_ E]]; rewrite E; auto.
Qed.

(** [func.max] is the id of some row, and no id is above it. *)
Lemma func_max_spec (tbl : list (Row Payload)) (M : Z) :
  func_max tbl = Some M ->
  (exists r, In r tbl /\ id r = M) /\ (forall r, In r tbl -> (id r <= M)%Z).
Proof.
  destruct tbl as [|r0 tbl]; simpl; intros H; inversion H; clear H.
  split.
  - destruct (fold_left_max_attained (map (@id Payload) tbl) (id r0)) as [E|E].
    + exists r0. rewrite E. auto.
    + apply in_map_iff in E. destruct E as (r & E & Hr). exists r. auto.
  - destruct (fold_left_max_ge (map (@id Payload) tbl) (id r0)) as [Hge Hall].
    intros r [<-|Hr]; [exact Hge | apply Hall; now apply in_map].
Qed.

Lemma future_weight_length s l :
  future_weight s l = List.length (flat_map (chunk_rows s) l) + 4 * List.length l.
Proof.
  unfold future_weight. induction l as [|i l IH]; simpl; auto.
  rewrite length_app, IH. lia.
Qed.

End Reader.

(** The table of the scenario is stored in id order, with ids 1..2500. *)
Lemma sorted_by_id_map_seq (Payload : Type) (columns_of : nat -> Payload) a n :
  sorted_by_id
    (map (fun i => {| id := Z.of_nat i; columns := columns_of i |}) (seq a n)).
Proof.
  unfold sorted_by_id. revert a. induction n as [|n IH]; intros a; simpl.
  - constructor.
  - constructor; [apply IH|].
    apply Forall_forall. intros r Hr. apply in_map_iff in Hr.
    destruct Hr as (i & <- & Hi). apply in_seq in Hi. simpl. lia.
Qed.

Lemma table_2500_ids (Payload : Type) (columns_of : nat -> Payload) r :
  In r (table_2500 columns_of) -> (1 <= id r <= 2500)%Z.
Proof.
  unfold table_2500. intros Hr. apply in_map_iff in Hr.
  destruct Hr as (i & <- & Hi). apply in_seq in Hi. simpl. lia.
Qed.

End ExporterFacts.

Module ExporterTheorems.
Import Exporter ExporterFacts.

(** C6.  In every state an export can reach, under any interleaving of the
    reader thread and the consumer, the queue holds at most 5 items; a
    producer arrived at [put] (of a batch, or of the final None) cannot
    move exactly when 5 items are queued. *)
Theorem queue_backpressure (Payload : Type) (tbl : list (Row Payload))
    (chunk : Z) (s : Sys Payload) :
  reachable (TableReadThread tbl chunk) s ->
  List.length (queue s) <= 5 /\
  (forall records rest,
     thread s = PPut records rest ->
     (producer_step s = None <-> List.length (queue s) = 5)) /\
  (thread s = PLoop [] ->
   (producer_step s = None <-> List.length (queue s) = 5)).
Proof.
  intros R. pose proof (reachable_bounded _ _ _ _ R) as B. unfold maxsize in B.
  split; [exact B|].
  split.
  - intros records rest E.
    rewrite (put_blocks_iff_full _ s) by (left; eauto).
    unfold maxsize. lia.
  - intros E.
    rewrite (put_blocks_iff_full _ s) by (right; assumption).
    unfold maxsize. lia.
Qed.

(** Seven rows read one by one by a producer that is never made to wait:
    after twelve steps five batches are queued and the sixth is held at
    [put]. *)
Lemma queue_backpressure_witness :
  let tbl := map (fun i => {| id := Z.of_nat i; columns := tt |}) (seq 1 7) in
  let s := run 12 (TableReadThread tbl 1) in
  reachable (TableReadThread tbl 1) s /\
  List.length (queue s) = 5 /\ producer_step s = None.
Proof.
  intros tbl s.
  assert (R : reachable (TableReadThread tbl 1) s) by apply run_reachable.
  split; [exact R|].
  split; [reflexivity|].
  destruct (queue_backpressure unit tbl 1 s R) as (_ & H & _).
  destruct (H (query_all tbl 5 6) [6%Z] eq_refl) as [_ Hfull].
  apply Hfull. reflexivity.
Defined.

Lemma table_2500_max (Payload : Type) (columns_of : nat -> Payload) :
  func_max (table_2500 columns_of) = Some 2500%Z.
Proof. vm_compute. reflexivity. Qed.

Lemma table_2500_range (Payload : Type) (columns_of : nat -> Payload) :
  range 0 (func_max (table_2500 columns_of)) 1000 = Ok [0; 1000; 2000]%Z.
Proof. rewrite table_2500_max. reflexivity. Qed.

Lemma table_2500_chunks (Payload : Type) (columns_of : nat -> Payload) :
  flat_map (fun i => query_all (table_2500 columns_of) i (i + 1000))
           [0; 1000; 2000]%Z
  = table_2500 columns_of.
Proof.
  change [0; 1000; 2000]%Z
    with (map (fun k => (0 + Z.of_nat k * 1000)%Z) (seq 0 3)).
  rewrite chunks_cover_prefix.
  - apply filter_all. intros r Hr. apply table_2500_ids in Hr.
    apply Z.ltb_lt. lia.
  - apply sorted_by_id_map_seq.
  - lia.
  - intros r Hr. apply table_2500_ids in Hr. lia.
Qed.

Lemma table_2500_measure (Payload : Type) (columns_of : nat -> Payload) :
  measure (TableReadThread (table_2500 columns_of) 1000) = 2515.
Proof.
  unfold measure, TableReadThread, chunks.
  cbn [thread queue consumer max_id chunksize map list_sum fold_right].
  rewrite table_2500_range, future_weight_length.
  unfold chunk_rows. cbn [table chunksize].
  rewrite table_2500_chunks.
  unfold table_2500. rewrite length_map, length_seq. reflexivity.
Qed.

(** The scenario of the specification on the reader thread and the
    consuming loop by themselves, as a caller that makes a
    [TableReadThread(table)] and iterates over it runs them.  The table
    of 2500 rows with ids 1..2500 in chunks of
    1000: the constructor has asked for the maximum id once; whatever the
    interleaving, the log stays a prefix of that query followed by the
    range queries [0,1000), [1000,2000), [2000,3000); the export keeps
    moving until the consumer leaves its loop, which it does within 2515
    steps; and then the log is exactly those four queries and the
    destination holds the 2500 rows of the source, row for row. *)
Theorem export_2500_rows_chunk_1000 (Payload : Type) (columns_of : nat -> Payload) :
  let tbl := table_2500 columns_of in
  let s0 := TableReadThread tbl 1000 in
  let plan := [QueryMaxId; QueryRange 0 1000; QueryRange 1000 2000;
               QueryRange 2000 3000] in
  queries s0 = [QueryMaxId] /\
  max_id s0 = Some 2500%Z /\
  (forall s, reachable s0 s ->
     (exists later, (queries s ++ later)%list = plan) /\
     ((exists s', step s s') \/
      (finished s /\ stuck s /\ queries s = plan /\
       dest s = tbl /\ List.length (dest s) = 2500))) /\
  (forall n s, steps n s0 s -> n <= 2515) /\
  (finished (run 2515 s0) /\ dest (run 2515 s0) = tbl).
Proof.
  cbv zeta.
  pose proof (table_2500_range _ columns_of) as Hr.
  pose proof (table_2500_chunks _ columns_of) as Hc.
  pose proof (table_2500_measure _ columns_of) as Hm.
  assert (Hlen : List.length (table_2500 columns_of) = 2500).
  { unfold table_2500. rewrite length_map, length_seq. reflexivity. }
  assert (Main : forall s,
     reachable (TableReadThread (table_2500 columns_of) 1000) s ->
     (exists later, (queries s ++ later)%list =
        [QueryMaxId; QueryRange 0 1000; QueryRange 1000 2000;
         QueryRange 2000 3000]) /\
     ((exists s', step s s') \/
      (finished s /\ stuck s /\
       queries s = [QueryMaxId; QueryRange 0 1000; QueryRange 1000 2000;
                    QueryRange 2000 3000] /\
       dest s = table_2500 columns_of /\ List.length (dest s) = 2500))).
  { intros s R. split.
    - destruct (export_prefix _ _ _ _ Hr s R) as [[later E] _]. exists later. exact E.
    - destruct (export_complete _ _ _ _ Hr s R) as [St | (F & Sk & D & Q)]; [now left|].
      right. rewrite Hc in D.
      repeat split; try apply Sk; auto. now rewrite D. }
  split; [reflexivity|].
  split; [apply table_2500_max|].
  split; [exact Main|].
  split.
  - intros n s H. apply steps_measure in H. lia.
  - assert (Sk : stuck (run 2515 (TableReadThread (table_2500 columns_of) 1000))).
    { apply run_stuck. lia. }
    destruct (Main _ (run_reachable _ 2515 _)) as [_ [St | (F & _ & _ & D & _)]].
    + exfalso. exact (stuck_no_step _ _ Sk St).
    + auto.
Qed.

(** The scenario for rows without other columns, at the state the
    producer-first scheduler ends in. *)
Lemma export_2500_rows_chunk_1000_witness :
  let tbl := table_2500 (fun _ => tt) in
  let s := run 2515 (TableReadThread tbl 1000) in
  reachable (TableReadThread tbl 1000) s /\ finished s /\ dest s = tbl.
Proof.
  intros tbl s.
  split; [apply run_reachable|].
  exact (proj2 (proj2 (proj2 (proj2
           (export_2500_rows_chunk_1000 unit (fun _ => tt)))))).
Defined.

End ExporterTheorems.

Module ChunkFacts.
Import Exporter ExporterFacts.

(** [range(0, M, c)] when [c] divides [M]: the multiples of [c] below [M],
    the last one being [M - c]. *)
Lemma range_length_multiple (c M : Z) :
  (0 < c)%Z -> (0 < M)%Z -> (M mod c = 0)%Z ->
  range_length 0 M c = (M / c)%Z /\ (1 <= M / c)%Z.
Proof.
  intros Hc HM Hmod. unfold range_length.
  destruct (Z.ltb_spec 0 c); [|lia]. destruct (Z.ltb_spec 0 M); [|lia].
  assert (E : M = (c * (M / c))%Z) by (apply Z_div_exact_2; lia).
  assert (K : (1 <= M / c)%Z).
  { destruct (Z_le_gt_dec 1 (M / c)); auto. nia. }
  split; auto.
  assert (D : ((M - 0 - 1) / c = M / c - 1)%Z).
  { symmetry. apply Z.div_unique with (r := (c - 1)%Z); [left; lia | nia]. }
  rewrite D. lia.
Qed.

Lemma py_range_multiple (c M : Z) :
  (0 < c)%Z -> (0 < M)%Z -> (M mod c = 0)%Z ->
  exists l,
    py_range 0 M c = (l ++ [(M - c)%Z])%list /\
    forall i, In i (l ++ [(M - c)%Z])%list -> (0 <= i /\ i + c <= M)%Z.
Proof.
  intros Hc HM Hmod.
  destruct (range_length_multiple c M Hc HM Hmod) as [E K].
  assert (EM : M = (c * (M / c))%Z) by (apply Z_div_exact_2; lia).
  unfold py_range. rewrite E.
  destruct (Z.to_nat (M / c)) as [|k] eqn:N; [lia|].
  assert (Hk : (Z.of_nat k = M / c - 1)%Z) by lia.
  rewrite seq_S, map_app. cbn [map Nat.add].
  replace (0 + Z.of_nat k * c)%Z with (M - c)%Z by nia.
  eexists. split; [reflexivity|].
  intros i Hi. apply in_app_or in Hi. destruct Hi as [Hi|[<-|[]]]; [|nia].
  apply in_map_iff in Hi. destruct Hi as (j & <- & Hj). apply in_seq in Hj. nia.
Qed.

Lemma In_query_all {Payload} (tbl : list (Row Payload)) lo hi r :
  In r (query_all tbl lo hi) <-> In r tbl /\ (lo <= id r < hi)%Z.
Proof.
  unfold query_all. rewrite filter_In, andb_true_iff, Z.leb_le, Z.ltb_lt. tauto.
Qed.

Lemma range_length_nonneg (start stop step : Z) :
  (0 <= range_length start stop step)%Z.
Proof.
  unfold range_length.
  destruct (Z.ltb_spec 0 step).
  - destruct (Z.ltb_spec start stop); [|lia].
    assert (0 <= (stop - start - 1) / step)%Z by (apply Z.div_pos; lia). lia.
  - destruct (Z.ltb_spec stop start); [|lia].
    destruct (Z.eq_dec step 0) as [->|].
    + simpl. rewrite Z.div_0_r. lia.
    + assert (0 <= (start - stop - 1) / - step)%Z by (apply Z.div_pos; lia). lia.
Qed.

(** The chunks reach up to the maximum id, and beyond it unless the chunk
    size divides it. *)
Lemma range_length_covers (c M : Z) :
  (0 < c)%Z -> (0 < M)%Z ->
  (M <= range_length 0 M c * c)%Z /\
  ((M mod c <> 0)%Z -> (M < range_length 0 M c * c)%Z).
Proof.
  intros Hc HM. unfold range_length.
  destruct (Z.ltb_spec 0 c); [|lia]. destruct (Z.ltb_spec 0 M); [|lia].
  replace (M - 0 - 1)%Z with (M - 1)%Z by lia.
  pose proof (Z.div_mod (M - 1) c ltac:(lia)) as D.
  pose proof (Z.mod_pos_bound (M - 1) c Hc) as B.
  split; [nia|].
  intros Hmod.
  destruct (Z.eq_dec ((M - 1) mod c) (c - 1)) as [E|E]; [|nia].
  exfalso. apply Hmod.
  replace M with (0 + ((M - 1) / c + 1) * c)%Z by nia.
  rewrite Z.mod_add by lia. apply Z.mod_0_l. lia.
Qed.

(** A table stored in id order, with ids from 0 up: once the consumer has
    left its loop the destination holds the rows below the end of the last
    chunk, in the order of the table; that is the whole table unless the
    chunk size divides the maximum id. *)
Lemma export_sorted_table {Payload} (tbl : list (Row Payload)) (c M : Z) s :
  sorted_by_id tbl -> (forall r, In r tbl -> (0 <= id r)%Z) ->
  func_max tbl = Some M -> (0 < c)%Z ->
  reachable (TableReadThread tbl c) s -> finished s ->
  dest s = filter (fun r => (id r <? range_length 0 M c * c)%Z) tbl /\
  ((0 < M)%Z -> (M mod c <> 0)%Z -> dest s = tbl).
Proof.
  intros Hs Hpos Hmax Hc R F.
  assert (Hr : range 0 (func_max tbl) c = Ok (py_range 0 M c)).
  { rewrite Hmax. unfold range. destruct (Z.eqb_spec c 0); [lia | reflexivity]. }
  destruct (start_invariants _ _ _ _ Hr s R) as (S & _ & E & _).
  destruct (finished_all_delivered _ s S F) as (_ & D & _).
  rewrite D in E. unfold py_range in E.
  rewrite chunks_cover_prefix in E by assumption.
  rewrite Z2Nat.id in E by apply range_length_nonneg.
  split; [exact E|].
  intros HM Hmod. rewrite E. apply filter_all.
  intros r Hr'. apply Z.ltb_lt.
  destruct (func_max_spec _ tbl M Hmax) as [_ Hle].
  specialize (Hle r Hr').
  destruct (range_length_covers c M Hc HM) as [_ Hlt].
  specialize (Hlt Hmod). lia.
Qed.

End ChunkFacts.

Module ChunkTheorems.
Import Exporter ExporterFacts ChunkFacts.

(** C5.  When the maximum id [M] of the table is a positive multiple of the
    chunk size [c], the loop runs over the multiples of [c] below [M], the
    last chunk being [M - c]; every range query stops at or before [M]; no
    row with id [M] is ever yielded; and when the consumer has left its
    loop, the last query was for [M - c <= id < M] and the destination
    lacks the row with id [M] that the table holds. *)
Theorem max_id_row_never_yielded (Payload : Type) (tbl : list (Row Payload))
    (c M : Z) :
  func_max tbl = Some M ->
  (0 < c)%Z -> (0 < M)%Z -> (M mod c = 0)%Z ->
  (exists l,
     range 0 (func_max tbl) c = Ok (l ++ [(M - c)%Z])%list /\
     forall i, In i (l ++ [(M - c)%Z])%list -> (0 <= i /\ i + c <= M)%Z) /\
  (forall s, reachable (TableReadThread tbl c) s ->
     (forall r, In r (dest s) -> (id r < M)%Z) /\
     (forall lo hi, In (QueryRange lo hi) (queries s) -> (hi <= M)%Z)) /\
  (forall s, reachable (TableReadThread tbl c) s -> finished s ->
     last (queries s) QueryMaxId = QueryRange (M - c) M /\
     exists r, In r tbl /\ id r = M /\ ~ In r (dest s)).
Proof.
  intros Hmax Hc HM Hmod.
  destruct (py_range_multiple c M Hc HM Hmod) as (l & El & Hl).
  assert (Hr : range 0 (func_max tbl) c = Ok (l ++ [(M - c)%Z])%list).
  { rewrite Hmax. unfold range. destruct (Z.eqb_spec c 0); [lia|]. now rewrite El. }
  assert (Hdest : forall s, reachable (TableReadThread tbl c) s ->
                  forall r, In r (dest s) -> (id r < M)%Z).
  { intros s R r Hin.
    destruct (export_prefix _ _ _ _ Hr s R) as [_ [later E]].
    assert (Hin' : In r (dest s ++ later)) by (apply in_or_app; now left).
    rewrite E in Hin'. apply in_flat_map in Hin'.
    destruct Hin' as (i & Hi & Hq). apply In_query_all in Hq.
    specialize (Hl i Hi). lia. }
  split; [eauto|]. split.
  - intros s R. split; [now apply Hdest|].
    intros lo hi Hin.
    destruct (export_prefix _ _ _ _ Hr s R) as [[later E] _].
    assert (Hin' : In (QueryRange lo hi) (queries s ++ later))
      by (apply in_or_app; now left).
    rewrite E in Hin'. destruct Hin' as [Hin'|Hin']; [discriminate|].
    apply in_map_iff in Hin'. destruct Hin' as (i & Ei & Hi).
    inversion Ei as [[E1 E2]]. specialize (Hl i Hi). lia.
  - intros s R F.
    destruct (start_invariants _ _ _ _ Hr s R) as (S & _ & _ & Q).
    destruct (finished_all_delivered _ s S F) as (_ & _ & Q').
    rewrite Q' in Q. split.
    + rewrite Q, map_app. cbn [map]. rewrite app_comm_cons, last_last.
      f_equal. lia.
    + destruct (func_max_spec _ tbl M Hmax) as [(r & Hr1 & Hr2) _].
      exists r. repeat split; auto.
      intros Hin. specialize (Hdest s R r Hin). lia.
Qed.

(** C5 on the three rows 1, 2, 3 read in chunks of 3. *)
Lemma max_id_row_never_yielded_witness :
  let tbl := map (fun i => {| id := Z.of_nat i; columns := tt |}) (seq 1 3) in
  let s := run 20 (TableReadThread tbl 3) in
  finished s /\
  last (queries s) QueryMaxId = QueryRange 0 3 /\
  dest s = [{| id := 1; columns := tt |}; {| id := 2; columns := tt |}].
Proof.
  intros tbl s.
  assert (F : finished s) by reflexivity.
  split; [exact F|].
  split; [|reflexivity].
  assert (R : reachable (TableReadThread tbl 3) s) by apply run_reachable.
  assert (Hmax : func_max tbl = Some 3%Z) by reflexivity.
  destruct (max_id_row_never_yielded unit tbl 3 3 Hmax) as (_ & _ & H);
    [lia | lia | reflexivity |].
  exact (proj1 (H s R F)).
Defined.

(** C10.  On an empty table the constructor stores None as maximum id and
    returns normally; the first step of [run] ends the thread by the
    TypeError of [range]; in every reachable state the queue is empty, no
    range query was made, nothing was yielded and the consumer is blocked
    at [get], so it never leaves its loop; once the thread has crashed
    nothing moves any more. *)
Theorem empty_table_consumer_never_finishes (Payload : Type) (chunk : Z) :
  let s0 := TableReadThread (@nil (Row Payload)) chunk in
  max_id s0 = None /\
  (exists e s1,
     producer_step s0 = Some s1 /\ thread s1 = PCrashed e /\
     range 0 (max_id s0) chunk = Raise e /\ queue s1 = []) /\
  (forall s, reachable s0 s ->
     queue s = [] /\ consumer s = CGet /\ dest s = [] /\
     queries s = [QueryMaxId] /\
     ~ finished s /\ consumer_step s = None /\
     (thread s = PStart \/ ((exists e, thread s = PCrashed e) /\ stuck s))).
Proof.
  cbv zeta. split; [reflexivity|]. split.
  - eexists. eexists. repeat split.
  - intros s R.
    assert (Inv : queue s = [] /\ consumer s = CGet /\ dest s = [] /\
                  queries s = [QueryMaxId] /\ max_id s = None /\
                  (thread s = PStart \/ exists e, thread s = PCrashed e)).
    { revert s R. apply reachable_ind'.
      - repeat split; auto.
      - intros s s' St (Q & C & D & L & Mx & T).
        step_inv St; cbn [thread queue consumer dest queries max_id] in *;
          subst; try discriminate; try (destruct T as [T|[e T]]; discriminate).
        repeat split; auto. right. cbn [range]. eauto. }
    destruct Inv as (Q & C & D & L & Mx & T).
    assert (CS : consumer_step s = None).
    { unfold consumer_step. now rewrite C, Q. }
    repeat split; auto.
    + unfold finished. congruence.
    + destruct T as [T|[e T]]; [now left|]. right. split; eauto.
      split; auto. unfold producer_step. now rewrite T.
Qed.

(** C10 at the state the thread leaves behind. *)
Lemma empty_table_consumer_never_finishes_witness :
  let s0 := TableReadThread (@nil (Row unit)) 1000 in
  reachable s0 (run 5 s0) /\ stuck (run 5 s0) /\ ~ finished (run 5 s0).
Proof.
  intros s0.
  assert (R : reachable s0 (run 5 s0)) by apply run_reachable.
  split; [exact R|].
  destruct (empty_table_consumer_never_finishes unit 1000) as (_ & _ & H).
  destruct (H _ R) as (_ & _ & _ & _ & NF & _ & T).
  split; [|exact NF].
  destruct T as [T|[_ T]]; [discriminate T | exact T].
Defined.

End ChunkTheorems.

(* ===================================================================== *)
(** ** Readiness and invalidation                                        *)
(* ===================================================================== *)
Module CollectFacts.

Lemma collect_keys {V} (cs : list (option (string * V))) (d : OrderedDict.t V) k :
  In k (OrderedDict.keys (OrderedDict.collect cs d)) <->
  In k (OrderedDict.keys d) \/ exists v, In (Some (k, v)) cs.
Proof.
  unfold OrderedDict.collect. revert d.
  induction cs as [|[[k0 v0]|] cs IH]; intros d; simpl.
  - split; [auto | intros [H|[v []]]; auto].
  - rewrite IH, od_keys_set. split.
    + intros [[->|H]|[v H]]; eauto.
    + intros [H|[v [H|H]]]; eauto. inversion H; subst. auto.
  - rewrite IH. split.
    + intros [H|[v H]]; eauto.
    + intros [H|[v [H|H]]]; eauto. discriminate.
Qed.

Lemma collect_get_Some {V} (cs : list (option (string * V))) (d : OrderedDict.t V) k v :
  OrderedDict.get (OrderedDict.collect cs d) k = Some v ->
  In (Some (k, v)) cs \/ OrderedDict.get d k = Some v.
Proof.
  unfold OrderedDict.collect. revert d.
  induction cs as [|[[k0 v0]|] cs IH]; intros d; simpl; auto.
  - intros H. destruct (IH _ H) as [H'|H']; auto.
    destruct (String.eqb_spec k0 k) as [->|Hne].
    + rewrite od_get_set_eq in H'. inversion H'; subst. auto.
    + rewrite od_get_set_neq in H' by assumption. auto.
  - intros H. destruct (IH _ H); auto.
Qed.

Lemma collect_get_unique {V} (cs : list (option (string * V))) (d : OrderedDict.t V) k v :
  OrderedDict.get d k = Some v \/ In (Some (k, v)) cs ->
  (forall v', In (Some (k, v')) cs -> v' = v) ->
  OrderedDict.get (OrderedDict.collect cs d) k = Some v.
Proof.
  unfold OrderedDict.collect. revert d.
  induction cs as [|[[k0 v0]|] cs IH]; intros d H U; simpl.
  - destruct H as [H|[]]. exact H.
  - apply IH; [|intros v' Hv'; apply U; now right].
    destruct (String.eqb_spec k0 k) as [->|Hne].
    + left. rewrite (U v0 (or_introl eq_refl)). apply od_get_set_eq.
    + rewrite od_get_set_neq by assumption.
      destruct H as [H|[H|H]]; auto. inversion H; subst. contradiction.
  - apply IH; [|intros v' Hv'; apply U; now right].
    destruct H as [H|[H|H]]; auto. discriminate.
Qed.

Lemma collect_app {V} (cs1 cs2 : list (option (string * V))) (d : OrderedDict.t V) :
  OrderedDict.collect (cs1 ++ cs2) d =
  OrderedDict.collect cs2 (OrderedDict.collect cs1 d).
Proof. unfold OrderedDict.collect. apply fold_left_app. Qed.

End CollectFacts.

Module MultipatchFacts.
Import Pipeline Pipeline.Multipatch CollectFacts.

Lemma py_max_Ok a b v :
  py_max a b = Ok v <-> exists x y, a = Some x /\ b = Some y /\ v = Z.max x y.
Proof.
  unfold py_max. destruct a as [x|], b as [y|]; split;
    try discriminate; try (intros (x' & y' & H1 & H2 & _); discriminate).
  - intros H. inversion H. eauto.
  - intros (x' & y' & H1 & H2 & ->). inversion H1; inversion H2; reflexivity.
Qed.

Section Sources.
Variable glob_pipettes : string -> list string.
Variable dirname : string -> string.
Variable Experiment : string -> res Expt.
Variable finished_slices : OrderedDict.t JobRecord.

Local Abbreviation inspect := (inspect Experiment finished_slices).
Local Abbreviation assignment := (assignment Experiment finished_slices).
Local Abbreviation contribution := (contribution Experiment finished_slices).
Local Abbreviation late_failure := (late_failure Experiment finished_slices).
Local Abbreviation failed := (failed Experiment finished_slices).
Local Abbreviation ready_jobs_body := (ready_jobs_body dirname Experiment finished_slices).
Local Abbreviation scan := (scan dirname Experiment finished_slices).
Local Abbreviation ymls := (ymls glob_pipettes).

Lemma inspect_Ok site_path expt raw mt succ :
  inspect site_path = Ok (expt, raw, mt, succ) <->
  Experiment site_path = Ok expt /\
  last_modification_time expt = Ok raw /\
  exists slice_ts, slice_timestamp expt = Ok slice_ts /\
                   OrderedDict.get finished_slices slice_ts = Some (mt, succ).
Proof.
  unfold Multipatch.inspect, unpack.
  destruct (Experiment site_path) as [e|]; simpl; [|split; [discriminate | intros [H _]; discriminate]].
  destruct (last_modification_time e) as [r|] eqn:L; simpl.
  2: { split; [discriminate|]. intros (H & H' & _). inversion H; subst. congruence. }
  destruct (slice_timestamp e) as [ts|] eqn:T; simpl.
  2: { split; [discriminate|]. intros (H & _ & ts & H' & _). inversion H; subst. congruence. }
  destruct (OrderedDict.get finished_slices ts) as [[m b]|] eqn:G; simpl.
  - split.
    + intros H. inversion H; subst. eauto 6.
    + intros (H & H' & ts' & H'' & G'). inversion H; subst.
      rewrite L in H'. inversion H'; subst. rewrite T in H''. inversion H''; subst.
      rewrite G in G'. inversion G'; subst. reflexivity.
  - split; [discriminate|].
    intros (H & _ & ts' & H'' & G'). inversion H; subst.
    rewrite T in H''. inversion H''; subst. congruence.
Qed.

Lemma assign_Ok expt raw t j v :
  assign expt raw t = Ok (j, v) <->
  exists r, raw = Some r /\ timestamp expt = Ok j /\ v = Z.max r t.
Proof.
  unfold assign. destruct raw as [r|]; cbn [py_max res_bind].
  - destruct (timestamp expt) as [j'|e]; split.
    + intros H. inversion H. eauto.
    + intros (r' & H1 & H2 & ->). inversion H1; inversion H2. reflexivity.
    + discriminate.
    + intros (r' & _ & H & _). discriminate.
  - split; [discriminate | intros (r & H & _); discriminate].
Qed.

(** When the statement after the [try] block raises, the right-hand side
    raised, or it did not and the key did. *)
Lemma assign_Raise expt raw t e :
  assign expt raw t = Raise e <->
  py_max raw (Some t) = Raise e \/
  (exists v, py_max raw (Some t) = Ok v) /\ timestamp expt = Raise e.
Proof.
  unfold assign. destruct (py_max raw (Some t)) as [v|e']; cbn [res_bind].
  - destruct (timestamp expt) as [j|e'']; split.
    + discriminate.
    + intros [H|[_ H]]; discriminate.
    + intros H. inversion H. right. eauto.
    + intros [H|[_ H]]; [discriminate | now inversion H].
  - split.
    + intros H. inversion H. now left.
    + intros [H|[[v H] _]]; [now inversion H | discriminate].
Qed.

Lemma contribution_Some site_path j v :
  contribution site_path = Some (j, v) <->
  exists expt raw t,
    inspect site_path = Ok (expt, Some raw, Some t, true) /\
    timestamp expt = Ok j /\ v = Z.max raw t.
Proof.
  unfold Multipatch.contribution, Multipatch.assignment.
  destruct (inspect site_path) as [[[[expt raw] [t|]] [|]]|e].
  - destruct (assign expt raw t) as [[j' v']|e] eqn:A; cbn [res_bind].
    + apply assign_Ok in A. destruct A as (r & -> & Hj & ->). split.
      * intros H. inversion H; subst. eauto 6.
      * intros (expt' & raw' & t' & H & Hj' & ->). inversion H; subst.
        rewrite Hj in Hj'. inversion Hj'. reflexivity.
    + split; [discriminate|].
      intros (expt' & raw' & t' & H & Hj' & ->). inversion H; subst.
      assert (A' : assign expt' (Some raw') t' = Ok (j, Z.max raw' t'))
        by (apply assign_Ok; eauto).
      congruence.
  - split; [discriminate | intros (? & ? & ? & H & _); discriminate].
  - split; [discriminate | intros (? & ? & ? & H & _); discriminate].
  - split; [discriminate | intros (? & ? & ? & H & _); discriminate].
  - split; [discriminate | intros (? & ? & ? & H & _); discriminate].
Qed.

Lemma late_failure_Some site_path e :
  late_failure site_path = Some e <->
  exists expt raw t,
    inspect site_path = Ok (expt, raw, Some t, true) /\
    assign expt raw t = Raise e.
Proof.
  unfold Multipatch.late_failure, Multipatch.assignment.
  destruct (inspect site_path) as [[[[expt raw] [t|]] [|]]|e'].
  - destruct (assign expt raw t) as [jv|e''] eqn:A; cbn [res_bind]; split.
    + discriminate.
    + intros (? & ? & ? & H & A'). inversion H; subst. congruence.
    + intros H. inversion H; subst. eauto 6.
    + intros (? & ? & ? & H & A'). inversion H; subst. congruence.
  - split; [discriminate | intros (? & ? & ? & H & _); discriminate].
  - split; [discriminate | intros (? & ? & ? & H & _); discriminate].
  - split; [discriminate | intros (? & ? & ? & H & _); discriminate].
  - split; [discriminate | intros (? & ? & ? & H & _); discriminate].
Qed.

(** A candidate whose inspection raises reaches no assignment. *)
Lemma inspect_Raise site_path e :
  inspect site_path = Raise e ->
  contribution site_path = None /\ late_failure site_path = None /\
  failed site_path = true.
Proof.
  intros H. unfold Multipatch.contribution, Multipatch.late_failure,
    Multipatch.assignment, Multipatch.failed. rewrite H. auto.
Qed.

(** One turn of the loop: the exception raised after the [try] block, or
    the assignment to [ready] and the count of errors. *)
Lemma ready_jobs_body_eq d n y :
  ready_jobs_body (d, n) y =
  match late_failure (dirname y) with
  | Some e => Raise e
  | None =>
      Ok (OrderedDict.collect [contribution (dirname y)] d,
          n + (if failed (dirname y) then 1 else 0))
  end.
Proof.
  unfold Multipatch.ready_jobs_body, Multipatch.contribution,
    Multipatch.late_failure, Multipatch.assignment, Multipatch.failed.
  destruct (inspect (dirname y)) as [[[[expt raw] [t|]] [|]]|e];
    cbn [negb OrderedDict.collect fold_left].
  - destruct (assign expt raw t) as [[j v]|e]; cbn [res_bind]; [|reflexivity].
    now rewrite Nat.add_0_r.
  - now rewrite Nat.add_0_r.
  - now rewrite Nat.add_0_r.
  - now rewrite Nat.add_0_r.
  - now rewrite Nat.add_1_r.
Qed.

(** While no statement after the [try] block raises, the loop is a fold of
    the assignments to [ready] and a count of the inspections that
    raised. *)
Lemma for_each_ready_jobs_body l d n :
  (forall y, In y l -> late_failure (dirname y) = None) ->
  for_each l ready_jobs_body (d, n) =
  Ok (OrderedDict.collect (map (fun y => contribution (dirname y)) l) d,
      n + List.length (filter (fun y => failed (dirname y)) l)).
Proof.
  revert d n. induction l as [|y l IH]; intros d n H.
  - simpl. now rewrite Nat.add_0_r.
  - cbn [for_each map filter]. rewrite ready_jobs_body_eq.
    rewrite (H y (or_introl eq_refl)). cbn [res_bind].
    rewrite IH by (intros y' Hy'; apply H; now right).
    unfold OrderedDict.collect. cbn [fold_left].
    destruct (failed (dirname y)); cbn [List.length]; f_equal; f_equal; lia.
Qed.

(** The first statement after a [try] block that raises ends the loop. *)
Lemma for_each_late_failure l1 y l2 d n e :
  (forall y', In y' l1 -> late_failure (dirname y') = None) ->
  late_failure (dirname y) = Some e ->
  for_each (l1 ++ y :: l2) ready_jobs_body (d, n) = Raise e.
Proof.
  revert d n. induction l1 as [|y1 l1 IH]; intros d n H He.
  - cbn [app for_each]. rewrite ready_jobs_body_eq, He. reflexivity.
  - cbn [app for_each]. rewrite ready_jobs_body_eq.
    rewrite (H y1 (or_introl eq_refl)). cbn [res_bind].
    apply IH; [|exact He]. intros y' Hy'. apply H. now right.
Qed.

Lemma scan_eq l :
  (forall y, In y l -> late_failure (dirname y) = None) ->
  scan l =
  Ok (OrderedDict.collect (map (fun y => contribution (dirname y)) l) OrderedDict.empty,
      List.length (filter (fun y => failed (dirname y)) l)).
Proof. intros H. unfold Multipatch.scan. now rewrite for_each_ready_jobs_body. Qed.

End Sources.
End MultipatchFacts.

Module OptoFacts.
Import Pipeline Pipeline.Opto CollectFacts.

Section Sources.
Variable Ts : Type.
Variable zero : Ts.
Variable format_3f : Ts -> string.
Variable config_connections_dir : string.
Variable config_synphys_data : string.
Variable os_path_join : string -> string -> string.
Variable os_path_exists : string -> bool.
Variable lower : string -> string.
Variable slice_path_of : string -> res string.
Variable AI_Experiment : Source -> CsvRow -> res (OptoExpt Ts).
Variable finished_slices : OrderedDict.t JobRecord.
Variable slice_paths : list string.

Local Abbreviation check :=
  (check Ts zero format_3f config_connections_dir config_synphys_data os_path_join
         os_path_exists lower slice_path_of AI_Experiment finished_slices slice_paths).
Local Abbreviation ready_jobs_body :=
  (ready_jobs_body Ts zero format_3f config_connections_dir config_synphys_data
         os_path_join os_path_exists lower slice_path_of AI_Experiment
         finished_slices slice_paths).
Local Abbreviation ready_jobs_scan :=
  (ready_jobs_scan Ts zero format_3f config_connections_dir config_synphys_data
         os_path_join os_path_exists lower slice_path_of AI_Experiment
         finished_slices slice_paths).
Local Abbreviation assignment :=
  (assignment Ts zero format_3f config_connections_dir config_synphys_data
         os_path_join os_path_exists lower slice_path_of AI_Experiment
         finished_slices slice_paths).
Local Abbreviation ready_entry :=
  (ready_entry Ts zero format_3f config_connections_dir config_synphys_data
         os_path_join os_path_exists lower slice_path_of AI_Experiment
         finished_slices slice_paths).
Local Abbreviation late_failure :=
  (late_failure Ts zero format_3f config_connections_dir config_synphys_data
         os_path_join os_path_exists lower slice_path_of AI_Experiment
         finished_slices slice_paths).
Local Abbreviation error_entry :=
  (error_entry Ts zero format_3f config_connections_dir config_synphys_data
         os_path_join os_path_exists lower slice_path_of AI_Experiment
         finished_slices slice_paths).
Local Abbreviation no_slice_entry :=
  (no_slice_entry Ts zero format_3f config_connections_dir config_synphys_data
         os_path_join os_path_exists lower slice_path_of AI_Experiment
         finished_slices slice_paths).
Local Abbreviation with_cd := (with_connections_dir config_connections_dir).

Lemma opto_assign_Ok (ex : OptoExpt Ts) src raw t j entry :
  assign Ts ex src raw t = Ok (j, entry) <->
  exists r, raw = Some r /\ o_ext_id ex = Ok j /\
            entry = {| dep_time := Z.max r t; meta_source := src |}.
Proof.
  unfold assign. destruct raw as [r|]; cbn [py_max res_bind].
  - destruct (o_ext_id ex) as [j'|e]; split.
    + intros H. inversion H. eauto.
    + intros (r' & H1 & H2 & ->). inversion H1; inversion H2. reflexivity.
    + discriminate.
    + intros (r' & _ & H & _). discriminate.
  - split; [discriminate | intros (r & H & _); discriminate].
Qed.

Lemma opto_assign_Raise (ex : OptoExpt Ts) src raw t e :
  assign Ts ex src raw t = Raise e <->
  py_max raw (Some t) = Raise e \/
  (exists v, py_max raw (Some t) = Ok v) /\ o_ext_id ex = Raise e.
Proof.
  unfold assign. destruct (py_max raw (Some t)) as [v|e']; cbn [res_bind].
  - destruct (o_ext_id ex) as [j|e'']; split.
    + discriminate.
    + intros [H|[_ H]]; discriminate.
    + intros H. inversion H. right. eauto.
    + intros [H|[_ H]]; [discriminate | now inversion H].
  - split.
    + intros H. inversion H. now left.
    + intros [H|[[v H] _]]; [now inversion H | discriminate].
Qed.

(** One turn of the loop: the exception raised after the [try] block, or
    what the candidate adds to the three locals. *)
Lemma opto_ready_jobs_body_eq (st : Locals) y :
  ready_jobs_body st y =
  match late_failure y with
  | Some e => Raise e
  | None =>
      Ok {| ready := OrderedDict.collect [ready_entry y] (ready st);
            n_errors := OrderedDict.collect [error_entry y] (n_errors st);
            n_no_slice := (n_no_slice st ++ no_slice_entry y)%list |}
  end.
Proof.
  unfold Opto.ready_jobs_body, Opto.ready_entry, Opto.late_failure,
    Opto.assignment, Opto.error_entry, Opto.no_slice_entry.
  destruct (check (with_cd y)) as [[cnx| |ex src raw [t|] succ]|e];
    try destruct (is_False succ);
    try (destruct (assign Ts ex src raw t) as [[j entry]|e']);
    cbn [res_bind OrderedDict.collect fold_left experiment with_connections_dir];
    rewrite ?app_nil_r; try reflexivity; destruct st; reflexivity.
Qed.

(** While no statement after the [try] block raises, the loop is a fold of
    what each candidate adds. *)
Lemma for_each_opto_body l (st : Locals) :
  (forall y, In y l -> late_failure y = None) ->
  for_each l ready_jobs_body st =
  Ok {| ready := OrderedDict.collect (map ready_entry l) (ready st);
        n_errors := OrderedDict.collect (map error_entry l) (n_errors st);
        n_no_slice := (n_no_slice st ++ flat_map no_slice_entry l)%list |}.
Proof.
  revert st. induction l as [|y l IH]; intros st H.
  - simpl. rewrite app_nil_r. destruct st; reflexivity.
  - cbn [for_each map flat_map]. rewrite opto_ready_jobs_body_eq.
    rewrite (H y (or_introl eq_refl)). cbn [res_bind].
    rewrite IH by (intros y' Hy'; apply H; now right).
    cbn [ready n_errors n_no_slice]. unfold OrderedDict.collect. cbn [fold_left].
    now rewrite <- app_assoc.
Qed.

(** The first statement after a [try] block that raises ends the loop. *)
Lemma for_each_opto_late_failure l1 y l2 (st : Locals) e :
  (forall y', In y' l1 -> late_failure y' = None) ->
  late_failure y = Some e ->
  for_each (l1 ++ y :: l2) ready_jobs_body st = Raise e.
Proof.
  revert st. induction l1 as [|y1 l1 IH]; intros st H He.
  - cbn [app for_each]. rewrite opto_ready_jobs_body_eq, He. reflexivity.
  - cbn [app for_each]. rewrite opto_ready_jobs_body_eq.
    rewrite (H y1 (or_introl eq_refl)). cbn [res_bind].
    apply IH; [|exact He]. intros y' Hy'. apply H. now right.
Qed.

Lemma ready_jobs_scan_eq l :
  (forall y, In y l -> late_failure y = None) ->
  ready_jobs_scan l =
  Ok {| ready := OrderedDict.collect (map ready_entry l) OrderedDict.empty;
        n_errors := OrderedDict.collect (map error_entry l) OrderedDict.empty;
        n_no_slice := flat_map no_slice_entry l |}.
Proof. intros H. unfold Opto.ready_jobs_scan. now rewrite for_each_opto_body. Qed.

Lemma ready_entry_Some expt j :
  (exists v, ready_entry expt = Some (j, v)) <->
  exists ex source raw t succ,
    check (with_cd expt) = Ok (Inspected ex source (Some raw) (Some t) succ) /\
    succ <> Some false /\ o_ext_id ex = Ok j.
Proof.
  unfold Opto.ready_entry, Opto.assignment.
  destruct (check (with_cd expt)) as [[cnx| |ex src raw [t|] succ]|e].
  1, 2, 4, 5: split; [intros [v H]; discriminate
                     | intros (? & ? & ? & ? & ? & H & _); discriminate].
  assert (F : is_False succ = true <-> succ = Some false).
  { destruct succ as [[|]|]; cbn; split; congruence. }
  destruct (is_False succ) eqn:IsF.
  - split; [intros [v H]; discriminate|].
    intros (? & ? & ? & ? & ? & H & N & _). inversion H; subst.
    exfalso. apply N. now apply F.
  - assert (N : succ <> Some false).
    { intros E. apply F in E. congruence. }
    destruct (assign Ts ex src raw t) as [[j' entry]|e] eqn:A; cbn [res_bind].
    + apply opto_assign_Ok in A. destruct A as (r & -> & Hj & ->). split.
      * intros [v H]. inversion H; subst. exists ex, src, r, t, succ. auto.
      * intros (? & ? & ? & ? & ? & H & _ & Hj'). inversion H; subst.
        rewrite Hj in Hj'. inversion Hj'. eauto.
    + split; [intros [v H]; discriminate|].
      intros (ex' & src' & raw' & t' & succ' & H & _ & Hj'). inversion H; subst.
      assert (A' : assign Ts ex' src' (Some raw') t'
                   = Ok (j, {| dep_time := Z.max raw' t'; meta_source := src' |}))
        by (apply opto_assign_Ok; eauto).
      congruence.
Qed.

Lemma opto_late_failure_Some expt e :
  late_failure expt = Some e <->
  exists ex source raw t succ,
    check (with_cd expt) = Ok (Inspected ex source raw (Some t) succ) /\
    succ <> Some false /\ assign Ts ex source raw t = Raise e.
Proof.
  unfold Opto.late_failure, Opto.assignment.
  destruct (check (with_cd expt)) as [[cnx| |ex src raw [t|] succ]|e'].
  1, 2, 4, 5: split; [discriminate
                     | intros (? & ? & ? & ? & ? & H & _); discriminate].
  assert (F : is_False succ = true <-> succ = Some false).
  { destruct succ as [[|]|]; cbn; split; congruence. }
  destruct (is_False succ) eqn:IsF.
  - split; [discriminate|].
    intros (? & ? & ? & ? & ? & H & N & _). inversion H; subst.
    exfalso. apply N. now apply F.
  - assert (N : succ <> Some false).
    { intros E. apply F in E. congruence. }
    destruct (assign Ts ex src raw t) as [je|e''] eqn:A; cbn [res_bind]; split.
    + discriminate.
    + intros (? & ? & ? & ? & ? & H & _ & A'). inversion H; subst. congruence.
    + intros H. inversion H; subst. exists ex, src, raw, t, succ. auto.
    + intros (? & ? & ? & ? & ? & H & _ & A'). inversion H; subst. congruence.
Qed.

Lemma error_entry_Raise expt e :
  check (with_cd expt) = Raise e ->
  error_entry expt = Some (experiment expt, Caught e) /\
  ready_entry expt = None /\ no_slice_entry expt = [] /\
  late_failure expt = None.
Proof.
  intros H. unfold Opto.error_entry, Opto.ready_entry, Opto.no_slice_entry,
    Opto.late_failure, Opto.assignment.
  rewrite H. auto.
Qed.

End Sources.
End OptoFacts.

Module ReadinessTheorems.
Import Pipeline CollectFacts.

Section MultipatchSources.
Import Pipeline.Multipatch MultipatchFacts.
Variable glob_pipettes : string -> list string.
Variable dirname : string -> string.
Variable Experiment : string -> res Expt.
Variable finished_slices : OrderedDict.t JobRecord.

(** C2, as amended.  Where no two discovered sites share a job id, and no
    statement after the [try] block raises, [ready_jobs()] returns a
    mapping in which, for every site discovered under the storage path of
    a slice whose experiment object can be built and whose job id can be
    read, the job id has a value exactly when the modification time and
    the slice timestamp of the experiment can be read and the slice module
    has a success record for that slice timestamp; the value is then the
    maximum of the modification time of the raw data and the finished
    time of the slice record.  Every key of the mapping is the job id of
    such a site. *)
Theorem ready_jobs_iff_slice_success_and_loadable (db : DB) :
  job_ids_distinct glob_pipettes dirname Experiment db ->
  assignments_succeed glob_pipettes dirname Experiment finished_slices db ->
  exists ready,
    ready_jobs glob_pipettes dirname Experiment finished_slices db = Ok ready /\
    (forall site_path expt j,
       discovered glob_pipettes dirname db site_path ->
       Experiment site_path = Ok expt ->
       timestamp expt = Ok j ->
       forall v,
         OrderedDict.get ready j = Some v <->
         exists raw_data_mtime slice_ts finished_time,
           loadable expt raw_data_mtime slice_ts /\
           success_record finished_slices slice_ts finished_time /\
           v = Z.max raw_data_mtime finished_time) /\
    (forall j,
       In j (OrderedDict.keys ready) ->
       exists site_path expt,
         discovered glob_pipettes dirname db site_path /\
         Experiment site_path = Ok expt /\ timestamp expt = Ok j).
Proof.
  intros Distinct Safe.
  unfold ready_jobs, ready_jobs_scan.
  rewrite (scan_eq dirname Experiment finished_slices _ Safe). cbn [res_bind fst].
  eexists. split; [reflexivity|]. split.
  - intros site expt j Hd He Hj v. split.
    + intros G. apply collect_get_Some in G. destruct G as [G|G]; [|discriminate G].
      apply in_map_iff in G. destruct G as (y & Hc & Hy).
      apply contribution_Some in Hc. destruct Hc as (expt' & raw & t & Hi & Ht & Hv).
      apply inspect_Ok in Hi. destruct Hi as (He' & Hl & ts & Hts & Hg).
      assert (Hsite : dirname y = site).
      { apply (Distinct (dirname y) site expt' expt j); auto.
        unfold discovered. now apply in_map. }
      rewrite Hsite, He in He'. inversion He'; subst expt'.
      exists raw, ts, t. repeat split; auto.
    + intros (raw & ts & t & [Hl Hts] & Hs & ->).
      unfold success_record in Hs.
      apply collect_get_unique.
      * right. unfold discovered in Hd. apply in_map_iff in Hd.
        destruct Hd as (y & <- & Hy). apply in_map_iff. exists y. split; auto.
        apply contribution_Some. exists expt, raw, t.
        repeat split; auto. apply inspect_Ok. eauto.
      * intros v' Hin. apply in_map_iff in Hin. destruct Hin as (y & Hc & Hy).
        apply contribution_Some in Hc.
        destruct Hc as (expt' & raw' & t' & Hi & Ht & ->).
        apply inspect_Ok in Hi. destruct Hi as (He' & Hl' & ts' & Hts' & Hg').
        assert (Hsite : dirname y = site).
        { apply (Distinct (dirname y) site expt' expt j); auto.
          unfold discovered. now apply in_map. }
        rewrite Hsite, He in He'. inversion He'; subst expt'.
        rewrite Hl in Hl'. inversion Hl'; subst raw'.
        rewrite Hts in Hts'. inversion Hts'; subst ts'.
        rewrite Hs in Hg'. inversion Hg'; subst t'. reflexivity.
  - intros j Hj. apply collect_keys in Hj. destruct Hj as [[]|[v Hin]].
    apply in_map_iff in Hin. destruct Hin as (y & Hc & Hy).
    apply contribution_Some in Hc. destruct Hc as (expt & raw & t & Hi & Ht & _).
    apply inspect_Ok in Hi. destruct Hi as (He & _).
    exists (dirname y), expt. repeat split; auto.
    unfold discovered. now apply in_map.
Qed.

(** X22.  The loop of the multipatch [ready_jobs] and the exceptions of
    its candidates.  While no statement after the [try] block raises, the
    loop returns: the errors counted are the candidates whose inspection
    raised, the keys of the mapping are the job ids of the candidates
    whose inspection succeeded with a slice record that is there and not
    failed, and a candidate whose inspection raises changes nothing but
    the count.  An exception raised by the statement after the [try]
    block, by [max] or by reading the job id, is not caught: the first
    one ends the loop and leaves [ready_jobs]. *)
Theorem multipatch_failures_inside_and_after_try (l : list string) :
  ((forall y, In y l ->
      late_failure Experiment finished_slices (dirname y) = None) ->
   exists ready n,
     scan dirname Experiment finished_slices l = Ok (ready, n) /\
     n = List.length
           (filter (fun y => failed Experiment finished_slices (dirname y)) l) /\
     (forall j,
        In j (OrderedDict.keys ready) <->
        exists y expt raw t,
          In y l /\
          inspect Experiment finished_slices (dirname y)
            = Ok (expt, Some raw, Some t, true) /\
          timestamp expt = Ok j) /\
     (forall l1 bad l2 e,
        l = (l1 ++ bad :: l2)%list ->
        inspect Experiment finished_slices (dirname bad) = Raise e ->
        exists n',
          n = S n' /\
          scan dirname Experiment finished_slices (l1 ++ l2) = Ok (ready, n')))
  /\
  (forall l1 y l2 expt raw t e,
     l = (l1 ++ y :: l2)%list ->
     (forall y', In y' l1 ->
        late_failure Experiment finished_slices (dirname y') = None) ->
     inspect Experiment finished_slices (dirname y) = Ok (expt, raw, Some t, true) ->
     assign expt raw t = Raise e ->
     scan dirname Experiment finished_slices l = Raise e).
Proof.
  split.
  - intros Safe. rewrite (scan_eq dirname Experiment finished_slices l Safe).
    do 2 eexists. split; [reflexivity|]. split; [reflexivity|]. split.
    + intros j. split.
      * intros Hj. apply collect_keys in Hj. destruct Hj as [[]|[v Hin]].
        apply in_map_iff in Hin. destruct Hin as (y & Hc & Hy).
        apply contribution_Some in Hc. destruct Hc as (expt & raw & t & Hi & Ht & _).
        eauto 8.
      * intros (y & expt & raw & t & Hy & Hi & Ht).
        apply collect_keys. right. exists (Z.max raw t).
        apply in_map_iff. exists y. split; auto.
        apply contribution_Some. eauto 8.
    + intros l1 bad l2 e -> H.
      destruct (inspect_Raise Experiment finished_slices _ _ H) as (C & _ & F).
      assert (Safe' : forall y, In y (l1 ++ l2) ->
                late_failure Experiment finished_slices (dirname y) = None).
      { intros y Hy. apply Safe. apply in_app_or in Hy. apply in_or_app.
        destruct Hy; [now left | right; now right]. }
      rewrite (scan_eq dirname Experiment finished_slices _ Safe').
      rewrite !map_app, !filter_app, !length_app, !collect_app.
      cbn [map filter]. rewrite C, F.
      cbn [List.length OrderedDict.collect fold_left].
      eexists. split; [|reflexivity]. lia.
  - intros l1 y l2 expt raw t e -> Safe Hi Ha.
    unfold scan. apply for_each_late_failure; [exact Safe|].
    apply late_failure_Some. eauto.
Qed.

End MultipatchSources.

(** C2 on the scenario of the specification: the slice module finished job
    2020-01-01_0 at time 1000 with success, and one raw experiment source,
    last modified at time 900, refers to that slice. *)
Lemma ready_jobs_iff_slice_success_and_loadable_witness :
  let site := "/data/2020-01-01/slice_0/site_0" in
  let glob_pipettes := fun path : string =>
    if String.eqb path "2020-01-01/slice_0"
    then ["/data/2020-01-01/slice_0/site_0/pipettes.yml"] else [] in
  let dirname := fun _ : string => site in
  let expt := {| Multipatch.last_modification_time := Ok (Some 900%Z);
                 Multipatch.slice_timestamp := Ok "2020-01-01_0";
                 Multipatch.timestamp := Ok "2020-01-01_0" |} in
  let Experiment := fun path : string =>
    if String.eqb path site then Ok expt else Raise (ExternalError "no such site") in
  let finished_slices := [("2020-01-01_0", (Some 1000%Z, true))] in
  let db := {| db_Slice := [{| slice_id := 1;
                               slice_acq_timestamp := "2020-01-01_0";
                               storage_path := "2020-01-01/slice_0" |}];
               db_Experiment := [] |} in
  Multipatch.job_ids_distinct glob_pipettes dirname Experiment db /\
  Multipatch.assignments_succeed glob_pipettes dirname Experiment finished_slices db /\
  exists ready,
    Multipatch.ready_jobs glob_pipettes dirname Experiment finished_slices db
      = Ok ready /\
    OrderedDict.get ready "2020-01-01_0" = Some 1000%Z.
Proof.
  intros site glob_pipettes dirname expt Experiment finished_slices db.
  assert (D : Multipatch.job_ids_distinct glob_pipettes dirname Experiment db).
  { intros s1 s2 e1 e2 j H1 H2 _ _ _ _.
    destruct H1 as [<-|[]]. destruct H2 as [<-|[]]. reflexivity. }
  assert (S : Multipatch.assignments_succeed glob_pipettes dirname Experiment
                finished_slices db).
  { intros y [<-|[]]. reflexivity. }
  split; [exact D|]. split; [exact S|].
  destruct (ready_jobs_iff_slice_success_and_loadable
              glob_pipettes dirname Experiment finished_slices db D S)
    as (ready & Hr & Hiff & _).
  exists ready. split; [exact Hr|].
  apply (Hiff site expt "2020-01-01_0" (or_introl eq_refl) eq_refl eq_refl).
  exists 900%Z, "2020-01-01_0", 1000%Z. repeat split.
Defined.

(** C2 as stated fails where two sites carry one job id.  Site A and site
    B both have the timestamp J; the slice of A finished with success at
    time 1000, the slice of B failed.  [ready_jobs()] returns J with value
    1000: the job id of site B, a discovered and loadable site, is in the
    mapping although its slice has no success record. *)
Lemma ready_jobs_duplicate_job_id_counterexample :
  let glob_pipettes := fun path : string =>
    if String.eqb path "slice_a" then ["site_A/pipettes.yml"]
    else if String.eqb path "slice_b" then ["site_B/pipettes.yml"] else [] in
  let dirname := fun y : string =>
    if String.eqb y "site_A/pipettes.yml" then "site_A" else "site_B" in
  let expt := fun slice_ts : string =>
    {| Multipatch.last_modification_time := Ok (Some 900%Z);
       Multipatch.slice_timestamp := Ok slice_ts;
       Multipatch.timestamp := Ok "J" |} in
  let Experiment := fun path : string =>
    if String.eqb path "site_A" then Ok (expt "ts_a") else Ok (expt "ts_b") in
  let finished_slices := [("ts_a", (Some 1000%Z, true));
                          ("ts_b", (Some 1200%Z, false))] in
  let db := {| db_Slice := [{| slice_id := 1; slice_acq_timestamp := "ts_a";
                               storage_path := "slice_a" |};
                            {| slice_id := 2; slice_acq_timestamp := "ts_b";
                               storage_path := "slice_b" |}];
               db_Experiment := [] |} in
  Multipatch.ready_jobs glob_pipettes dirname Experiment finished_slices db
    = Ok [("J", 1000%Z)] /\
  Multipatch.discovered glob_pipettes dirname db "site_B" /\
  Experiment "site_B" = Ok (expt "ts_b") /\
  Multipatch.loadable (expt "ts_b") 900 "ts_b" /\
  OrderedDict.get [("J", 1000%Z)] "J" = Some 1000%Z /\
  (forall finished_time,
     ~ Multipatch.success_record finished_slices "ts_b" finished_time).
Proof.
  intros glob_pipettes dirname expt Experiment finished_slices db.
  split; [reflexivity|]. split; [right; left; reflexivity|].
  split; [reflexivity|]. split; [split; reflexivity|]. split; [reflexivity|].
  intros t H. discriminate H.
Qed.

Section OptoSources.
Import Pipeline.Opto OptoFacts.
Variable Ts : Type.
Variable zero : Ts.
Variable format_3f : Ts -> string.
Variable config_connections_dir : string.
Variable config_synphys_data : string.
Variable os_path_join : string -> string -> string.
Variable os_path_exists : string -> bool.
Variable lower : string -> string.
Variable slice_path_of : string -> res string.
Variable AI_Experiment : Source -> CsvRow -> res (OptoExpt Ts).
Variable finished_slices : OrderedDict.t JobRecord.
Variable slice_paths : list string.

Local Abbreviation check :=
  (check Ts zero format_3f config_connections_dir config_synphys_data os_path_join
         os_path_exists lower slice_path_of AI_Experiment finished_slices slice_paths).
Local Abbreviation ready_jobs_scan :=
  (ready_jobs_scan Ts zero format_3f config_connections_dir config_synphys_data
         os_path_join os_path_exists lower slice_path_of AI_Experiment
         finished_slices slice_paths).
Local Abbreviation ready_jobs :=
  (ready_jobs Ts zero format_3f config_connections_dir config_synphys_data
         os_path_join os_path_exists lower slice_path_of AI_Experiment
         finished_slices slice_paths).
Local Abbreviation late_failure :=
  (late_failure Ts zero format_3f config_connections_dir config_synphys_data
         os_path_join os_path_exists lower slice_path_of AI_Experiment
         finished_slices slice_paths).
Local Abbreviation with_cd := (with_connections_dir config_connections_dir).

(** X23.  The loop of the opto [ready_jobs] and the exceptions of its
    candidates.  While no statement after the [try] block raises, the
    loop returns: the keys of the mapping are the ids of the candidates
    whose check succeeded with a slice record that is there and not
    failed, every candidate whose check raised is recorded under its name
    among the errors, and such a candidate changes neither the mapping
    nor the list of candidates without slice.  An exception raised by the
    statement after the [try] block, by [max] or by reading [ext_id], is
    not caught: the first one ends the loop and leaves [ready_jobs]. *)
Theorem opto_failures_inside_and_after_try (l : list CsvRow) :
  ((forall y, In y l -> late_failure y = None) ->
   exists st,
     ready_jobs_scan l = Ok st /\
     ready_jobs l = Ok (ready st) /\
     (forall j,
        In j (OrderedDict.keys (ready st)) <->
        exists expt ex source raw t succ,
          In expt l /\
          check (with_cd expt) = Ok (Inspected ex source (Some raw) (Some t) succ) /\
          succ <> Some false /\ o_ext_id ex = Ok j) /\
     (forall expt e,
        In expt l -> check (with_cd expt) = Raise e ->
        In (experiment expt) (OrderedDict.keys (n_errors st))) /\
     (forall l1 bad l2 e,
        l = (l1 ++ bad :: l2)%list ->
        check (with_cd bad) = Raise e ->
        exists st',
          ready_jobs_scan (l1 ++ l2) = Ok st' /\
          ready st' = ready st /\ n_no_slice st' = n_no_slice st))
  /\
  (forall l1 y l2 ex source raw t succ e,
     l = (l1 ++ y :: l2)%list ->
     (forall y', In y' l1 -> late_failure y' = None) ->
     check (with_cd y) = Ok (Inspected ex source raw (Some t) succ) ->
     succ <> Some false ->
     assign Ts ex source raw t = Raise e ->
     ready_jobs_scan l = Raise e /\ ready_jobs l = Raise e).
Proof.
  split.
  - intros Safe. unfold Opto.ready_jobs.
    rewrite (ready_jobs_scan_eq Ts zero format_3f config_connections_dir
               config_synphys_data os_path_join os_path_exists lower slice_path_of
               AI_Experiment finished_slices slice_paths l Safe).
    cbn [res_bind].
    eexists. split; [reflexivity|]. split; [reflexivity|].
    cbn [ready n_errors n_no_slice]. split; [|split].
    + intros j. rewrite collect_keys. split.
      * intros [[]|[v Hin]]. apply in_map_iff in Hin. destruct Hin as (expt & Hc & Hy).
        assert (Hex : exists v, Opto.ready_entry Ts zero format_3f config_connections_dir
                  config_synphys_data os_path_join os_path_exists lower slice_path_of
                  AI_Experiment finished_slices slice_paths expt = Some (j, v)) by eauto.
        apply ready_entry_Some in Hex.
        destruct Hex as (ex & src & raw & t & succ & Hck & Hs & Hj).
        exists expt, ex, src, raw, t, succ. auto.
      * intros (expt & ex & src & raw & t & succ & Hin & Hck & Hs & Hj).
        right.
        assert (Hex : exists v, Opto.ready_entry Ts zero format_3f config_connections_dir
                  config_synphys_data os_path_join os_path_exists lower slice_path_of
                  AI_Experiment finished_slices slice_paths expt = Some (j, v)).
        { apply ready_entry_Some. eauto 8. }
        destruct Hex as [v Hv]. exists v. apply in_map_iff. eauto.
    + intros expt e Hin Hck.
      destruct (error_entry_Raise Ts zero format_3f config_connections_dir
                  config_synphys_data os_path_join os_path_exists lower slice_path_of
                  AI_Experiment finished_slices slice_paths expt e Hck) as (E & _).
      apply collect_keys. right. eexists. apply in_map_iff. eauto.
    + intros l1 bad l2 e El H.
      destruct (error_entry_Raise Ts zero format_3f config_connections_dir
                  config_synphys_data os_path_join os_path_exists lower slice_path_of
                  AI_Experiment finished_slices slice_paths bad e H) as (E & R & N & _).
      assert (Safe' : forall y, In y (l1 ++ l2) -> late_failure y = None).
      { intros y Hy. apply Safe. rewrite El. apply in_app_or in Hy. apply in_or_app.
        destruct Hy; [now left | right; now right]. }
      rewrite (ready_jobs_scan_eq Ts zero format_3f config_connections_dir
                 config_synphys_data os_path_join os_path_exists lower slice_path_of
                 AI_Experiment finished_slices slice_paths _ Safe').
      eexists. split; [reflexivity|]. cbn [ready n_no_slice]. rewrite El.
      split.
      * rewrite !map_app, !collect_app. cbn [map]. rewrite R. reflexivity.
      * rewrite !flat_map_app. cbn [flat_map]. rewrite N. reflexivity.
  - intros l1 y l2 ex source raw t succ e -> Safe Hck Hs Ha.
    assert (E : ready_jobs_scan (l1 ++ y :: l2) = Raise e).
    { unfold Opto.ready_jobs_scan. apply for_each_opto_late_failure; [exact Safe|].
      apply opto_late_failure_Some. exists ex, source, raw, t, succ. auto. }
    split; [exact E|]. unfold Opto.ready_jobs. now rewrite E.
Qed.

End OptoSources.

(** C3, the failing input.  Three multipatch candidates whose experiment
    objects load and whose slice has a success record; the modification
    time of the second is None, or its job id cannot be read.  The
    statement after the [try] block raises for the second candidate and
    [ready_jobs] raises with it, although without that candidate the
    loop returns the mapping of the other two.  The same holds for the
    loop of the opto module and one candidate whose [ext_id] cannot be
    read. *)
Theorem ready_jobs_raises_after_try_block :
  let expt := fun (mtime : option Z) (ts : res string) =>
    {| Multipatch.last_modification_time := Ok mtime;
       Multipatch.slice_timestamp := Ok "slice_a";
       Multipatch.timestamp := ts |} in
  let candidates := fun (second : Multipatch.Expt) (path : string) =>
    if String.eqb path "site_1" then Ok (expt (Some 900%Z) (Ok "expt_1"))
    else if String.eqb path "site_2" then Ok second
    else Ok (expt (Some 950%Z) (Ok "expt_3")) in
  let finished_slices := [("slice_a", (Some 1000%Z, true))] in
  let row := {| Opto.experiment := "expt_1"; Opto.site_path := "";
                Opto.rig_name := "rig"; Opto.connections_dir := None |} in
  let opto_scan := fun (ex : Opto.OptoExpt unit) =>
    Opto.ready_jobs unit tt (fun _ => "0.000") "cnx" "data"
      (fun a b => a ++ "/" ++ b) (fun _ => true) (fun s => s) (fun p => Ok p)
      (fun _ _ => Ok ex) [("0.000", (Some 1000%Z, true))] [] [row] in
  Multipatch.scan (fun y => y) (candidates (expt (Some 920%Z) (Ok "expt_2")))
                  finished_slices ["site_1"; "site_3"]
    = Ok ([("expt_1", 1000%Z); ("expt_3", 1000%Z)], 0) /\
  (exists msg,
     Multipatch.scan (fun y => y) (candidates (expt None (Ok "expt_2")))
                     finished_slices ["site_1"; "site_2"; "site_3"]
       = Raise (TypeError msg)) /\
  Multipatch.scan (fun y => y)
                  (candidates (expt (Some 920%Z)
                                    (Raise (ExternalError "no .index file"))))
                  finished_slices ["site_1"; "site_2"; "site_3"]
    = Raise (ExternalError "no .index file") /\
  opto_scan {| Opto.o_last_modification_time := Ok (Some 900%Z);
               Opto.info_slice_timestamp := Ok None;
               Opto.o_ext_id := Raise (ExternalError "no ext_id") |}
    = Raise (ExternalError "no ext_id") /\
  (exists msg,
     opto_scan {| Opto.o_last_modification_time := Ok None;
                  Opto.info_slice_timestamp := Ok None;
                  Opto.o_ext_id := Ok "expt_1" |}
       = Raise (TypeError msg)).
Proof.
  cbv zeta. split; [reflexivity|]. split; [eexists; reflexivity|].
  split; [reflexivity|]. split; [reflexivity|]. eexists; reflexivity.
Qed.

(** X22 on three candidates of which the second cannot be loaded. *)
Lemma multipatch_failures_inside_and_after_try_witness :
  let expt := fun ts : string =>
    {| Multipatch.last_modification_time := Ok (Some 900%Z);
       Multipatch.slice_timestamp := Ok "slice_a";
       Multipatch.timestamp := Ok ts |} in
  let Experiment := fun path : string =>
    if String.eqb path "site_1" then Ok (expt "expt_1")
    else if String.eqb path "site_3" then Ok (expt "expt_3")
    else Raise (ExternalError "cannot load") in
  let finished_slices := [("slice_a", (Some 1000%Z, true))] in
  exists ready n,
    Multipatch.scan (fun y => y) Experiment finished_slices
      ["site_1"; "site_2"; "site_3"] = Ok (ready, S n) /\
    Multipatch.scan (fun y => y) Experiment finished_slices ["site_1"; "site_3"]
      = Ok (ready, n).
Proof.
  intros expt Experiment finished_slices.
  assert (Safe : forall y, In y ["site_1"; "site_2"; "site_3"] ->
            Multipatch.late_failure Experiment finished_slices y = None).
  { intros y [<-|[<-|[<-|[]]]]; reflexivity. }
  destruct (proj1 (multipatch_failures_inside_and_after_try
                     (fun y : string => y)
                     Experiment finished_slices ["site_1"; "site_2"; "site_3"]) Safe)
    as (ready & n & Hs & _ & _ & Hiso).
  destruct (Hiso ["site_1"] "site_2" ["site_3"] (ExternalError "cannot load")
                 eq_refl eq_refl) as (n' & Hn & Hs').
  exists ready, n'. split; [rewrite <- Hn; exact Hs | exact Hs'].
Defined.

(** X23 on two candidates of which the first has no connections file
    that can be read. *)
Lemma opto_failures_inside_and_after_try_witness :
  let row := fun name : string =>
    {| Opto.experiment := name; Opto.site_path := "";
       Opto.rig_name := "rig"; Opto.connections_dir := None |} in
  let AI_Experiment := fun (_ : Opto.Source) (r : Opto.CsvRow) =>
    if String.eqb (Opto.experiment r) "expt_1"
    then Raise (ExternalError "cannot load")
    else Ok {| Opto.o_last_modification_time := Ok (Some 900%Z);
               Opto.info_slice_timestamp := Ok None;
               Opto.o_ext_id := Ok "expt_2" |} in
  let scan := Opto.ready_jobs_scan unit tt (fun _ => "0.000") "cnx" "data"
                (fun a b => a ++ "/" ++ b) (fun _ => true) (fun s => s)
                (fun p => Ok p) AI_Experiment [("0.000", (Some 1000%Z, true))] [] in
  exists st st',
    scan [row "expt_1"; row "expt_2"] = Ok st /\
    scan [row "expt_2"] = Ok st' /\
    Opto.ready st' = Opto.ready st.
Proof.
  intros row AI_Experiment scan.
  assert (Safe : forall y, In y [row "expt_1"; row "expt_2"] ->
            Opto.late_failure unit tt (fun _ => "0.000") "cnx" "data"
              (fun a b => a ++ "/" ++ b) (fun _ => true) (fun s => s)
              (fun p => Ok p) AI_Experiment [("0.000", (Some 1000%Z, true))] [] y
            = None).
  { intros y [<-|[<-|[]]]; reflexivity. }
  destruct (proj1 (opto_failures_inside_and_after_try unit tt (fun _ => "0.000")
                     "cnx" "data" (fun a b => a ++ "/" ++ b) (fun _ => true)
                     (fun s => s) (fun p => Ok p) AI_Experiment
                     [("0.000", (Some 1000%Z, true))] []
                     [row "expt_1"; row "expt_2"]) Safe)
    as (st & Hs & _ & _ & _ & Hiso).
  destruct (Hiso [] (row "expt_1") [row "expt_2"] (ExternalError "cannot load")
                 eq_refl eq_refl) as (st' & Hs' & Hr & _).
  exists st, st'. split; [exact Hs|]. split; [exact Hs' | exact Hr].
Defined.

End ReadinessTheorems.

Module InvalidationTheorems.
Import Pipeline.

Lemma ModuleClass_eqb_eq a b : ModuleClass_eqb a b = true <-> a = b.
Proof.
  destruct a, b; simpl; split; intros H;
    try reflexivity; try discriminate H.
  - apply String.eqb_eq in H. now subst.
  - inversion H. apply String.eqb_refl.
Qed.

Lemma class_mem_singleton c d : class_mem c [d] = true <-> c = d.
Proof.
  unfold class_mem. simpl. rewrite orb_false_r. apply ModuleClass_eqb_eq.
Qed.

Lemma In_join_Slice db e s :
  In (e, s) (join_Slice db) <->
  In e (db_Experiment db) /\ In s (db_Slice db) /\
  experiment_slice_id e = Some (slice_id s).
Proof.
  unfold join_Slice. rewrite in_flat_map. split.
  - intros (e' & He & Hin). apply in_map_iff in Hin.
    destruct Hin as (s' & Heq & Hs). inversion Heq; subst.
    apply filter_In in Hs. destruct Hs as [Hs Hr].
    unfold references in Hr. destruct (experiment_slice_id e) as [i|]; [|discriminate].
    apply Nat.eqb_eq in Hr. subst. auto.
  - intros (He & Hs & Hr). exists e. split; auto.
    apply in_map. apply filter_In. split; auto.
    unfold references. rewrite Hr. apply Nat.eqb_refl.
Qed.

(** The query returns the job ids of the experiment records joined to a
    slice whose timestamp is among [job_ids]. *)
Lemma In_dependent_ids (f : ExperimentRow -> string) db job_ids j :
  In j (map (fun rec => f (fst rec)) (filter_slice_in job_ids (join_Slice db))) <->
  exists e slice_job,
    computed_against db e slice_job /\ In slice_job job_ids /\ f e = j.
Proof.
  unfold filter_slice_in, computed_against. rewrite in_map_iff. split.
  - intros ([e s] & Hj & Hin). apply filter_In in Hin. destruct Hin as [Hin Hm].
    apply In_join_Slice in Hin. destruct Hin as (He & Hs & Hr).
    apply str_mem_In in Hm. simpl in *.
    exists e, (slice_acq_timestamp s). eauto 10.
  - intros (e & sj & (He & s & Hs & Hr & Hts) & Hin & Hj).
    exists (e, s). split; auto. apply filter_In. split.
    + apply In_join_Slice. auto.
    + simpl. apply str_mem_In. now rewrite Hts.
Qed.

(** C9.  Given an instance of its dependency class, [dependent_job_ids]
    returns the job ids of exactly the experiment records whose foreign key
    leads to a slice record whose timestamp is among the changed job ids;
    given a module of any other class it raises ([ValueError] in the
    multipatch module; in the opto module the [NameError] of the unbound
    [cls] in the message).  In the scenario of the specification the result
    is the one job id 2020-01-01_0. *)
Theorem dependent_job_ids_spec :
  (forall self module db job_ids,
     (type_of module = SlicePipelineModule ->
      exists l,
        Multipatch.dependent_job_ids self module db job_ids = Ok l /\
        forall j, In j l <->
                  exists e slice_job,
                    computed_against db e slice_job /\ In slice_job job_ids /\
                    acq_timestamp e = j) /\
     (type_of module <> SlicePipelineModule ->
      exists msg,
        Multipatch.dependent_job_ids self module db job_ids
          = Raise (ValueError msg)))
  /\
  (forall self module db job_ids,
     (type_of module = OptoSlicePipelineModule ->
      exists l,
        Opto.dependent_job_ids self module db job_ids = Ok l /\
        forall j, In j l <->
                  exists e slice_job,
                    computed_against db e slice_job /\ In slice_job job_ids /\
                    ext_id e = j) /\
     (type_of module <> OptoSlicePipelineModule ->
      Opto.dependent_job_ids self module db job_ids = Raise (NameError "cls")))
  /\
  (let experiment_module := {| type_of := ExperimentPipelineModule; str := "experiment" |} in
   let slice_module := {| type_of := SlicePipelineModule; str := "slice" |} in
   let db := {| db_Slice := [{| slice_id := 1;
                                slice_acq_timestamp := "2020-01-01_0";
                                storage_path := "2020-01-01/slice_0" |}];
                db_Experiment := [{| experiment_id := 1;
                                     acq_timestamp := "2020-01-01_0";
                                     ext_id := "2020-01-01_0";
                                     experiment_slice_id := Some 1 |}] |} in
   Multipatch.dependent_job_ids experiment_module slice_module db ["2020-01-01_0"]
     = Ok ["2020-01-01_0"] /\
   exists err,
     Multipatch.dependent_job_ids experiment_module experiment_module db
       ["2020-01-01_0"] = Raise err).
Proof.
  split; [|split].
  - intros self module db job_ids. unfold Multipatch.dependent_job_ids. split.
    + intros T.
      assert (M : class_mem (type_of module) Multipatch.dependencies = true)
        by (apply class_mem_singleton; exact T).
      rewrite M. cbn [negb]. eexists. split; [reflexivity|].
      intros j. apply In_dependent_ids.
    + intros T.
      destruct (class_mem (type_of module) Multipatch.dependencies) eqn:M.
      * apply class_mem_singleton in M. contradiction.
      * cbn [negb]. eauto.
  - intros self module db job_ids. unfold Opto.dependent_job_ids. split.
    + intros T.
      assert (M : class_mem (type_of module) Opto.dependencies = true)
        by (apply class_mem_singleton; exact T).
      rewrite M. cbn [negb]. eexists. split; [reflexivity|].
      intros j. apply In_dependent_ids.
    + intros T.
      destruct (class_mem (type_of module) Opto.dependencies) eqn:M.
      * apply class_mem_singleton in M. contradiction.
      * reflexivity.
  - cbv zeta. split; [reflexivity|]. eexists. reflexivity.
Qed.

(** C9 for the opto module on a database with one experiment of a changed
    slice and one of another slice. *)
Lemma dependent_job_ids_spec_witness :
  let self := {| type_of := OptoExperimentPipelineModule; str := "opto_experiment" |} in
  let module := {| type_of := OptoSlicePipelineModule; str := "opto_slice" |} in
  let db := {| db_Slice := [{| slice_id := 1; slice_acq_timestamp := "100.000";
                               storage_path := "a" |};
                            {| slice_id := 2; slice_acq_timestamp := "200.000";
                               storage_path := "b" |}];
               db_Experiment := [{| experiment_id := 1; acq_timestamp := "101.000";
                                    ext_id := "expt_a"; experiment_slice_id := Some 1 |};
                                 {| experiment_id := 2; acq_timestamp := "201.000";
                                    ext_id := "expt_b"; experiment_slice_id := Some 2 |}] |} in
  exists l,
    Opto.dependent_job_ids self module db ["200.000"] = Ok l /\
    (In "expt_b" l) /\ ~ In "expt_a" l.
Proof.
  intros self module db.
  destruct dependent_job_ids_spec as (_ & H & _).
  destruct (H self module db ["200.000"]) as [Hok _].
  destruct (Hok eq_refl) as (l & Hl & Hiff).
  exists l. split; [exact Hl|]. split.
  - apply Hiff.
    exists {| experiment_id := 2; acq_timestamp := "201.000";
              ext_id := "expt_b"; experiment_slice_id := Some 2 |}, "200.000".
    split; [|split; [now left | reflexivity]].
    split; [right; now left|].
    exists {| slice_id := 2; slice_acq_timestamp := "200.000"; storage_path := "b" |}.
    split; [right; now left | split; reflexivity].
  - intros Hin. apply Hiff in Hin.
    destruct Hin as (e & sj & (He & s & Hs & Hr & Hts) & [<-|[]] & Hj).
    destruct He as [<-|[<-|[]]]; [|discriminate Hj].
    destruct Hs as [<-|[<-|[]]]; simpl in *; discriminate.
Defined.

End InvalidationTheorems.

(* ===================================================================== *)
(** ** The embedding on concrete inputs                                  *)
(* ===================================================================== *)
Module Examples.
Import Pipeline.

Example range_2500 : Exporter.range 0 (Some 2500%Z) 1000 = Ok [0; 1000; 2000]%Z.
Proof. reflexivity. Qed.

Example range_3000 : Exporter.range 0 (Some 3000%Z) 1000 = Ok [0; 1000; 2000]%Z.
Proof. reflexivity. Qed.

Example range_negative_step : Exporter.range 0 (Some 10%Z) (-3) = Ok [].
Proof. reflexivity. Qed.

Example range_down : Exporter.py_range 10 0 (-3) = [10; 7; 4; 1]%Z.
Proof. reflexivity. Qed.

(** Five rows read in chunks of 2 by the producer-first scheduler. *)
Example export_five_rows :
  let tbl := map (fun i => {| Exporter.id := Z.of_nat i; Exporter.columns := tt |})
                 (seq 1 5) in
  let s := Exporter.run 40 (Exporter.TableReadThread tbl 2) in
  Exporter.dest s = tbl /\
  Exporter.queries s =
    [Exporter.QueryMaxId; Exporter.QueryRange 0 2; Exporter.QueryRange 2 4;
     Exporter.QueryRange 4 6] /\
  Exporter.consumer s = Exporter.CDone /\ Exporter.thread s = Exporter.PDone.
Proof. repeat split. Qed.

(** Three candidates of the opto module: one ready, one whose slice
    directory cannot be resolved, one whose connections file is missing. *)
Example opto_ready_jobs_three_candidates :
  let format_3f := fun ts : Z => if (ts =? 0)%Z then "0.000" else "100.000" in
  let os_path_join := fun a b : string => a ++ "/" ++ b in
  let os_path_exists := fun path : string => String.eqb path "/cnx/e1_conn.json" in
  let slice_path_of := fun _ : string =>
    @Raise string (ExternalError "no such directory") in
  let ex1 := {| Opto.o_last_modification_time := Ok (Some 5%Z);
                Opto.info_slice_timestamp := Ok (Some 100%Z);
                Opto.o_ext_id := Ok "e1" |} in
  let AI_Experiment := fun (_ : Opto.Source) (_ : Opto.CsvRow) => Ok ex1 in
  let finished_slices := [("100.000", (Some 7%Z, true))] in
  let row := fun name site =>
    {| Opto.experiment := name; Opto.site_path := site; Opto.rig_name := "Rig1";
       Opto.connections_dir := None |} in
  Opto.ready_jobs_scan Z 0%Z format_3f "/cnx" "/data" os_path_join os_path_exists
    (fun r => r) slice_path_of AI_Experiment finished_slices []
    [row "e1_conn.json" ""; row "e2_conn.json" "2020/site_2"; row "e3_conn.json" ""]
  = Ok {| Opto.ready := [("e1", {| Opto.dep_time := 7; Opto.meta_source := "/cnx/e1_conn.json" |})];
          Opto.n_errors :=
            [("e2_conn.json", Opto.Caught (ExternalError "no such directory"));
             ("e3_conn.json", Opto.Message "File not found: /cnx/e3_conn.json")];
          Opto.n_no_slice := [] |}.
Proof. reflexivity. Qed.

End Examples.

(* ===================================================================== *)
(** ** Further properties of the engines and sessions                    *)
(* ===================================================================== *)
Module EngineAccounting.
Import Database DatabaseFacts SessionTheorems DefaultSession.

Section WithConfig.
Variable cfg : Config.

Lemma dispose_engines_fields w :
  disposed (dispose_engines w) = (rev (live w) ++ disposed w)%list /\
  live (dispose_engines w) = [] /\
  _sessionmaker_ro (dispose_engines w) =
    match engine_ro w with Some _ => None | None => _sessionmaker_ro w end /\
  _sessionmaker_rw (dispose_engines w) =
    match engine_rw w with Some _ => None | None => _sessionmaker_rw w end.
Proof.
  destruct w as [ro rw pid smro smrw op n dis cat meta st].
  destruct ro, rw; repeat split.
Qed.

Lemma init_engines_fields w :
  disposed (init_engines cfg w) = disposed (dispose_engines w) /\
  _sessionmaker_ro (init_engines cfg w) = _sessionmaker_ro (dispose_engines w) /\
  _sessionmaker_rw (init_engines cfg w) = _sessionmaker_rw (dispose_engines w) /\
  map engine_id (live (init_engines cfg w)) =
    seq (engines_created w) (List.length (live (init_engines cfg w))) /\
  engines_created (init_engines cfg w) =
    engines_created w + List.length (live (init_engines cfg w)).
Proof.
  destruct w as [ro rw pid smro smrw op n dis cat meta st].
  unfold init_engines, live.
  destruct ro, rw; destruct (prefix "postgres" (db_address_ro cfg));
    destruct (db_address_rw cfg); cbn; repeat split; f_equal; lia.
Qed.

Lemma accounted_dispose_engines w : accounted w -> accounted (dispose_engines w).
Proof.
  intros [D A C].
  destruct (dispose_engines_fields w) as (Ed & El & _).
  destruct (dispose_engines_spec w) as (_ & _ & _ & Dn & _).
  assert (P : Permutation (live (dispose_engines w) ++ disposed (dispose_engines w))
                          (live w ++ disposed w)).
  { rewrite El, Ed. cbn [app]. apply Permutation_app_tail.
    symmetry. apply Permutation_rev. }
  constructor.
  - eapply Permutation_NoDup; [|exact D]. apply Permutation_map. now symmetry.
  - intros e He. rewrite Dn. apply A. eapply Permutation_in; eauto.
  - rewrite Dn, C. symmetry. now apply Permutation_length.
Qed.

Lemma accounted_init_engines w : accounted w -> accounted (init_engines cfg w).
Proof.
  intros Acc. apply accounted_dispose_engines in Acc. destruct Acc as [D A C].
  destruct (init_engines_fields w) as (Ed & _ & _ & El & En).
  destruct (dispose_engines_fields w) as (_ & El' & _).
  destruct (dispose_engines_spec w) as (_ & _ & _ & Dn & _).
  rewrite El' in D, A, C. cbn [app] in D, A, C. rewrite Dn in A, C.
  assert (New : forall e, In e (live (init_engines cfg w)) ->
                          engines_created w <= engine_id e
                          < engines_created (init_engines cfg w)).
  { intros e He. apply (in_map engine_id) in He. rewrite El in He.
    apply in_seq in He. lia. }
  constructor.
  - rewrite map_app, Ed. apply NoDup_app.
    + rewrite El. apply seq_NoDup.
    + exact D.
    + intros i Hi Hd. apply in_map_iff in Hd. destruct Hd as (e & <- & He).
      specialize (A e He). rewrite El in Hi. apply in_seq in Hi. lia.
  - intros e He. apply in_app_or in He. destruct He as [He|He].
    + apply New in He. lia.
    + rewrite Ed in He. specialize (A e He). lia.
  - rewrite length_app, Ed, En, C. lia.
Qed.

Lemma accounted_ext w w' :
  engine_ro w' = engine_ro w -> engine_rw w' = engine_rw w ->
  disposed w' = disposed w -> engines_created w' = engines_created w ->
  accounted w -> accounted w'.
Proof.
  intros E1 E2 E3 E4 [D A C].
  assert (L : live w' = live w) by (unfold live; now rewrite E1, E2).
  constructor; rewrite ?L, ?E3, ?E4; auto.
Qed.

Lemma accounted_get_engines w : accounted w -> accounted (snd (get_engines cfg w)).
Proof.
  intros Acc.
  destruct (get_engines_cases cfg w) as [H|[H|[H|H]]]; rewrite H;
    auto using accounted_dispose_engines, accounted_init_engines.
Qed.

Lemma Session_world_fields readonly w :
  let w1 := snd (get_engines cfg w) in
  let w' := snd (Session cfg readonly w) in
  engine_ro w' = engine_ro w1 /\ engine_rw w' = engine_rw w1 /\
  engine_pid w' = engine_pid w1 /\ os_pid w' = os_pid w1 /\
  disposed w' = disposed w1 /\ engines_created w' = engines_created w1 /\
  statements w' = statements w1 /\ catalog w' = catalog w1.
Proof.
  cbv zeta. rewrite Session_unfold. cbv zeta.
  set (w1 := snd (get_engines cfg w)).
  destruct readonly.
  - destruct (_sessionmaker_ro (set_engine_rw (engine_rw w1)
                                  (set_engine_ro (engine_ro w1) w1)));
      repeat split.
  - cbn [set_engine_rw engine_rw]. destruct (engine_rw w1) eqn:Q.
    + destruct (_sessionmaker_rw (set_engine_rw (Some e)
                                    (set_engine_ro (engine_ro w1) w1)));
        repeat split; cbn; auto.
    + repeat split; cbn; auto.
Qed.

Lemma create_tables_world_fields tables engine w :
  let w' := snd (create_tables cfg tables engine w) in
  (w' = w \/
   (engine_ro w' = engine_ro (snd (get_engines cfg w)) /\
    engine_rw w' = engine_rw (snd (get_engines cfg w)) /\
    disposed w' = disposed (snd (get_engines cfg w)) /\
    engines_created w' = engines_created (snd (get_engines cfg w)) /\
    _sessionmaker_ro w' = _sessionmaker_ro (snd (get_engines cfg w)) /\
    _sessionmaker_rw w' = _sessionmaker_rw (snd (get_engines cfg w)))).
Proof.
  cbv zeta. unfold create_tables. destruct engine; [now left|].
  destruct (get_engines cfg w) as [[ro rw] w1]. cbn [snd].
  unfold metadata_create_all. destruct rw; right; repeat split.
Qed.

Lemma accounted_create_tables tables engine w :
  accounted w -> accounted (snd (create_tables cfg tables engine w)).
Proof.
  intros Acc.
  destruct (create_tables_world_fields tables engine w) as [E|(E1 & E2 & E3 & E4 & _)].
  - now rewrite E.
  - eapply accounted_ext; eauto. now apply accounted_get_engines.
Qed.

Lemma reachable_accounted w : reachable cfg w -> accounted w.
Proof.
  induction 1 as [pid cat meta | o w R IH].
  - unfold module_import.
    eapply accounted_ext; [ | | | | apply accounted_init_engines]; try reflexivity.
    constructor; cbn; [constructor | tauto | reflexivity].
  - destruct o; cbn [exec].
    + now apply accounted_get_engines.
    + now apply accounted_init_engines.
    + now apply accounted_dispose_engines.
    + destruct (Session_world_fields readonly w) as (E1 & E2 & _ & _ & E3 & E4 & _).
      eapply accounted_ext; eauto. now apply accounted_get_engines.
    + now apply accounted_create_tables.
    + unfold TableGroup_create_tables. destruct (engine_rw w); [|exact IH].
      destruct (group_tables tg (OrderedDict.keys (schemas tg))); [|exact IH].
      now apply accounted_create_tables.
    + eapply accounted_ext; [ | | | | exact IH]; reflexivity.
Qed.

Lemma accounted_live_not_disposed w e :
  accounted w -> In e (live w) -> ~ In e (disposed w).
Proof.
  intros [D _ _] Hl Hd. rewrite map_app in D.
  assert (Hid : In (engine_id e) (map engine_id (disposed w))) by now apply in_map.
  assert (Hil : In (engine_id e) (map engine_id (live w))) by now apply in_map.
  clear - D Hid Hil.
  induction (map engine_id (live w)) as [|x l IH]; [contradiction|].
  cbn in D. inversion D; subst. destruct Hil as [->|Hil].
  - apply H1. apply in_or_app. now right.
  - now apply IH.
Qed.

Lemma get_engines_owned w :
  engine_pid (snd (get_engines cfg w)) = Some (os_pid (snd (get_engines cfg w))).
Proof.
  rewrite get_engines_world. cbv zeta.
  destruct (dispose_engines_spec w) as (Dro & _ & _ & _ & Dos & _).
  destruct (pid_differs w) eqn:P.
  - rewrite Dro.
    destruct (init_engines_spec cfg (dispose_engines w))
      as (e & _ & _ & _ & Hpid & Hos & _).
    now rewrite Hos.
  - destruct (engine_ro w) as [e|] eqn:Q.
    + unfold pid_differs in P.
      destruct (engine_pid w) as [p|]; [|discriminate].
      apply negb_false_iff, Nat.eqb_eq in P. now subst.
    + destruct (init_engines_spec cfg w) as (e & _ & _ & _ & Hpid & Hos & _).
      now rewrite Hos.
Qed.

Lemma makers_current_ext w w' :
  engine_ro w' = engine_ro w -> engine_rw w' = engine_rw w ->
  _sessionmaker_ro w' = _sessionmaker_ro w ->
  _sessionmaker_rw w' = _sessionmaker_rw w ->
  makers_current w -> makers_current w'.
Proof.
  intros E1 E2 E3 E4 [M1 M2]. constructor; rewrite ?E1, ?E2, ?E3, ?E4; auto.
Qed.

Lemma makers_none_dispose_engines w :
  makers_current w ->
  _sessionmaker_ro (dispose_engines w) = None /\
  _sessionmaker_rw (dispose_engines w) = None.
Proof.
  intros [M1 M2]. destruct (dispose_engines_fields w) as (_ & _ & Ero & Erw).
  rewrite Ero, Erw. split.
  - destruct (engine_ro w) eqn:Q; auto.
    destruct (_sessionmaker_ro w) as [sm|]; auto.
    destruct (M1 sm eq_refl) as [_ N]. congruence.
  - destruct (engine_rw w) eqn:Q; auto.
    destruct (_sessionmaker_rw w) as [sm|]; auto.
    destruct (M2 sm eq_refl) as [_ N]. congruence.
Qed.

Lemma makers_current_dispose_engines w :
  makers_current w -> makers_current (dispose_engines w).
Proof.
  intros M. destruct (makers_none_dispose_engines w M) as [E1 E2].
  constructor; intros sm H; congruence.
Qed.

Lemma makers_current_init_engines w :
  makers_current w -> makers_current (init_engines cfg w).
Proof.
  intros M. destruct (makers_none_dispose_engines w M) as [E1 E2].
  destruct (init_engines_fields w) as (_ & Ero & Erw & _).
  constructor; intros sm H; congruence.
Qed.

Lemma makers_current_get_engines w :
  makers_current w -> makers_current (snd (get_engines cfg w)).
Proof.
  intros M.
  destruct (get_engines_cases cfg w) as [H|[H|[H|H]]]; rewrite H;
    auto using makers_current_dispose_engines, makers_current_init_engines.
Qed.

Lemma makers_current_Session readonly w :
  makers_current w -> makers_current (snd (Session cfg readonly w)).
Proof.
  intros M. apply makers_current_get_engines in M.
  pose proof (get_engines_ro_some cfg w) as Hro.
  rewrite Session_unfold. cbv zeta.
  set (w1 := snd (get_engines cfg w)) in *.
  set (w2 := set_engine_rw (engine_rw w1) (set_engine_ro (engine_ro w1) w1)).
  assert (M2 : makers_current w2)
    by (eapply makers_current_ext; [ | | | | exact M]; reflexivity).
  assert (Hro2 : engine_ro w2 <> None) by exact Hro.
  clearbody w2. clear M Hro.
  pose proof (maker_ro_current w2 M2) as Mro.
  pose proof (maker_rw_current w2 M2) as Mrw.
  destruct readonly.
  - destruct (_sessionmaker_ro w2) as [m|] eqn:Q; cbn [snd].
    + exact M2.
    + constructor; cbn.
      * intros m H. inversion H; subst. cbn. auto.
      * exact Mrw.
  - destruct (engine_rw w2) as [e|] eqn:Q; cbn [snd].
    + destruct (_sessionmaker_rw w2) as [m|] eqn:Q'; cbn [snd].
      * exact M2.
      * constructor; cbn.
        -- exact Mro.
        -- intros m H. inversion H; subst. cbn. rewrite Q. split; congruence.
    + exact M2.
Qed.

Lemma makers_current_create_tables tables engine w :
  makers_current w -> makers_current (snd (create_tables cfg tables engine w)).
Proof.
  intros M.
  destruct (create_tables_world_fields tables engine w)
    as [E|(E1 & E2 & _ & _ & E3 & E4)].
  - now rewrite E.
  - eapply makers_current_ext; eauto. now apply makers_current_get_engines.
Qed.

Lemma reachable_makers_current w : reachable cfg w -> makers_current w.
Proof.
  induction 1 as [pid cat meta | o w R IH].
  - unfold module_import. constructor; cbn; intros sm H; discriminate.
  - destruct o; cbn [exec].
    + now apply makers_current_get_engines.
    + now apply makers_current_init_engines.
    + now apply makers_current_dispose_engines.
    + now apply makers_current_Session.
    + now apply makers_current_create_tables.
    + unfold TableGroup_create_tables. destruct (engine_rw w); [|exact IH].
      destruct (group_tables tg (OrderedDict.keys (schemas tg))); [|exact IH].
      now apply makers_current_create_tables.
    + eapply makers_current_ext; [ | | | | exact IH]; reflexivity.
Qed.

(** What [Session] returns is what the session maker of its mode, as the
    call leaves it, makes. *)
Lemma Session_result readonly w s :
  fst (Session cfg readonly w) = Ok s ->
  make_session (if readonly
                then _sessionmaker_ro (snd (Session cfg readonly w))
                else _sessionmaker_rw (snd (Session cfg readonly w))) = Ok s.
Proof.
  rewrite Session_unfold. cbv zeta.
  set (w2 := set_engine_rw _ _).
  destruct readonly.
  - cbn [fst snd]. auto.
  - destruct (engine_rw w2); cbn [fst snd]; [auto | discriminate].
Qed.

End WithConfig.

(** X1.  A second [get_engines()] in the same process returns the engines
    the first one returned and changes none of the globals, whatever the
    globals were before the first call. *)
Theorem get_engines_idempotent cfg w :
  get_engines cfg (snd (get_engines cfg w)) =
  (fst (get_engines cfg w), snd (get_engines cfg w)).
Proof.
  assert (Stable : forall w1 e, engine_ro w1 = Some e ->
                                engine_pid w1 = Some (os_pid w1) ->
                                get_engines cfg w1 = ((engine_ro w1, engine_rw w1), w1)).
  { intros w1 e Hro Hpid.
    apply (EngineTheorems.get_engines_same_process cfg w1 (os_pid w1) e); auto. }
  rewrite get_engines_value.
  assert (H : exists e, engine_ro (snd (get_engines cfg w)) = Some e /\
                        engine_pid (snd (get_engines cfg w))
                          = Some (os_pid (snd (get_engines cfg w)))).
  { rewrite get_engines_world. cbv zeta.
    destruct (dispose_engines_spec w) as (Dro & _ & _ & _ & Dos & _).
    destruct (pid_differs w) eqn:P.
    - rewrite Dro.
      destruct (init_engines_spec cfg (dispose_engines w))
        as (e & Hro & _ & _ & Hpid & Hos & _).
      exists e. rewrite Hos. auto.
    - destruct (engine_ro w) as [e|] eqn:Q.
      + exists e. split; auto. unfold pid_differs in P.
        destruct (engine_pid w) as [p|]; [|discriminate].
        apply negb_false_iff, Nat.eqb_eq in P. now subst.
      + destruct (init_engines_spec cfg w) as (e & Hro & _ & _ & Hpid & Hos & _).
        exists e. rewrite Hos. auto. }
  destruct H as (e & Hro & Hpid). now apply (Stable _ e).
Qed.



End EngineAccounting.

Module SessionProperties.
Import Database DatabaseFacts SessionTheorems DefaultSession EngineAccounting.

(** X3.  In every state a process can reach, a session that [Session()]
    returns is bound to the engine of its mode that the call leaves in the
    globals; that engine has not been disposed and was created by the
    calling process. *)
Theorem Session_bound_to_live_engine cfg w readonly s :
  reachable cfg w ->
  fst (Session cfg readonly w) = Ok s ->
  exists e,
    session_bind s = Some e /\
    (if readonly
     then engine_ro (snd (Session cfg readonly w))
     else engine_rw (snd (Session cfg readonly w))) = Some e /\
    ~ In e (disposed (snd (Session cfg readonly w))) /\
    engine_pid (snd (Session cfg readonly w))
      = Some (os_pid (snd (Session cfg readonly w))).
Proof.
  intros R Hs.
  assert (R' : reachable cfg (snd (Session cfg readonly w)))
    by exact (reach_exec cfg (op_Session readonly) w R).
  pose proof (reachable_makers_current cfg _ R') as M.
  pose proof (reachable_accounted cfg _ R') as Acc.
  apply Session_result in Hs.
  destruct (Session_world_fields cfg readonly w) as (_ & _ & Epid & Eos & _).
  assert (Own : engine_pid (snd (Session cfg readonly w))
                = Some (os_pid (snd (Session cfg readonly w)))).
  { rewrite Epid, Eos. apply get_engines_owned. }
  set (w' := snd (Session cfg readonly w)) in *.
  assert (Live : forall e, (if readonly then engine_ro w' else engine_rw w') = Some e ->
                           In e (live w')).
  { intros e He. unfold live. destruct readonly; rewrite He.
    - now left.
    - apply in_or_app. right. now left. }
  destruct readonly.
  - destruct (_sessionmaker_ro w') as [m|] eqn:Q; [|discriminate Hs].
    destruct (maker_ro_current w' M m Q) as [Hb Hn].
    inversion Hs; subst s. cbn [session_bind]. rewrite Hb.
    destruct (engine_ro w') as [e|] eqn:Qe; [|congruence].
    exists e. repeat split; auto.
    apply accounted_live_not_disposed; auto.
  - destruct (_sessionmaker_rw w') as [m|] eqn:Q; [|discriminate Hs].
    destruct (maker_rw_current w' M m Q) as [Hb Hn].
    inversion Hs; subst s. cbn [session_bind]. rewrite Hb.
    destruct (engine_rw w') as [e|] eqn:Qe; [|congruence].
    exists e. repeat split; auto.
    apply accounted_live_not_disposed; auto.
Qed.

(** X3 for a read-write session asked for by a forked child. *)
Lemma Session_bound_to_live_engine_witness :
  let cfg := {| synphys_db := "synphys"; synphys_db_host := "postgresql://ro@host";
                synphys_db_host_rw := Some "postgresql://rw@host";
                sys_argv := ["pipeline"] |} in
  let w := exec cfg (op_fork 2)
             (exec cfg (op_Session false) (module_import cfg 1 (fun _ => []) [])) in
  reachable cfg w /\
  exists s e, fst (Session cfg false w) = Ok s /\ session_bind s = Some e /\
              ~ In e (disposed (snd (Session cfg false w))).
Proof.
  intros cfg w.
  assert (R : reachable cfg w) by (do 2 apply reach_exec; apply reach_import).
  split; [exact R|].
  assert (E : exists s, fst (Session cfg false w) = Ok s)
    by (vm_compute; eexists; reflexivity).
  destruct E as [s E].
  destruct (Session_bound_to_live_engine cfg w false s R E)
    as (e & Hb & _ & Hd & _).
  exists s, e. split; [exact E|]. split; [exact Hb | exact Hd].
Defined.

Lemma get_default_session_succeeds cfg st :
  exists s st',
    get_default_session cfg st = (Ok s, st') /\
    _default_session st' = Some s /\ rolled_back st' = rolled_back st /\
    (_default_session st = Some s -> st' = st).
Proof.
  unfold get_default_session.
  destruct (_default_session st) as [s|] eqn:Q.
  - exists s, st. auto.
  - destruct (Session_readonly_succeeds cfg (world st)) as [s Hs].
    destruct (Session cfg true (world st)) as [r w]. cbn [fst] in Hs. subst r.
    do 2 eexists. split; [reflexivity|]. cbn. repeat split. discriminate.
Qed.

(** X4.  A function decorated with [default_session] and called without a
    session receives the process-wide default session; when it returns or
    raises, the default session is rolled back once, after everything the
    function did, and the caller gets the function's own result or
    exception.  Called with a session, the function receives that session
    and the wrapper does nothing else. *)
Theorem default_session_rolled_back_after_call {A} cfg
    (fn : SessionObject -> State -> res A * State) (st : State) :
  (forall s0, wrap_with_session cfg fn (Some s0) st = fn s0 st) /\
  exists s st1 s' st3,
    get_default_session cfg st = (Ok s, st1) /\
    get_default_session cfg (snd (fn s st1)) = (Ok s', st3) /\
    wrap_with_session cfg fn None st = (fst (fn s st1), rollback s' st3) /\
    rolled_back (rollback s' st3) = (rolled_back (snd (fn s st1)) ++ [s'])%list /\
    (_default_session (snd (fn s st1)) = Some s -> s' = s /\ st3 = snd (fn s st1)).
Proof.
  split; [reflexivity|].
  destruct (get_default_session_succeeds cfg st) as (s & st1 & G1 & D1 & _).
  destruct (get_default_session_succeeds cfg (snd (fn s st1)))
    as (s' & st3 & G2 & D2 & Rb & Same).
  exists s, st1, s', st3.
  split; [exact G1|]. split; [exact G2|]. split; [|split].
  - unfold wrap_with_session. rewrite G1.
    destruct (fn s st1) as [ret st2]. cbn [fst snd] in *. rewrite G2. reflexivity.
  - cbn [rollback rolled_back]. now rewrite Rb.
  - intros H.
    assert (E : s' = s).
    { unfold get_default_session in G2. rewrite H in G2. now inversion G2. }
    subst s'. split; auto.
Qed.

(** X5.  The default session is not renewed after a fork: once the child
    has replaced the engines (by any [Session()] call), the session that
    [get_default_session()] keeps returning is still the one made in the
    parent, bound to an engine that is now disposed and no longer bound to
    a global. *)
Theorem default_session_stale_after_fork cfg st s e p0 child readonly :
  reachable cfg (world st) ->
  _default_session st = Some s ->
  session_bind s = Some e ->
  engine_ro (world st) = Some e ->
  engine_pid (world st) = Some p0 ->
  child <> p0 ->
  let w' := snd (Session cfg readonly (world (fork child st))) in
  let st' := {| world := w'; _default_session := _default_session st;
                rolled_back := rolled_back st |} in
  get_default_session cfg st' = (Ok s, st') /\
  In e (disposed w') /\ ~ In e (live w').
Proof.
  intros R D B Hro Hpid Hne w' st'.
  split; [unfold get_default_session; cbn; now rewrite D|].
  assert (R' : reachable cfg w').
  { apply (reach_exec cfg (op_Session readonly)).
    apply (reach_exec cfg (op_fork child)). exact R. }
  assert (Hd : In e (disposed w')).
  { unfold w'.
    destruct (Session_world_fields cfg readonly (world (fork child st)))
      as (_ & _ & _ & _ & Ed & _).
    rewrite Ed. cbn [fork world].
    assert (G : get_engines cfg (set_os_pid child (world st)) =
                let w1 := init_engines cfg (dispose_engines (set_os_pid child (world st))) in
                ((engine_ro w1, engine_rw w1), w1)).
    { apply (EngineTheorems.get_engines_after_fork cfg _ p0); auto. }
    rewrite G. cbn [snd].
    apply EngineTheorems.dispose_engines_disposed_twice.
    destruct (dispose_engines_spec (set_os_pid child (world st)))
      as (_ & _ & _ & _ & _ & _ & _ & _ & Din & _).
    apply Din. exact Hro. }
  split; [exact Hd|].
  intros Hl.
  exact (accounted_live_not_disposed w' e (reachable_accounted cfg w' R') Hl Hd).
Qed.

(** X5 for the default session made at import time in process 1 and used
    in a child with process id 2. *)
Lemma default_session_stale_after_fork_witness :
  let cfg := {| synphys_db := "synphys"; synphys_db_host := "postgresql://ro@host";
                synphys_db_host_rw := None; sys_argv := ["pipeline"] |} in
  let st := snd (get_default_session cfg
                   {| world := module_import cfg 1 (fun _ => []) [];
                      _default_session := None; rolled_back := [] |}) in
  exists s e,
    _default_session st = Some s /\ session_bind s = Some e /\
    In e (disposed (snd (Session cfg true (world (fork 2 st))))).
Proof.
  intros cfg st.
  assert (Ew : world st =
               exec cfg (op_Session true) (module_import cfg 1 (fun _ => []) []))
    by (vm_compute; reflexivity).
  assert (R : reachable cfg (world st)).
  { rewrite Ew. apply reach_exec, reach_import. }
  assert (E : exists s e,
             _default_session st = Some s /\ session_bind s = Some e /\
             engine_ro (world st) = Some e /\ engine_pid (world st) = Some 1)
    by (vm_compute; do 2 eexists; repeat split).
  destruct E as (s & e & D & B & Hro & Hpid).
  assert (Hne : 2 <> 1) by discriminate.
  exists s, e. split; [exact D|]. split; [exact B|].
  exact (proj1 (proj2 (default_session_stale_after_fork cfg st s e 1 2 true
                         R D B Hro Hpid Hne))).
Defined.

End SessionProperties.

(* ===================================================================== *)
(** ** Table groups: construction, dropping, vacuum                      *)
(* ===================================================================== *)
Module AdminFacts.
Import Database DatabaseFacts SessionTheorems Admin CollectFacts.





Lemma mappings_of_get tables name :
  OrderedDict.get (mappings_of tables) name =
  if str_mem name (map table_name tables)
  then Some {| table_name := name |} else None.
Proof.
  unfold mappings_of.
  destruct (str_mem name (map table_name tables)) eqn:M.
  - apply str_mem_In in M. apply collect_get_unique.
    + right. apply in_map_iff in M. destruct M as ([n] & E & Hin).
      cbn in E. subst n. apply in_map_iff.
      exists {| table_name := name |}. auto.
    + intros v' Hin. apply in_map_iff in Hin. destruct Hin as ([n] & E & _).
      inversion E; subst. reflexivity.
  - apply str_mem_not_In in M.
    destruct (OrderedDict.get _ name) as [t|] eqn:G; auto.
    apply collect_get_Some in G. destruct G as [G|G]; [|discriminate G].
    apply in_map_iff in G. destruct G as (t' & E & Hin). inversion E; subst.
    exfalso. apply M. now apply in_map.
Qed.



End AdminFacts.

Module AdminTheorems.
Import Database DatabaseFacts SessionTheorems Admin AdminFacts.




End AdminTheorems.

Module AdminWitnesses.
Import Database DatabaseFacts SessionTheorems Admin AdminFacts.

Lemma keyed_by_name_mappings_of sch ts :
  keyed_by_name {| schemas := sch; mappings := mappings_of ts |}.
Proof.
  intros k t. cbn [mappings]. rewrite mappings_of_get.
  destruct (str_mem k (map table_name ts)); [|discriminate].
  intros E. inversion E. reflexivity.
Qed.

Lemma vacuum_world cfg tables sv :
  world (snd (vacuum cfg tables sv)) = snd (get_engines cfg (world sv)).
Proof.
  unfold vacuum. destruct (get_engines cfg (world sv)) as [[ro [e|]] w]; reflexivity.
Qed.

End AdminWitnesses.

Module GroupTheorems.
Import Database DatabaseFacts SessionTheorems Admin AdminFacts AdminWitnesses.


(** X8.  A table group built from a list of tables keeps the declared
    schemas, is keyed by table name, and looks up exactly the names of
    the tables it was given: [group[name]] is the table called [name] when
    there is one and raises [KeyError(name)] otherwise.  Built without
    tables, construction succeeds with no mapping only when the class
    declares no schema; with any schema it raises NameError, since
    [create_mappings] calls a function the module does not define. *)
Theorem TableGroup_init_lookup sch :
  (forall ts, exists tg,
     TableGroup_init sch (Some ts) = Ok tg /\
     schemas tg = sch /\
     keyed_by_name tg /\
     forall name,
       getitem tg name =
       if str_mem name (map table_name ts)
       then Ok {| table_name := name |} else Raise (KeyError name))
  /\
  TableGroup_init sch None =
    match sch with
    | [] => Ok {| schemas := []; mappings := OrderedDict.empty |}
    | _ :: _ => Raise (NameError "generate_mapping")
    end.
Proof.
  split.
  - intros ts. eexists. split; [reflexivity|]. split; [reflexivity|].
    split; [apply keyed_by_name_mappings_of|].
    intros name. unfold getitem. cbn [mappings]. rewrite mappings_of_get.
    destruct (str_mem name (map table_name ts)); reflexivity.
  - destruct sch; reflexivity.
Qed.



(** X10.  [bake_sqlite] never gets past its call
    [create_tables(engine=sqlite_engine)]: whatever the state and the
    target file, it raises UnboundLocalError; none of the statements after
    the call runs, no table is created in any database, and the only trace
    is the engine made for the sqlite file. *)
Theorem bake_sqlite_raises {A} cfg sqlite_file (rest : Engine -> World -> res A * World) w :
  fst (bake_sqlite cfg sqlite_file rest w) = Raise (UnboundLocalError "engine_rw") /\
  catalog (snd (bake_sqlite cfg sqlite_file rest w)) = catalog w /\
  statements (snd (bake_sqlite cfg sqlite_file rest w)) = statements w /\
  engine_ro (snd (bake_sqlite cfg sqlite_file rest w)) = engine_ro w /\
  engine_rw (snd (bake_sqlite cfg sqlite_file rest w)) = engine_rw w /\
  engines_created (snd (bake_sqlite cfg sqlite_file rest w)) = S (engines_created w).
Proof. unfold bake_sqlite, create_engine, create_tables. cbn. repeat split. Qed.

End GroupTheorems.

(* ===================================================================== *)
(** ** The reader thread on any table                                    *)
(* ===================================================================== *)
Module ReaderFacts.
Import Exporter ExporterFacts ChunkFacts.

Section AnyTable.
Variable Payload : Type.
Variable rows : list (Row Payload).
Variable size : Z.
Local Abbreviation s0 := (TableReadThread rows size).

Lemma range_ok M :
  func_max rows = Some M -> size <> 0%Z ->
  range 0 (func_max rows) size = Ok (py_range 0 M size).
Proof.
  intros -> Hc. unfold range. destruct (Z.eqb_spec size 0); [contradiction | reflexivity].
Qed.

Lemma range_raises_iff :
  (exists e, range 0 (func_max rows) size = Raise e) <-> rows = [] \/ size = 0%Z.
Proof.
  split.
  - intros [e He]. destruct rows as [|r rs]; [now left|]. right.
    cbn [func_max range] in He. destruct (Z.eqb_spec size 0); [assumption | discriminate].
  - intros [->| ->].
    + cbn. eauto.
    + destruct (func_max rows); cbn; eauto.
Qed.

(** When [range] raises in the thread, nothing is ever queued. *)
Lemma crashed_invariant err s :
  range 0 (func_max rows) size = Raise err ->
  reachable s0 s ->
  queue s = [] /\ consumer s = CGet /\ dest s = [] /\
  queries s = [QueryMaxId] /\
  (thread s = PStart \/ thread s = PCrashed err).
Proof.
  intros He R.
  assert (Inv : queue s = [] /\ consumer s = CGet /\ dest s = [] /\
                queries s = [QueryMaxId] /\
                max_id s = func_max rows /\ chunksize s = size /\
                (thread s = PStart \/ thread s = PCrashed err)).
  { revert s R. apply reachable_ind'.
    - repeat split; auto.
    - intros s s' St (Q & C & D & L & Mx & Ch & T).
      step_inv St; cbn [thread queue consumer dest queries max_id chunksize] in *;
        subst; try discriminate; try (destruct T as [T|T]; discriminate).
      rewrite He. repeat split; auto. }
  tauto.
Qed.

(** With a maximum id and a chunk size other than zero, the scheduler
    brings the export to its end within [measure s0] steps. *)
Lemma run_finished M :
  func_max rows = Some M -> size <> 0%Z ->
  finished (run (measure s0) s0).
Proof.
  intros Hmax Hc.
  pose proof (range_ok M Hmax Hc) as Hr.
  destruct (export_complete _ _ _ _ Hr (run (measure s0) s0) (run_reachable _ _ _))
    as [St|(F & _)]; [|exact F].
  exfalso. apply (stuck_no_step _ (run (measure s0) s0)); [|exact St].
  apply run_stuck. apply Nat.le_refl.
Qed.

Lemma measure_start :
  measure s0 =
  3 + List.length (flat_map (fun i => query_all rows i (i + size)) (chunks s0))
    + 4 * List.length (chunks s0).
Proof.
  unfold measure. rewrite future_weight_length. unfold chunk_rows.
  cbn [TableReadThread thread queue consumer table chunksize map list_sum fold_right].
  lia.
Qed.

End AnyTable.

Lemma filter_disjoint_app {A} (p q : A -> bool) (l : list A) :
  (forall x, In x l -> p x = true -> q x = false) ->
  Permutation (filter p l ++ filter q l) (filter (fun x => p x || q x) l).
Proof.
  induction l as [|a l IH]; intros D; cbn [filter app]; [constructor|].
  assert (IH' := IH (fun x Hx => D x (or_intror Hx))).
  destruct (p a) eqn:Pa; cbn [orb].
  - rewrite (D a (or_introl eq_refl) Pa). cbn [app]. now constructor.
  - destruct (q a).
    + etransitivity; [symmetry; apply Permutation_middle|]. now constructor.
    + exact IH'.
Qed.

(** The rows of the first [n] chunks, whatever the order of the table. *)
Lemma chunks_cover_permutation {Payload} (tbl : list (Row Payload)) (c : Z) (n : nat) :
  (0 < c)%Z ->
  Permutation
    (flat_map (fun i => query_all tbl i (i + c))
              (map (fun k => (0 + Z.of_nat k * c)%Z) (seq 0 n)))
    (filter (fun r => (0 <=? id r)%Z && (id r <? Z.of_nat n * c)%Z) tbl).
Proof.
  intros Hc. induction n as [|n IH].
  - cbn [seq map flat_map]. rewrite filter_none; [constructor|].
    intros r _. apply andb_false_iff.
    destruct (Z.leb_spec 0 (id r)); [right|now left]. apply Z.ltb_ge. lia.
  - rewrite seq_S, map_app, flat_map_app. cbn [map flat_map Nat.add].
    rewrite app_nil_r.
    etransitivity; [apply Permutation_app_tail, IH|].
    unfold query_all.
    etransitivity; [apply filter_disjoint_app|].
    + intros r _ H. apply andb_true_iff in H. destruct H as [_ H].
      apply Z.ltb_lt in H. apply andb_false_iff. left. apply Z.leb_gt. lia.
    + erewrite filter_ext; [reflexivity|].
      intros r. cbv beta.
      destruct (Z.leb_spec 0 (id r)), (Z.ltb_spec (id r) (Z.of_nat n * c)),
               (Z.leb_spec (0 + Z.of_nat n * c) (id r)),
               (Z.ltb_spec (id r) (0 + Z.of_nat n * c + c)),
               (Z.ltb_spec (id r) (Z.of_nat (S n) * c)); cbn; try reflexivity; lia.
Qed.

(** A chunk of negative size holds no row. *)
Lemma query_all_backwards {Payload} (tbl : list (Row Payload)) (lo hi : Z) :
  (hi <= lo)%Z -> query_all tbl lo hi = [].
Proof.
  intros H. apply filter_none. intros r _. apply andb_false_iff.
  destruct (Z.leb_spec lo (id r)); [right|now left]. apply Z.ltb_ge. lia.
Qed.

Lemma flat_map_nil {A B} (f : A -> list B) (l : list A) :
  (forall x, In x l -> f x = []) -> flat_map f l = [].
Proof.
  induction l as [|a l IH]; intros H; cbn [flat_map]; [reflexivity|].
  rewrite (H a (or_introl eq_refl)), IH; [reflexivity|].
  intros x Hx. apply H. now right.
Qed.

(** On a table stored in id order the rows from [a] up follow those
    below [a]. *)
Lemma sorted_split {Payload} (tbl : list (Row Payload)) (a b : Z) :
  sorted_by_id tbl -> (forall r, In r tbl -> (id r < b)%Z) -> (a <= b)%Z ->
  tbl = (filter (fun r => (id r <? a)%Z) tbl ++ query_all tbl a b)%list.
Proof.
  intros Hs Hlt Ha. rewrite query_all_adjacent by assumption.
  symmetry. apply filter_all. intros r Hr. apply Z.ltb_lt. now apply Hlt.
Qed.

End ReaderFacts.

Module ReaderTheorems.
Import Exporter ExporterFacts ChunkFacts ReaderFacts.

(** X11.  On a table that is not empty, read with a chunk size other than
    zero, the export always ends: no interleaving of the reader thread and
    the consuming loop takes more steps than three, plus one per row
    delivered, plus four per chunk; a state in which neither can move is
    one where the consumer has left its loop, so the two never block each
    other on the bounded queue; and the scheduler that prefers the thread
    reaches that end. *)
Theorem export_terminates (Payload : Type) (tbl : list (Row Payload)) (c M : Z) :
  func_max tbl = Some M -> c <> 0%Z ->
  let s0 := TableReadThread tbl c in
  let bound := 3 + List.length (flat_map (fun i => query_all tbl i (i + c))
                                         (py_range 0 M c))
                 + 4 * Z.to_nat (range_length 0 M c) in
  (forall n s, steps n s0 s -> n <= bound) /\
  (forall s, reachable s0 s -> stuck s -> finished s) /\
  finished (run bound s0).
Proof.
  intros Hmax Hc s0 bound.
  pose proof (range_ok _ tbl c M Hmax Hc) as Hr.
  assert (B : measure s0 = bound).
  { unfold s0. rewrite measure_start. unfold chunks. cbn [max_id chunksize TableReadThread].
    rewrite Hr. unfold bound, py_range at 2. now rewrite length_map, length_seq. }
  split; [|split].
  - intros n s St. apply steps_measure in St. lia.
  - intros s R Stk.
    destruct (export_complete _ _ _ _ Hr s R) as [St|(F & _)]; [|exact F].
    exfalso. exact (stuck_no_step _ s Stk St).
  - rewrite <- B. exact (run_finished _ tbl c M Hmax Hc).
Qed.

(** X11 on five rows read in chunks of two. *)
Lemma export_terminates_witness :
  let tbl := map (fun i => {| id := Z.of_nat i; columns := tt |}) (seq 1 5) in
  finished (run 20 (TableReadThread tbl 2)).
Proof.
  intros tbl.
  assert (Hmax : func_max tbl = Some 5%Z) by reflexivity.
  assert (Hc : 2%Z <> 0%Z) by discriminate.
  exact (proj2 (proj2 (export_terminates unit tbl 2 5 Hmax Hc))).
Defined.

(** X12.  Whatever the order in which the table is stored, with a positive
    chunk size the finished export holds each row whose id is at least 0
    and below the end of the last chunk exactly once, and no other row:
    the destination is a permutation of those rows.  Rows with a negative
    id are never exported. *)
Theorem export_each_row_once (Payload : Type) (tbl : list (Row Payload)) (c M : Z) s :
  func_max tbl = Some M -> (0 < c)%Z ->
  reachable (TableReadThread tbl c) s -> finished s ->
  Permutation (dest s)
    (filter (fun r => (0 <=? id r)%Z && (id r <? range_length 0 M c * c)%Z) tbl) /\
  (forall r, In r (dest s) -> (0 <= id r)%Z).
Proof.
  intros Hmax Hc R F.
  assert (Hr : range 0 (func_max tbl) c = Ok (py_range 0 M c))
    by (apply range_ok; [assumption | lia]).
  destruct (start_invariants _ _ _ _ Hr s R) as (S & _ & E & _).
  destruct (finished_all_delivered _ s S F) as (_ & D & _).
  rewrite D in E. unfold py_range in E.
  assert (P : Permutation (dest s)
    (filter (fun r => (0 <=? id r)%Z && (id r <? range_length 0 M c * c)%Z) tbl)).
  { rewrite E.
    pose proof (chunks_cover_permutation tbl c (Z.to_nat (range_length 0 M c)) Hc) as P.
    rewrite Z2Nat.id in P by apply range_length_nonneg. exact P. }
  split; [exact P|].
  intros r Hin. apply (Permutation_in _ P) in Hin.
  apply filter_In in Hin. destruct Hin as [_ Hin].
  apply andb_true_iff in Hin. destruct Hin as [Hin _]. now apply Z.leb_le.
Qed.

(** X12 on rows stored out of order, one of them with a negative id. *)
Lemma export_each_row_once_witness :
  let tbl := [ {| id := 4; columns := tt |}; {| id := -1; columns := tt |};
               {| id := 1; columns := tt |}; {| id := 3; columns := tt |} ] in
  let s := run 30 (TableReadThread tbl 3) in
  finished s /\
  Permutation (dest s)
    [ {| id := 4; columns := tt |}; {| id := 1; columns := tt |};
      {| id := 3; columns := tt |} ].
Proof.
  intros tbl s.
  assert (F : finished s) by reflexivity.
  split; [exact F|].
  assert (R : reachable (TableReadThread tbl 3) s) by apply run_reachable.
  assert (Hmax : func_max tbl = Some 4%Z) by reflexivity.
  assert (Hc : (0 < 3)%Z) by lia.
  exact (proj1 (export_each_row_once unit tbl 3 4 s Hmax Hc R F)).
Defined.

(** X13.  A table stored in id order with no negative id, read with a
    positive chunk size: the finished export is the table itself, in
    order, up to a tail of missing rows; every missing row carries the
    maximum id, and rows are missing only when the chunk size divides the
    maximum id. *)
Theorem sorted_export_loses_only_max_id_rows (Payload : Type)
    (tbl : list (Row Payload)) (c M : Z) s :
  sorted_by_id tbl -> (forall r, In r tbl -> (0 <= id r)%Z) ->
  func_max tbl = Some M -> (0 < c)%Z ->
  reachable (TableReadThread tbl c) s -> finished s ->
  exists missing,
    tbl = (dest s ++ missing)%list /\
    (forall r, In r missing -> id r = M) /\
    (missing <> [] -> (M mod c = 0)%Z).
Proof.
  intros Hs Hpos Hmax Hc R F.
  destruct (export_sorted_table tbl c M s Hs Hpos Hmax Hc R F) as [E _].
  destruct (func_max_spec _ tbl M Hmax) as [(r0 & Hr0 & Hid0) Hle].
  assert (HM : (0 <= M)%Z) by (specialize (Hpos r0 Hr0); lia).
  assert (Cov : (M <= range_length 0 M c * c)%Z /\
                ((M mod c <> 0)%Z -> (M < range_length 0 M c * c)%Z)).
  { destruct (Z.eq_dec M 0) as [->|N].
    - split; [unfold range_length; destruct (0 <? c)%Z; cbn; lia|].
      intros H. exfalso. apply H. apply Z.mod_0_l. lia.
    - apply range_length_covers; lia. }
  destruct Cov as [Cov1 Cov2].
  exists (query_all tbl (range_length 0 M c * c)
                        (Z.max (range_length 0 M c * c) (M + 1))).
  split; [|split].
  - rewrite E. apply sorted_split; [assumption | | lia].
    intros r Hr. specialize (Hle r Hr). lia.
  - intros r Hr. apply In_query_all in Hr. destruct Hr as [Hin Hr].
    specialize (Hle r Hin). lia.
  - intros Hne. destruct (Z.eq_dec (M mod c) 0) as [Z0|NZ]; [exact Z0|].
    exfalso. apply Hne. apply filter_none. intros r Hr.
    specialize (Hle r Hr). specialize (Cov2 NZ).
    apply andb_false_iff. left. apply Z.leb_gt. lia.
Qed.

(** X13 on ids 1 to 4 read in chunks of two: the row with id 4 is lost. *)
Lemma sorted_export_loses_only_max_id_rows_witness :
  let tbl := map (fun i => {| id := Z.of_nat i; columns := tt |}) (seq 1 4) in
  let s := run 30 (TableReadThread tbl 2) in
  finished s /\
  exists missing,
    tbl = (dest s ++ missing)%list /\ (forall r, In r missing -> id r = 4%Z).
Proof.
  intros tbl s.
  assert (F : finished s) by reflexivity.
  split; [exact F|].
  assert (R : reachable (TableReadThread tbl 2) s) by apply run_reachable.
  assert (Hs : sorted_by_id tbl) by apply sorted_by_id_map_seq.
  assert (Hpos : forall r, In r tbl -> (0 <= id r)%Z).
  { intros r Hr. apply in_map_iff in Hr. destruct Hr as (i & <- & _). cbn. lia. }
  assert (Hmax : func_max tbl = Some 4%Z) by reflexivity.
  assert (Hc : (0 < 2)%Z) by lia.
  destruct (sorted_export_loses_only_max_id_rows unit tbl 2 4 s Hs Hpos Hmax Hc R F)
    as (missing & E & Hid & _).
  exists missing. split; [exact E | exact Hid].
Defined.

(** X14.  With a negative chunk size, or with a maximum id of zero or
    less, the export of a table that holds rows runs to its end and
    delivers none of them: the thread queues only empty batches and the
    closing None, the consumer leaves its loop, and no exception is
    raised. *)
Theorem export_silently_empty (Payload : Type) (tbl : list (Row Payload)) (c M : Z) :
  func_max tbl = Some M -> c <> 0%Z ->
  (c < 0 \/ M <= 0)%Z ->
  let s0 := TableReadThread tbl c in
  (forall s, reachable s0 s ->
     dest s = [] /\ forall e, thread s <> PCrashed e) /\
  finished (run (measure s0) s0).
Proof.
  intros Hmax Hc Hneg s0.
  pose proof (range_ok _ tbl c M Hmax Hc) as Hr.
  split; [|exact (run_finished _ tbl c M Hmax Hc)].
  intros s R.
  destruct (export_prefix _ _ _ _ Hr s R) as [_ [later E]].
  destruct (start_invariants _ _ _ _ Hr s R) as (_ & NC & _).
  split.
  - assert (Z0 : flat_map (fun i => query_all tbl i (i + c)) (py_range 0 M c) = []).
    { destruct (Z_lt_dec c 0) as [Lt|Ge].
      - apply flat_map_nil. intros i _. apply query_all_backwards. lia.
      - assert (L : range_length 0 M c = 0%Z).
        { unfold range_length. destruct (Z.ltb_spec 0 c); [|lia].
          destruct (Z.ltb_spec 0 M); [lia | reflexivity]. }
        unfold py_range. rewrite L. reflexivity. }
    rewrite Z0 in E. now apply app_eq_nil in E.
  - intros e T. unfold not_crashed in NC. now rewrite T in NC.
Qed.

End ReaderTheorems.

Module ReaderEdgeTheorems.
Import Exporter ExporterFacts ChunkFacts ReaderFacts.

(** X14 on a table whose only row has id 0. *)
Lemma export_silently_empty_witness :
  let tbl := [ {| id := 0; columns := tt |} ] in
  let s0 := TableReadThread tbl 1000 in
  finished (run (measure s0) s0) /\ dest (run (measure s0) s0) = [].
Proof.
  intros tbl s0.
  assert (Hmax : func_max tbl = Some 0%Z) by reflexivity.
  assert (Hc : 1000%Z <> 0%Z) by discriminate.
  assert (Hneg : (1000 < 0 \/ 0 <= 0)%Z) by (right; lia).
  destruct (ReaderTheorems.export_silently_empty unit tbl 1000 0 Hmax Hc Hneg) as [H F].
  split; [exact F|].
  exact (proj1 (H _ (run_reachable _ _ _))).
Defined.

(** X15.  The consuming loop can leave [for rec in reader] exactly when
    the table holds a row and the chunk size is not zero.  With a chunk
    size of zero on a table that holds rows, [range] raises ValueError in
    the reader thread: in every state that can be reached nothing was
    queued or delivered, the thread has not started its loop or has ended
    with that ValueError, and the consumer has not left its loop. *)
Theorem export_ends_iff (Payload : Type) (tbl : list (Row Payload)) (c : Z) :
  let s0 := TableReadThread tbl c in
  ((exists s, reachable s0 s /\ finished s) <-> tbl <> [] /\ c <> 0%Z) /\
  (tbl <> [] -> c = 0%Z ->
   forall s, reachable s0 s ->
     queue s = [] /\ dest s = [] /\ ~ finished s /\
     (thread s = PStart \/
      thread s = PCrashed (ValueError "range() arg 3 must not be zero"))).
Proof.
  intros s0.
  assert (Never : forall e, range 0 (func_max tbl) c = Raise e ->
                  forall s, reachable s0 s -> ~ finished s).
  { intros e He s R F.
    destruct (crashed_invariant _ tbl c e s He R) as (_ & C & _).
    unfold finished in F. congruence. }
  split; [split|].
  - intros (s & R & F).
    split.
    + intros ->. exact (Never _ eq_refl s R F).
    + intros ->.
      destruct (proj2 (range_raises_iff _ tbl 0) (or_intror eq_refl)) as [e He].
      exact (Never e He s R F).
  - intros [Ht Hc]. destruct tbl as [|r rs] eqn:Q; [contradiction|].
    exists (run (measure s0) s0). split; [apply run_reachable|].
    exact (run_finished _ (r :: rs) c _ eq_refl Hc).
  - intros Ht -> s R.
    assert (He : range 0 (func_max tbl) 0 =
                 Raise (ValueError "range() arg 3 must not be zero")).
    { destruct tbl as [|r rs]; [contradiction | reflexivity]. }
    destruct (crashed_invariant _ tbl 0 _ s He R) as (Q & C & D & _ & T).
    repeat split; auto. exact (Never _ He s R).
Qed.

End ReaderEdgeTheorems.

(* ===================================================================== *)
(** ** Invalidation of experiment records; the opto csv loader           *)
(* ===================================================================== *)
Module JobRecordFacts.
Import Pipeline JobRecords InvalidationTheorems.

Lemma In_records (f : ExperimentRow -> string) db deps e :
  In e (filter (fun e => str_mem (f e) deps) (db_Experiment db)) <->
  In e (db_Experiment db) /\ In (f e) deps.
Proof. rewrite filter_In, str_mem_In. tauto. Qed.

(** The records of the dependent job ids of [job_ids]. *)
Lemma records_of_dependents (f : ExperimentRow -> string) db job_ids e :
  In e (filter (fun e => str_mem (f e)
                  (map (fun rec => f (fst rec)) (filter_slice_in job_ids (join_Slice db))))
               (db_Experiment db)) <->
  In e (db_Experiment db) /\
  exists e' slice_job,
    computed_against db e' slice_job /\ In slice_job job_ids /\ f e' = f e.
Proof. rewrite In_records, In_dependent_ids. tauto. Qed.

End JobRecordFacts.

Module JobRecordTheorems.
Import Pipeline JobRecords InvalidationTheorems JobRecordFacts.

(** X16.  Invalidating slice jobs deletes every experiment record that was
    computed against one of them.  In both pipelines, the records that
    [job_records] returns for the ids [dependent_job_ids] reports include
    each experiment record whose slice is among the changed jobs; every
    record returned shares its job id with such a record; and when job ids
    name the records of the experiment table one to one, the records
    returned are exactly the dependent ones. *)
Theorem invalidation_covers_dependents self module db job_ids :
  (type_of module = SlicePipelineModule ->
   exists recs,
     multipatch_invalidated self module db job_ids = Ok recs /\
     (forall e slice_job,
        computed_against db e slice_job -> In slice_job job_ids -> In e recs) /\
     (forall e, In e recs ->
        exists e' slice_job,
          computed_against db e' slice_job /\ In slice_job job_ids /\
          acq_timestamp e' = acq_timestamp e) /\
     ((forall e1 e2, In e1 (db_Experiment db) -> In e2 (db_Experiment db) ->
                     acq_timestamp e1 = acq_timestamp e2 -> e1 = e2) ->
      forall e, In e recs <->
                exists slice_job, computed_against db e slice_job /\ In slice_job job_ids))
  /\
  (type_of module = OptoSlicePipelineModule ->
   exists recs,
     opto_invalidated self module db job_ids = Ok recs /\
     (forall e slice_job,
        computed_against db e slice_job -> In slice_job job_ids -> In e recs) /\
     (forall e, In e recs ->
        exists e' slice_job,
          computed_against db e' slice_job /\ In slice_job job_ids /\
          ext_id e' = ext_id e) /\
     ((forall e1 e2, In e1 (db_Experiment db) -> In e2 (db_Experiment db) ->
                     ext_id e1 = ext_id e2 -> e1 = e2) ->
      forall e, In e recs <->
                exists slice_job, computed_against db e slice_job /\ In slice_job job_ids)).
Proof.
  split; intros T.
  - unfold multipatch_invalidated, Pipeline.Multipatch.dependent_job_ids.
    rewrite T. cbn [class_mem existsb Pipeline.Multipatch.dependencies
                    ModuleClass_eqb orb negb res_bind].
    eexists. split; [reflexivity|]. unfold Multipatch.job_records.
    split; [|split].
    + intros e sj C Hin. apply records_of_dependents.
      split; [apply C|]. exists e, sj. auto.
    + intros e He. apply records_of_dependents in He. tauto.
    + intros U e. rewrite (records_of_dependents acq_timestamp). split.
      * intros (Hin & e' & sj & C & Hj & E).
        assert (e' = e) by (apply U; auto; apply C). subst e'. eauto.
      * intros (sj & C & Hj). split; [apply C|]. exists e, sj. auto.
  - unfold opto_invalidated, Pipeline.Opto.dependent_job_ids.
    rewrite T. cbn [class_mem existsb Pipeline.Opto.dependencies
                    ModuleClass_eqb orb negb res_bind].
    eexists. split; [reflexivity|]. unfold Opto.job_records.
    split; [|split].
    + intros e sj C Hin. apply records_of_dependents.
      split; [apply C|]. exists e, sj. auto.
    + intros e He. apply records_of_dependents in He. tauto.
    + intros U e. rewrite (records_of_dependents ext_id). split.
      * intros (Hin & e' & sj & C & Hj & E).
        assert (e' = e) by (apply U; auto; apply C). subst e'. eauto.
      * intros (sj & C & Hj). split; [apply C|]. exists e, sj. auto.
Qed.

(** X16 on two experiments of two slices, of which one slice changed. *)
Lemma invalidation_covers_dependents_witness :
  let self := {| type_of := ExperimentPipelineModule; str := "experiment" |} in
  let module := {| type_of := SlicePipelineModule; str := "slice" |} in
  let ea := {| experiment_id := 1; acq_timestamp := "101.000";
               ext_id := "expt_a"; experiment_slice_id := Some 1 |} in
  let eb := {| experiment_id := 2; acq_timestamp := "201.000";
               ext_id := "expt_b"; experiment_slice_id := Some 2 |} in
  let db := {| db_Slice := [{| slice_id := 1; slice_acq_timestamp := "100.000";
                               storage_path := "a" |};
                            {| slice_id := 2; slice_acq_timestamp := "200.000";
                               storage_path := "b" |}];
               db_Experiment := [ea; eb] |} in
  exists recs,
    multipatch_invalidated self module db ["200.000"] = Ok recs /\ In eb recs.
Proof.
  intros self module ea eb db.
  destruct (proj1 (invalidation_covers_dependents self module db ["200.000"]) eq_refl)
    as (recs & E & Cover & _).
  exists recs. split; [exact E|].
  apply (Cover eb "200.000").
  - split; [right; left; reflexivity|].
    eexists. split; [right; left; reflexivity|]. split; reflexivity.
  - left; reflexivity.
Defined.

End JobRecordTheorems.

Module OptoLoaderFacts.
Import Pipeline Pipeline.Opto OptoLoader.

Lemma prefix_refl s : String.prefix s s = true.
Proof.
  induction s as [|a s IH]; cbn; [reflexivity|].
  destruct (Ascii.ascii_dec a a); [exact IH | contradiction].
Qed.

(** A string contains itself. *)
Lemma contains_refl s : contains s s = true.
Proof. destruct s; cbn [contains]; rewrite prefix_refl; reflexivity. Qed.

Lemma enumerate_app {A} k (l1 l2 : list A) :
  enumerate k (l1 ++ l2) = (enumerate k l1 ++ enumerate (k + List.length l1) l2)%list.
Proof.
  unfold enumerate. revert k. induction l1 as [|a l1 IH]; intros k.
  - cbn. now rewrite Nat.add_0_r.
  - cbn [app List.length seq combine]. rewrite IH. cbn.
    now rewrite Nat.add_succ_r.
Qed.

Lemma filter_enumerate_none {A} (p : nat * A -> bool) (q : A -> bool) k (l : list A) :
  (forall i a, p (i, a) = q a) ->
  (forall x, In x l -> q x = false) ->
  filter p (enumerate k l) = [].
Proof.
  intros Hp. unfold enumerate. revert k.
  induction l as [|a l IH]; intros k H; [reflexivity|].
  cbn [List.length seq combine filter]. rewrite Hp, (H a (or_introl eq_refl)).
  apply IH. intros x Hx. apply H. now right.
Qed.

Lemma set_entry_middle (l1 l2 : list Entry) e e' :
  set_entry (List.length l1) e' (l1 ++ e :: l2) = (l1 ++ e' :: l2)%list.
Proof.
  unfold set_entry. induction l1 as [|a l1 IH]; [reflexivity|].
  cbn [List.length app firstn]. change (skipn (S (S (List.length l1))) (a :: l1 ++ e :: l2))
    with (skipn (S (List.length l1)) (l1 ++ e :: l2)).
  cbn [app]. now rewrite IH.
Qed.

(** The matches when exactly one entry has the job id in its name. *)
Lemma matches_unique job_id l1 e l2 :
  contains job_id (experiment (row e)) = true ->
  (forall x, In x l1 \/ In x l2 -> contains job_id (experiment (row x)) = false) ->
  matches job_id (l1 ++ e :: l2) = [(List.length l1, e)].
Proof.
  intros He Hn. unfold matches.
  rewrite enumerate_app, filter_app.
  rewrite (filter_enumerate_none _ (fun x => contains job_id (experiment (row x))))
    by (auto; intros x Hx; apply Hn; now left).
  cbn [app]. unfold enumerate at 1.
  cbn [List.length seq combine filter snd Nat.add]. rewrite He.
  fold (enumerate (S (List.length l1)) l2).
  rewrite (filter_enumerate_none _ (fun x => contains job_id (experiment (row x))))
    by (auto; intros x Hx; apply Hn; now right).
  reflexivity.
Qed.

(** At least two matches when two entries have the job id in their name. *)
Lemma matches_ambiguous job_id l1 e1 l2 e2 l3 :
  contains job_id (experiment (row e1)) = true ->
  contains job_id (experiment (row e2)) = true ->
  2 <= List.length (matches job_id (l1 ++ e1 :: l2 ++ e2 :: l3)).
Proof.
  intros H1 H2. unfold matches.
  rewrite enumerate_app, filter_app, length_app.
  unfold enumerate at 2. cbn [List.length seq combine filter snd]. rewrite H1.
  cbn [List.length].
  fold (enumerate (S (0 + List.length l1)) (l2 ++ e2 :: l3)).
  rewrite enumerate_app, filter_app, length_app.
  unfold enumerate at 3. cbn [List.length seq combine filter snd]. rewrite H2.
  cbn [List.length]. lia.
Qed.

End OptoLoaderFacts.

Module OptoLoaderTheorems.
Import Pipeline Pipeline.Opto OptoLoader OptoLoaderFacts.

Section Loader.
Variable Expt : Type.
Variable config_connections_dir : string.
Variable config_synphys_data : string.
Variable os_path_join : string -> string -> string.
Variable os_path_exists : string -> bool.
Variable lower : string -> string.
Variable AI_Experiment : Source -> Entry -> res Expt.
Variable format_names : list string -> string.

Local Abbreviation load_experiment :=
  (load_experiment Expt config_connections_dir config_synphys_data os_path_join
                   os_path_exists lower AI_Experiment format_names).
Local Abbreviation open_entry :=
  (open_entry Expt config_connections_dir config_synphys_data os_path_join
              os_path_exists lower AI_Experiment).
Local Abbreviation annotate := (annotate config_connections_dir).
Local Abbreviation name := (fun e : Entry => experiment (row e)).

(** X17.  [load_experiment(job_id)] on a loaded csv cache resolves the job
    id by substring: with no entry whose name contains it, it raises
    "Could not find csv entry"; with exactly one, it stores the distance
    rows of that job id and the connections directory in that entry of
    the cache, leaves the other entries alone, and opens the experiment
    from the entry; with two or more it raises and leaves the cache
    alone.  Hence an experiment whose name is contained in the name of
    another entry cannot be loaded by its own name. *)
Theorem load_experiment_resolution files job_id l ds :
  let g := Some {| expt_list := Some l; distance_list := Some ds |} in
  ((forall e, In e l -> contains job_id (name e) = false) ->
   load_experiment files job_id g =
     (Raise (PyException ("Could not find csv entry for " ++ job_id)), g)) /\
  (forall l1 e l2,
     l = (l1 ++ e :: l2)%list -> contains job_id (name e) = true ->
     (forall x, In x l1 \/ In x l2 -> contains job_id (name x) = false) ->
     load_experiment files job_id g =
       (open_entry (annotate job_id ds e),
        Some {| expt_list := Some (l1 ++ annotate job_id ds e :: l2)%list;
                distance_list := Some ds |})) /\
  (forall l1 e1 l2 e2 l3,
     l = (l1 ++ e1 :: l2 ++ e2 :: l3)%list ->
     contains job_id (name e1) = true -> contains job_id (name e2) = true ->
     exists msg, load_experiment files job_id g = (Raise (PyException msg), g)) /\
  (forall l1 e1 l2 e2 l3,
     l = (l1 ++ e1 :: l2 ++ e2 :: l3)%list ->
     (contains (name e1) (name e2) = true ->
      exists msg, load_experiment files (name e1) g = (Raise (PyException msg), g)) /\
     (contains (name e2) (name e1) = true ->
      exists msg, load_experiment files (name e2) g = (Raise (PyException msg), g))).
Proof.
  intros g.
  assert (Amb : forall j l1 e1 l2 e2 l3,
            l = (l1 ++ e1 :: l2 ++ e2 :: l3)%list ->
            contains j (name e1) = true -> contains j (name e2) = true ->
            exists msg, load_experiment files j g = (Raise (PyException msg), g)).
  { intros j l1 e1 l2 e2 l3 -> H1 H2.
    pose proof (matches_ambiguous j l1 e1 l2 e2 l3 H1 H2) as L.
    unfold OptoLoader.load_experiment, g. cbn [read_expt_csvs expt_list distance_list].
    destruct (matches j (l1 ++ e1 :: l2 ++ e2 :: l3)) as [|[i a] [|b r]];
      cbn [List.length] in L; try lia.
    eexists. reflexivity. }
  split; [|split; [|split]].
  - intros Hn. unfold OptoLoader.load_experiment, g.
    cbn [read_expt_csvs expt_list distance_list]. unfold matches.
    rewrite (filter_enumerate_none _ (fun x => contains job_id (name x))); auto.
  - intros l1 e l2 -> He Hn. unfold OptoLoader.load_experiment, g.
    cbn [read_expt_csvs expt_list distance_list].
    rewrite (matches_unique job_id l1 e l2 He Hn).
    now rewrite set_entry_middle.
  - intros l1 e1 l2 e2 l3. apply Amb.
  - intros l1 e1 l2 e2 l3 El. split; intros H.
    + apply (Amb _ l1 e1 l2 e2 l3 El); [apply contains_refl | exact H].
    + apply (Amb _ l1 e1 l2 e2 l3 El); [exact H | apply contains_refl].
Qed.

(** X18.  The csv files are read at most once.  When reading the
    experiment csv fails, the exception leaves the first call, but the
    global is already bound: every later call returns an empty experiment
    list without opening a file, so that [load_experiment] then reports
    every job id as not found.  After a call that returned, every later
    call returns the same data, whatever the files hold by then. *)
Theorem csv_files_read_once files :
  (forall e,
     expt_csv files = Raise e ->
     let g1 := snd (read_expt_csvs files None) in
     fst (read_expt_csvs files None) = Raise e /\
     (forall files',
        read_expt_csvs files' g1 =
          (Ok {| expt_list := Some []; distance_list := None |}, g1)) /\
     (forall files' job_id,
        load_experiment files' job_id g1 =
          (Raise (PyException ("Could not find csv entry for " ++ job_id)), g1))) /\
  (forall d,
     fst (read_expt_csvs files None) = Ok d ->
     let g1 := snd (read_expt_csvs files None) in
     forall files', read_expt_csvs files' g1 = (Ok d, g1)).
Proof.
  split.
  - intros e He. unfold read_expt_csvs at 1 2. rewrite He. cbn [fst snd].
    repeat split.
  - intros d. unfold read_expt_csvs at 1 2.
    destruct (expt_csv files) as [rows|e]; [|discriminate].
    destruct (distance_csv files) as [[dr|e]|]; cbn [fst snd];
      try discriminate; intros E; inversion E; subst; reflexivity.
Qed.

End Loader.

(** X17 on a csv with the experiments [expt_1] and [expt_10]. *)
Lemma load_experiment_resolution_witness :
  let e1 := {| row := {| experiment := "expt_1"; site_path := ""; rig_name := "rig";
                         connections_dir := None |}; distances := None |} in
  let e10 := {| row := {| experiment := "expt_10"; site_path := ""; rig_name := "rig";
                          connections_dir := None |}; distances := None |} in
  let g := Some {| expt_list := Some [e1; e10]; distance_list := Some [] |} in
  let files := {| expt_csv := Ok []; distance_csv := None |} in
  let load := load_experiment unit "cnx" "data" (fun a b => a ++ "/" ++ b)
                (fun _ => true) (fun s => s) (fun _ _ => Ok tt) (String.concat ", ") in
  (exists msg, load files "expt_1" g = (Raise (PyException msg), g)) /\
  fst (load files "expt_10" g) = Ok tt.
Proof.
  intros e1 e10 g files load.
  destruct (load_experiment_resolution unit "cnx" "data" (fun a b => a ++ "/" ++ b)
              (fun _ => true) (fun s => s) (fun _ _ => Ok tt) (String.concat ", ")
              files "expt_1" [e1; e10] []) as (_ & _ & _ & H).
  split.
  - exact (proj1 (H [] e1 [] e10 [] eq_refl) eq_refl).
  - reflexivity.
Defined.

(** X18 when the experiment csv cannot be opened. *)
Lemma csv_files_read_once_witness :
  let files := {| expt_csv := Raise (ExternalError "No such file");
                  distance_csv := None |} in
  let later := {| expt_csv := Ok [ {| experiment := "expt_1"; site_path := "";
                                      rig_name := "rig"; connections_dir := None |} ];
                  distance_csv := None |} in
  let g1 := snd (read_expt_csvs files None) in
  read_expt_csvs later g1 =
    (Ok {| expt_list := Some []; distance_list := None |}, g1).
Proof.
  intros files later g1.
  destruct (proj1 (csv_files_read_once unit "cnx" "data" (fun a b => a ++ "/" ++ b)
                     (fun _ => true) (fun s => s) (fun _ _ => Ok tt)
                     (String.concat ", ") files) _ eq_refl) as (_ & H & _).
  exact (H later).
Defined.

End OptoLoaderTheorems.

(* ===================================================================== *)
(** ** Column types and [make_table]                                     *)
(* ===================================================================== *)
Module SchemaFacts.
Import Schema CollectFacts.























End SchemaFacts.

Module SchemaTheorems.
Import Schema CollectFacts SchemaFacts.





End SchemaTheorems.

Module MarshalTheorems.
Import Marshal.

(** X21.  The binary marshalling of arrays is a round trip.  If what
    [np.save] writes is never empty and [np.load] reads it back, then
    whatever [process_bind_param] stores for an array or for None,
    [process_result_value] returns that array, or None, from it; and
    None is stored as the empty byte string. *)
Theorem NDArray_round_trip (Array : Type)
    (np_save : Array -> res (list Byte.byte))
    (np_load : list Byte.byte -> res Array) :
  (forall a b, np_save a = Ok b -> b <> [] /\ np_load b = Ok a) ->
  process_bind_param Array np_save None = Ok [] /\
  forall value stored,
    process_bind_param Array np_save value = Ok stored ->
    process_result_value Array np_load stored = Ok value.
Proof.
  intros H. split; [reflexivity|].
  intros [a|] stored E; cbn in E.
  - destruct (H a stored E) as [N L].
    destruct stored as [|b0 bs]; [contradiction|].
    cbn [process_result_value]. rewrite L. reflexivity.
  - inversion E. reflexivity.
Qed.

(** X21 for a codec that writes one header byte before the data. *)
Lemma NDArray_round_trip_witness :
  let np_save := fun a : list Byte.byte => Ok (Byte.x93 :: a) in
  let np_load := fun b : list Byte.byte =>
    match b with
    | _ :: a => Ok a
    | [] => Raise (ValueError "no data")
    end in
  process_result_value (list Byte.byte) np_load [Byte.x93; Byte.x01]
    = Ok (Some [Byte.x01]).
Proof.
  intros np_save np_load.
  assert (H : forall a b, np_save a = Ok b -> b <> [] /\ np_load b = Ok a).
  { intros a b E. inversion E. split; [discriminate | reflexivity]. }
  exact (proj2 (NDArray_round_trip (list Byte.byte) np_save np_load H)
               (Some [Byte.x01]) [Byte.x93; Byte.x01] eq_refl).
Defined.

End MarshalTheorems.

(* ===================================================================== *)
(** ** [bake_sqlite] on the table of 2500 rows                           *)
(* ===================================================================== *)
Module BakeTheorems.
Import Database Exporter Admin Bake.

(** C4, the failing input.  [bake_sqlite] on a database whose table holds
    the rows with ids 1 to 2500, from any state of the globals and for any
    number of steps given to the reader and the loop: the call
    [create_tables(engine=sqlite_engine)] raises UnboundLocalError before
    the reader thread is made.  The export returns no result: no maximum
    id is read, no range query is issued and no row reaches the
    destination; no statement is sent to any database and no catalogue
    changes. *)
Theorem bake_sqlite_2500_rows_raises (Payload : Type) (columns_of : nat -> Payload)
    cfg sqlite_file fuel w :
  let r := bake_one_table cfg sqlite_file fuel (table_2500 columns_of) w in
  fst r = Raise (UnboundLocalError "engine_rw") /\
  (forall baked, fst r <> Ok baked) /\
  statements (snd r) = statements w /\
  catalog (snd r) = catalog w.
Proof.
  cbv zeta. unfold bake_one_table, bake_sqlite, create_engine, create_tables.
  cbn [fst snd statements catalog]. repeat split. discriminate.
Qed.

End BakeTheorems.
